(** * GiNOD: cost functions and the receding-horizon planner

    A shallow embedding of [GiNOD/cost.py] and [GiNOD/RHCPlanner.py].

    Scalars.  The Python code computes with JAX and NumPy floating-point
    arrays.  The cost functions are written once, generically over a class
    [Scalar] of array elements, exactly as the Python methods run unchanged
    on floats and on JAX tracers.  Structural facts (loops, indexing,
    aggregation) are proved for every [Scalar]; facts that need arithmetic
    laws are proved at the instance of real numbers, the idealisation of the
    floats.  The code runs in single precision, where an exponential
    saturates ([exp(t) - 1] is exactly [-1] for very negative [t], and
    [exp(t^2)] is exactly [1] for small [t]): what is stated of the real
    instance is an identity between formulas, or a bound that is not strict
    or holds with a margin, never a strict bound that saturation defeats.

    Errors.  Python exceptions are results: [option] in the cost functions
    (the exceptions there are an index into an empty axis and shapes that do
    not broadcast), and a state and exception monad in the planner.

    Objects.  A cost object is the value of its attributes.  A [PlayerCost]
    is the value of its three lists when a jitted method first runs on it:
    [add_cost] appends in place, and the jitted methods, compiled with
    [self] as a static argument, see the terms registered before their
    first call. *)

From Stdlib Require Import Reals Lra ZArith Lia.
From stdpp Require Import base option list strings.

Set Default Proof Using "Type".

(** ** Scalars *)

Class Scalar (T : Type) := {
  of_Z : Z → T;                 (* numeric literals: [0.], [1.], [1e5] *)
  sadd : T → T → T;
  ssub : T → T → T;
  smul : T → T → T;
  sdiv : T → T → T;
  spow : T → nat → T;           (* [x ** n] with a literal [n]: lax.integer_pow *)
  sexp : T → T;
  ssqrt : T → T;
  smin : T → T → T;             (* jnp.minimum *)
  seqb : T → T → bool;
  sltb : T → T → bool;
  sleb : T → T → bool;
}.

Declare Scope scalar_scope.
Delimit Scope scalar_scope with S.
Infix "+" := sadd : scalar_scope.
Infix "-" := ssub : scalar_scope.
Infix "*" := smul : scalar_scope.
Infix "/" := sdiv : scalar_scope.
Notation "x ^ n" := (spow x n) : scalar_scope.
Notation "0" := (of_Z 0) : scalar_scope.
Notation "1" := (of_Z 1) : scalar_scope.
Notation "2" := (of_Z 2) : scalar_scope.

(** The real numbers. *)
Definition Reqb (a b : R) : bool := if Req_dec_T a b then true else false.
Definition Rltb (a b : R) : bool := if Rlt_dec a b then true else false.
Definition Rleb (a b : R) : bool := if Rle_dec a b then true else false.

#[export] Instance R_scalar : Scalar R := {|
  of_Z := IZR;
  sadd := Rplus; ssub := Rminus; smul := Rmult; sdiv := Rdiv;
  spow := pow; sexp := exp; ssqrt := sqrt; smin := Rmin;
  seqb := Reqb; sltb := Rltb; sleb := Rleb;
|}.

(** Dual numbers: the values carried by JAX's forward-mode tracers.  Each
    operation pairs the primal result with the tangent given by the JVP rule
    of the corresponding [lax] primitive. *)
Record Dual (T : Type) := mkDual { primal : T; tangent : T }.
Arguments mkDual {T} _ _.
Arguments primal {T} _.
Arguments tangent {T} _.

Section DualNumbers.
Context {T : Type} `{Scalar T}.
Local Open Scope scalar_scope.

(** [_balanced_eq x z y] of [lax]: the share of the tangent of [x] in
    [z = min x y]; ties are split evenly. *)
Definition balanced_eq (x z y : T) : T :=
  (if seqb x z then 1 else 0) / (if seqb y z then 2 else 1).

Definition dual_const (a : T) : Dual T := mkDual a 0.

#[export] Instance Dual_scalar : Scalar (Dual T) := {|
  of_Z z := dual_const (of_Z z);
  sadd a b := mkDual (primal a + primal b) (tangent a + tangent b);
  ssub a b := mkDual (primal a - primal b) (tangent a - tangent b);
  smul a b := mkDual (primal a * primal b)
                     (tangent a * primal b + primal a * tangent b);
  sdiv a b := mkDual (primal a / primal b)
                     (tangent a / primal b
                      - (tangent b * primal a) / (primal b * primal b));
  spow a n := mkDual (primal a ^ n)
                     (match n with
                      | O => 0
                      | S m => tangent a * (of_Z (Z.of_nat n) * primal a ^ m)
                      end);
  sexp a := let ans := sexp (primal a) in mkDual ans (tangent a * ans);
  (* the rule divides by [ans]: it is the derivative away from [ans = 0]
     only, where JAX yields [inf] or [nan] *)
  ssqrt a := let ans := ssqrt (primal a) in
             mkDual ans (tangent a * ((1 / 2) / ans));
  smin a b := let ans := smin (primal a) (primal b) in
              mkDual ans (tangent a * balanced_eq (primal a) ans (primal b)
                          + tangent b * balanced_eq (primal b) ans (primal a));
  seqb a b := seqb (primal a) (primal b);
  sltb a b := sltb (primal a) (primal b);
  sleb a b := sleb (primal a) (primal b);
|}.
End DualNumbers.

(** ** The part of [jax.numpy] and [jax.lax] the costs use *)

Module jnp.
Section Arrays.
Context {T : Type} `{Scalar T}.
Local Open Scope scalar_scope.

(** Index normalisation of [a[i]] on an axis of size [n]: a negative index
    counts from the end, an index out of range is clamped into range
    (JAX does not raise there), and an empty axis cannot be indexed. *)
Definition norm_index (n : nat) (i : Z) : option nat :=
  if decide (n = 0%nat) then None
  else
    let j := (if decide (i < 0)%Z then i + Z.of_nat n else i)%Z in
    Some (Z.to_nat (Z.max 0 (Z.min j (Z.of_nat n - 1)))).

(** [a[i]] on a one-dimensional array. *)
Definition get (a : list T) (i : Z) : option T :=
  j ← norm_index (length a) i; a !! j.

(** [a[:, k]] on a two-dimensional array given by its rows. *)
Definition col (a : list (list T)) (k : nat) : option (list T) :=
  mapM (λ row, get row (Z.of_nat k)) a.

(** [jnp.zeros(n)]. *)
Definition zeros (n : nat) : list T := replicate n 0.

(** [a.at[k].set(v)] on a one-dimensional array: an index out of range is
    dropped, and an empty axis cannot be indexed. *)
Definition at_set (a : list T) (k : nat) (v : T) : option (list T) :=
  if decide (length a = 0%nat) then None else Some (<[k := v]> a).

(** The rounds [i], ..., [i + n - 1] of a loop with a body that may
    raise. *)
Fixpoint fori_loop_from {A} (i n : nat) (body : nat → A → option A) (val : A)
    : option A :=
  match n with
  | O => Some val
  | S n' => val' ← body i val; fori_loop_from (S i) n' body val'
  end.

(** [lax.fori_loop(lower, upper, body, init)].  The body is traced once,
    whatever the number of rounds, on an index and a value of the shape of
    [init], and what it raises then is raised by the loop, also when no
    round is run.  The bodies here raise on shapes only (an empty axis, a
    value that does not broadcast), not on the index or the entries, so the
    trace is the body run at [lower] on [init]. *)
Definition fori_loop {A} (lower upper : nat) (body : nat → A → option A)
    (init : A) : option A :=
  _ ← body lower init;
  fori_loop_from lower (upper - lower) body init.

(** The [j]-th vector of the standard basis of length [n]. *)
Definition std_basis (n j : nat) : list T :=
  (λ i, if decide (i = j) then 1 else 0) <$> seq 0 n.

(** An array with a tangent attached to every entry, and with none. *)
Definition with_tangent (x dx : list T) : list (Dual T) := zip_with mkDual x dx.
Definition no_tangent (x : list T) : list (Dual T) := dual_const <$> x.

(** [jacfwd(f, argnums=[0, 1])(x, ui)]: one forward pass per basis vector
    of the two arguments; the pair of gradients is returned. *)
Definition jacfwd (f : list (Dual T) → list (Dual T) → option (Dual T))
    (x ui : list T) : option (list T * list T) :=
  _ ← f (no_tangent x) (no_tangent ui);
  gx ← mapM (λ j, tangent <$>
               f (with_tangent x (std_basis (length x) j)) (no_tangent ui))
            (seq 0 (length x));
  gu ← mapM (λ j, tangent <$>
               f (no_tangent x) (with_tangent ui (std_basis (length ui) j)))
            (seq 0 (length ui));
  Some (gx, gu).

(** An array seeded for a second derivative: entry [l] carries the inner
    tangent [di !! l] and the outer tangent [dj !! l]. *)
Definition with_tangent2 (x di dj : list T) : list (Dual (Dual T)) :=
  zip_with (λ p d, mkDual p (dual_const d)) (with_tangent x di) dj.
Definition no_tangent2 (x : list T) : list (Dual (Dual T)) :=
  (λ a, dual_const (dual_const a)) <$> x.

(** [hessian(f, argnums=0)(x, ui)] and [hessian(f, argnums=1)(x, ui)],
    as nested forward passes: entry [i, j] differentiates in direction
    [i], then in direction [j]. *)
Definition hessian0
    (f : list (Dual (Dual T)) → list (Dual (Dual T)) → option (Dual (Dual T)))
    (x ui : list T) : option (list (list T)) :=
  let n := length x in
  _ ← f (no_tangent2 x) (no_tangent2 ui);
  mapM (λ i, mapM (λ j, (λ r, tangent (tangent r)) <$>
                     f (with_tangent2 x (std_basis n i) (std_basis n j))
                       (no_tangent2 ui))
                  (seq 0 n))
       (seq 0 n).
Definition hessian1
    (f : list (Dual (Dual T)) → list (Dual (Dual T)) → option (Dual (Dual T)))
    (x ui : list T) : option (list (list T)) :=
  let n := length ui in
  _ ← f (no_tangent2 x) (no_tangent2 ui);
  mapM (λ i, mapM (λ j, (λ r, tangent (tangent r)) <$>
                     f (no_tangent2 x)
                       (with_tangent2 ui (std_basis n i) (std_basis n j)))
                  (seq 0 n))
       (seq 0 n).
(** [jnp.zeros((n, m))] and [jnp.zeros((n, m, p))], given by rows. *)
Definition zeros2 (n m : nat) : list (list T) := replicate n (zeros m).
Definition zeros3 (n m p : nat) : list (list (list T)) :=
  replicate n (zeros2 m p).

(** Broadcasting along one axis to the size [n]: the sizes agree, or the
    value has size one and is repeated; anything else raises. *)
Definition broadcast_to {A} (n : nat) (v : list A) : option (list A) :=
  if decide (length v = n) then Some v
  else match v with
       | [a] => Some (replicate n a)
       | _ => None
       end.

(** [a.at[:, k].set(v)] for [a] of shape [(n, m)] given by its rows; a
    column [k] out of range is dropped, and an empty axis ([m = 0]) cannot
    be indexed. *)
Definition set_col (n m : nat) (a : list (list T)) (k : nat) (v : list T)
    : option (list (list T)) :=
  if decide (m = 0%nat) then None
  else
    v' ← broadcast_to n v;
    Some (zip_with (λ row vi, <[k := vi]> row) a v').

(** [a.at[:, :, k].set(v)] for [a] of shape [(n, n, m)]. *)
Definition set_slab (n m : nat) (a : list (list (list T))) (k : nat)
    (v : list (list T)) : option (list (list (list T))) :=
  if decide (m = 0%nat) then None
  else
    rows ← mapM (broadcast_to n) v;
    v' ← broadcast_to n rows;
    Some (zip_with (λ plane vrow, zip_with (λ fibre vij, <[k := vij]> fibre)
                                    plane vrow) a v').
End Arrays.
End jnp.


(** ** [cost.py]: the cost classes *)

Module Cost.

(** The attributes set by [Cost.__init__]. *)
Record Base := mkBase {
  _name : string;
  _horizon : nat;
  _x_dim : nat;
  _ui_dim : nat;
}.

(** One constructor per concrete subclass of [Cost], with the attributes its
    [__init__] stores.  The abstract base class itself has no instance: its
    [get_cost] only raises [NotImplementedError]. *)
Inductive t (T : Type) :=
| ObstacleCost (position_indices : Z * Z) (point : T * T) (max_distance : T)
    (base : Base)
| ProductStateProximityCostTwoPlayer (position_indices : list (Z * Z))
    (max_distance : T) (base : Base)
| ProximityCost (position_indices : Z * Z) (point_px point_py max_distance : T)
    (base : Base)
| QuadraticCost (dimension : Z) (origin : T) (is_x : bool) (base : Base)
| ReferenceDeviationCost (reference : T) (dimension : Z) (is_x : bool)
    (base : Base)
| ReferenceDeviationCostPxDependent (reference px_lb : T) (px_dim : Z)
    (dimension : Z) (base : Base)
| SemiquadraticCost (dimension : Z) (threshold : T) (oriented_right is_x : bool)
    (base : Base)
| MaxVelCostPxDependent (v_index px_index : Z) (max_v px_lb px_ub : T)
    (base : Base)
| BoxInputConstraintCost (u_index : Z) (control_min control_max q1 q2 : T)
    (base : Base).
Arguments ObstacleCost {T}.
Arguments ProductStateProximityCostTwoPlayer {T}.
Arguments ProximityCost {T}.
Arguments QuadraticCost {T}.
Arguments ReferenceDeviationCost {T}.
Arguments ReferenceDeviationCostPxDependent {T}.
Arguments SemiquadraticCost {T}.
Arguments MaxVelCostPxDependent {T}.
Arguments BoxInputConstraintCost {T}.

Definition base {T} (c : t T) : Base :=
  match c with
  | ObstacleCost _ _ _ b | ProductStateProximityCostTwoPlayer _ _ b
  | ProximityCost _ _ _ _ b | QuadraticCost _ _ _ b
  | ReferenceDeviationCost _ _ _ b | ReferenceDeviationCostPxDependent _ _ _ _ b
  | SemiquadraticCost _ _ _ _ b | MaxVelCostPxDependent _ _ _ _ _ b
  | BoxInputConstraintCost _ _ _ _ _ b => b
  end.

(** The same cost object seen by code that runs on another kind of scalar:
    its attributes are constants there. *)
Definition lift {T U} (f : T → U) (c : t T) : t U :=
  match c with
  | ObstacleCost pi (px, py) md b => ObstacleCost pi (f px, f py) (f md) b
  | ProductStateProximityCostTwoPlayer pi md b =>
      ProductStateProximityCostTwoPlayer pi (f md) b
  | ProximityCost pi px py md b => ProximityCost pi (f px) (f py) (f md) b
  | QuadraticCost d o is_x b => QuadraticCost d (f o) is_x b
  | ReferenceDeviationCost r d is_x b => ReferenceDeviationCost (f r) d is_x b
  | ReferenceDeviationCostPxDependent r lb pd d b =>
      ReferenceDeviationCostPxDependent (f r) (f lb) pd d b
  | SemiquadraticCost d th o_r is_x b => SemiquadraticCost d (f th) o_r is_x b
  | MaxVelCostPxDependent vi pxi mv lb ub b =>
      MaxVelCostPxDependent vi pxi (f mv) (f lb) (f ub) b
  | BoxInputConstraintCost ui lo hi q1 q2 b =>
      BoxInputConstraintCost ui (f lo) (f hi) (f q1) (f q2) b
  end.

Section Methods.
Context {T : Type} `{Scalar T}.
Local Open Scope scalar_scope.

(** [self._max_exp_bound] of the two capped costs. *)
Definition _max_exp_bound_proximity : T := of_Z 100000.
Definition _max_exp_bound_max_vel : T := of_Z 1000.

(** [get_cost(self, x, ui, k)] of every subclass. *)
Definition get_cost (c : t T) (x ui : list T) (k : nat) : option T :=
  match c with
  | ObstacleCost (x_index, y_index) (point_x, point_y) max_distance _ =>
      xv ← jnp.get x x_index;
      yv ← jnp.get x y_index;
      let dx := xv - point_x in
      let dy := yv - point_y in
      let relative_distance := ssqrt (dx * dx + dy * dy) in
      Some (smin (relative_distance - max_distance) 0 ^ 2)
  | ProductStateProximityCostTwoPlayer position_indices max_distance _ =>
      let total_cost := 0 in
      '(x1_idx, y1_idx) ← position_indices !! 0%nat;
      '(x2_idx, y2_idx) ← position_indices !! 1%nat;
      x1 ← jnp.get x x1_idx;
      x2 ← jnp.get x x2_idx;
      y1 ← jnp.get x y1_idx;
      y2 ← jnp.get x y2_idx;
      let rel_dist := ssqrt ((x1 - x2) ^ 2 + (y1 - y2) ^ 2) in
      let total_cost :=
        total_cost
        + smin (sexp (smin (rel_dist - max_distance) 0 ^ 2))
               _max_exp_bound_proximity in
      let rel_dist := ssqrt ((x2 - x1) ^ 2 + (y2 - y1) ^ 2) in
      let total_cost :=
        total_cost
        + smin (sexp (smin (rel_dist - max_distance) 0 ^ 2))
               _max_exp_bound_proximity in
      Some total_cost
  | ProximityCost (x_index, y_index) point_px point_py max_distance _ =>
      xv ← jnp.get x x_index;
      yv ← jnp.get x y_index;
      let dx := xv - point_px in
      let dy := yv - point_py in
      let rel_dist := ssqrt (dx ^ 2 + dy ^ 2) in
      Some (sexp (smin (rel_dist - max_distance) 0 ^ 2))
  | QuadraticCost dimension origin is_x _ =>
      if is_x then v ← jnp.get x dimension; Some ((v - origin) ^ 2)
      else v ← jnp.get ui dimension; Some ((v - origin) ^ 2)
  | ReferenceDeviationCost reference dimension is_x _ =>
      if is_x then v ← jnp.get x dimension; Some ((v - reference) ^ 2)
      else v ← jnp.get ui dimension; Some ((v - reference) ^ 2)
  | ReferenceDeviationCostPxDependent reference px_lb px_dim dimension _ =>
      px ← jnp.get x px_dim;
      v ← jnp.get x dimension;
      Some (if sleb px_lb px then (v - reference) ^ 2 else 0)
  | SemiquadraticCost dimension threshold oriented_right is_x _ =>
      let z := if is_x then x else ui in
      v ← jnp.get z dimension;
      if oriented_right
      then Some (if sltb threshold v then sexp ((v - threshold) ^ 2) else 0)
      else Some (if sltb v threshold then sexp ((v - threshold) ^ 2) else 0)
  | MaxVelCostPxDependent v_index px_index max_v px_lb px_ub _ =>
      px ← jnp.get x px_index;
      v ← jnp.get x v_index;
      let pred := sltb max_v v && sltb px_lb px && sltb px px_ub in
      Some (if pred
            then smin (sexp ((v - max_v) ^ 2)) _max_exp_bound_max_vel
            else 0)
  | BoxInputConstraintCost u_index control_min control_max q1 q2 _ =>
      control ← jnp.get ui u_index;
      let margin_ub := control - control_max in
      let margin_lb := control_min - control in
      let c_ub := q1 * (sexp (q2 * margin_ub) - 1) in
      let c_lb := q1 * (sexp (q2 * margin_lb) - 1) in
      Some (c_lb + c_ub)
  end.

(** [get_traj_cost(self, x, ui)]: [x] and [ui] are two-dimensional, given
    by their rows. *)
Definition get_traj_cost_looper (c : t T) (x ui : list (list T))
    (k : nat) (costs : list T) : option (list T) :=
  xk ← jnp.col x k;
  uk ← jnp.col ui k;
  v ← get_cost c xk uk k;
  jnp.at_set costs k v.

Definition get_traj_cost (c : t T) (x ui : list (list T)) : option (list T) :=
  let costs := jnp.zeros (_horizon (base c)) in
  jnp.fori_loop 0 (_horizon (base c)) (get_traj_cost_looper c x ui) costs.

End Methods.

Section Derivatives.
Context {T : Type} `{Scalar T}.

(** [get_grad(self, x, ui, k)]. *)
Definition get_grad (c : t T) (x ui : list T) (k : nat)
    : option (list T * list T) :=
  jnp.jacfwd (λ xd ud, get_cost (lift dual_const c) xd ud k) x ui.

(** [get_hess(self, x, ui, k)]. *)
Definition get_hess (c : t T) (x ui : list T) (k : nat)
    : option (list (list T) * list (list T)) :=
  let c2 := lift (λ a, dual_const (dual_const a)) c in
  Hxx ← jnp.hessian0 (λ xd ud, get_cost c2 xd ud k) x ui;
  Huu ← jnp.hessian1 (λ xd ud, get_cost c2 xd ud k) x ui;
  Some (Hxx, Huu).

(** [get_traj_grad(self, x, ui)]. *)
Definition get_traj_grad_looper (c : t T) (x ui : list (list T)) (k : nat)
    (_carry : list (list T) * list (list T))
    : option (list (list T) * list (list T)) :=
  let '(lxs, lus) := _carry in
  xk ← jnp.col x k;
  uk ← jnp.col ui k;
  '(lx_k, lu_k) ← get_grad c xk uk k;
  lxs ← jnp.set_col (_x_dim (base c)) (_horizon (base c)) lxs k lx_k;
  lus ← jnp.set_col (_ui_dim (base c)) (_horizon (base c)) lus k lu_k;
  Some (lxs, lus).

Definition get_traj_grad (c : t T) (x ui : list (list T))
    : option (list (list T) * list (list T)) :=
  let lxs := jnp.zeros2 (_x_dim (base c)) (_horizon (base c)) in
  let lus := jnp.zeros2 (_ui_dim (base c)) (_horizon (base c)) in
  jnp.fori_loop 0 (_horizon (base c)) (get_traj_grad_looper c x ui) (lxs, lus).

(** [get_traj_hess(self, x, ui)]. *)
Definition get_traj_hess_looper (c : t T) (x ui : list (list T)) (k : nat)
    (_carry : list (list (list T)) * list (list (list T)))
    : option (list (list (list T)) * list (list (list T))) :=
  let '(Hxxs, Huus) := _carry in
  xk ← jnp.col x k;
  uk ← jnp.col ui k;
  '(Hxx_k, Huu_k) ← get_hess c xk uk k;
  Hxxs ← jnp.set_slab (_x_dim (base c)) (_horizon (base c)) Hxxs k Hxx_k;
  Huus ← jnp.set_slab (_ui_dim (base c)) (_horizon (base c)) Huus k Huu_k;
  Some (Hxxs, Huus).

Definition get_traj_hess (c : t T) (x ui : list (list T))
    : option (list (list (list T)) * list (list (list T))) :=
  let Hxxs := jnp.zeros3 (_x_dim (base c)) (_x_dim (base c)) (_horizon (base c)) in
  let Huus := jnp.zeros3 (_ui_dim (base c)) (_ui_dim (base c)) (_horizon (base c)) in
  jnp.fori_loop 0 (_horizon (base c)) (get_traj_hess_looper c x ui) (Hxxs, Huus).

End Derivatives.
End Cost.


Module PlayerCost.

(** The argument a cost term is registered for: ["x"] or a player index. *)
Inductive arg := ArgX | ArgPlayer (i : Z).

(** The three lists kept by a [PlayerCost]: the object as it is when a
    jitted method first runs on it. *)
Record t (T : Type) := mk {
  _costs : list (Cost.t T);
  _args : list arg;
  _weights : list T;
}.
Arguments mk {T}.
Arguments _costs {T}.
Arguments _args {T}.
Arguments _weights {T}.

(** What [total_cost] holds: the float it starts as, or an array. *)
Inductive value (T : Type) := Float (v : T) | Array (a : list T).
Arguments Float {T}.
Arguments Array {T}.

Section Methods.
Context {T : Type} `{Scalar T}.
Local Open Scope scalar_scope.

(** [__init__]. *)
Definition init : t T := mk [] [] [].

(** [add_cost(self, cost, arg, weight)]: the lists after the three
    appends.  It describes registering a term before the first call of a
    jitted method; a term appended after such a call is not seen by the
    function compiled at that call. *)
Definition add_cost (self : t T) (cost : Cost.t T) (a : arg) (weight : T) : t T :=
  mk (_costs self ++ [cost]) (_args self ++ [a]) (_weights self ++ [weight]).

(** [weight * a] for a float [weight] and an array [a]. *)
Definition scale (weight : T) (a : list T) : list T := smul weight <$> a.

(** [total_cost + a] with NumPy broadcasting; shapes that do not broadcast
    raise. *)
Definition add (total_cost : value T) (a : list T) : option (value T) :=
  match total_cost with
  | Float v => Some (Array (sadd v <$> a))
  | Array b =>
      if decide (length b = length a) then Some (Array (zip_with sadd b a))
      else match b, a with
           | [v], _ => Some (Array (sadd v <$> a))
           | _, [w] => Some (Array ((λ v, v + w) <$> b))
           | _, _ => None
           end
  end.

(** The loop of [get_cost] over [zip(self._costs, self._weights)]. *)
Fixpoint get_cost_loop (terms : list (Cost.t T * T)) (x ui : list (list T))
    (total_cost : value T) : option (value T) :=
  match terms with
  | [] => Some total_cost
  | (cost, weight) :: rest =>
      traj ← Cost.get_traj_cost cost x ui;
      total_cost ← add total_cost (scale weight traj);
      get_cost_loop rest x ui total_cost
  end.

(** [get_cost(self, x, ui, k)]. *)
Definition get_cost (self : t T) (x ui : list (list T)) (k : nat)
    : option (value T) :=
  let total_cost := Float 0 in
  get_cost_loop (zip (_costs self) (_weights self)) x ui total_cost.

End Methods.
End PlayerCost.


(** ** The part of NumPy the planner uses

    An array is its shape and its elements, read by a multi-index.  Every
    operation checks indices and shapes where NumPy does and returns the
    exception NumPy raises. *)

Module np.

Inductive error := IndexError | ValueError | TypeError.

(** One entry of a basic index: an integer, [:], or [lo:hi] with
    non-negative bounds. *)
Inductive index := Idx (i : Z) | All | Slice (lo hi : nat).

(** An index entry resolved against an axis: one position, or the range of
    [len] positions from [start]. *)
Inductive sel := Fixed (i : nat) | Range (start len : nat).

(** An integer index on an axis of size [n]: negative indices count from
    the end, anything outside [-n .. n-1] raises. *)
Definition norm_index (n : nat) (i : Z) : option nat :=
  if decide (0 ≤ i < Z.of_nat n)%Z then Some (Z.to_nat i)
  else if decide (- Z.of_nat n ≤ i < 0)%Z then Some (Z.to_nat (i + Z.of_nat n))
  else None.

Definition resolve1 (n : nat) (ix : index) : option sel :=
  match ix with
  | Idx i => Fixed <$> norm_index n i
  | All => Some (Range 0 n)
  | Slice lo hi => Some (Range (lo `min` n) ((hi `min` n) - (lo `min` n)))
  end.

(** The entries of an index against the axes of a shape; axes without an
    entry are taken whole, an entry without an axis raises. *)
Fixpoint resolve (shape : list nat) (ixs : list index) : option (list sel) :=
  match ixs, shape with
  | [], _ => Some ((λ n, Range 0 n) <$> shape)
  | _ :: _, [] => None
  | ix :: ixs', n :: shape' =>
      s ← resolve1 n ix; ss ← resolve shape' ixs'; Some (s :: ss)
  end.

(** The shape of the selected region. *)
Fixpoint region_shape (sels : list sel) : list nat :=
  match sels with
  | [] => []
  | Fixed _ :: sels' => region_shape sels'
  | Range _ len :: sels' => len :: region_shape sels'
  end.

(** From a multi-index of the region to the multi-index of the array. *)
Fixpoint embed (sels : list sel) (r : list nat) : list nat :=
  match sels with
  | [] => []
  | Fixed i :: sels' => i :: embed sels' r
  | Range start _ :: sels' => (start + hd 0%nat r)%nat :: embed sels' (tl r)
  end.

(** From a multi-index of the array to the multi-index of the region, when
    it lies in the region. *)
Fixpoint project (sels : list sel) (full : list nat) : option (list nat) :=
  match sels, full with
  | [], [] => Some []
  | Fixed i :: sels', j :: full' =>
      if decide (i = j) then project sels' full' else None
  | Range start len :: sels', j :: full' =>
      if decide (start ≤ j < start + len)%nat
      then ((j - start)%nat ::.) <$> project sels' full'
      else None
  | _, _ => None
  end.

(** Broadcasting.  [bindex vshape r] is the multi-index at which an array
    of shape [vshape], broadcast to a shape with multi-index [r], is read:
    axes are aligned at the right, an axis of size one is read at zero. *)
Definition bindex1 (d j : nat) : nat := if decide (d = 1%nat) then 0%nat else j.
Definition bindex (vshape : list nat) (r : list nat) : list nat :=
  let dv := length vshape in
  let dr := length r in
  zip_with bindex1 vshape (replicate (dv - dr) 0%nat ++ drop (dr - dv) r).

(** Whether a value of shape [vshape] may be assigned to a region of shape
    [rshape]: surplus leading axes must have size one, the others must
    agree with the region or have size one. *)
Definition can_assign (vshape rshape : list nat) : bool :=
  let dv := length vshape in
  let dr := length rshape in
  bool_decide (Forall (λ d, d = 1%nat) (take (dv - dr) vshape))
  && bool_decide (Forall2 (λ d n, d = n ∨ d = 1%nat)
                    (drop (dv - dr) vshape) (drop (dr - dv) rshape)).

(** The common shape of two operands, on the reversed shapes. *)
Fixpoint broadcast_rev (r1 r2 : list nat) : option (list nat) :=
  match r1, r2 with
  | [], r | r, [] => Some r
  | d1 :: r1', d2 :: r2' =>
      d ← (if decide (d1 = d2) then Some d1
           else if decide (d1 = 1%nat) then Some d2
           else if decide (d2 = 1%nat) then Some d1
           else None);
      (d ::.) <$> broadcast_rev r1' r2'
  end.
Definition broadcast_shapes (s1 s2 : list nat) : option (list nat) :=
  reverse <$> broadcast_rev (reverse s1) (reverse s2).

Section NDArray.
Context {T : Type} `{Scalar T}.
Local Open Scope scalar_scope.

Record ndarray := mk {
  shape : list nat;
  at_ : list nat → T;
}.

(** [np.zeros(shape)]. *)
Definition zeros (sh : list nat) : ndarray := mk sh (λ _, 0).

(** [len(a)]. *)
Definition len (a : ndarray) : error + nat :=
  match shape a with
  | [] => inl TypeError
  | n :: _ => inr n
  end.

(** [a[ixs]]. *)
Definition getitem (a : ndarray) (ixs : list index) : error + ndarray :=
  match resolve (shape a) ixs with
  | None => inl IndexError
  | Some sels => inr (mk (region_shape sels) (λ r, at_ a (embed sels r)))
  end.

(** [a[ixs] = v]. *)
Definition setitem (a : ndarray) (ixs : list index) (v : ndarray)
    : error + ndarray :=
  match resolve (shape a) ixs with
  | None => inl IndexError
  | Some sels =>
      if can_assign (shape v) (region_shape sels)
      then inr (mk (shape a)
                   (λ full, match project sels full with
                            | Some r => at_ v (bindex (shape v) r)
                            | None => at_ a full
                            end))
      else inl ValueError
  end.

(** [np.broadcast_to(a, sh)], for a shape [a] broadcasts to. *)
Definition broadcast_to (a : ndarray) (sh : list nat) : ndarray :=
  mk sh (λ r, at_ a (bindex (shape a) r)).

(** [t * a] for a float [t]. *)
Definition scale (t : T) (a : ndarray) : ndarray :=
  mk (shape a) (λ r, t * at_ a r).

(** [a + b]. *)
Definition add (a b : ndarray) : error + ndarray :=
  match broadcast_shapes (shape a) (shape b) with
  | None => inl ValueError
  | Some sh =>
      inr (mk sh (λ r, at_ a (bindex (shape a) r) + at_ b (bindex (shape b) r)))
  end.

(** [np.hstack((a, b))] of two one-dimensional arrays (the planner stacks
    columns of two-dimensional arrays only). *)
Definition hstack (a b : ndarray) : error + ndarray :=
  match shape a, shape b with
  | [n], [m] =>
      inr (mk [(n + m)%nat]
              (λ r, let i := hd 0%nat r in
                    if decide (i < n)%nat then at_ a [i] else at_ b [(i - n)%nat]))
  | _, _ => inl ValueError
  end.

(** [np.array((a, b))]: the two values stacked along a new first axis. *)
Definition array2 (a b : ndarray) : error + ndarray :=
  if decide (shape a = shape b)
  then inr (mk (2%nat :: shape a)
               (λ r, if decide (hd 0%nat r = 0%nat) then at_ a (tl r)
                     else at_ b (tl r)))
  else inl ValueError.

End NDArray.
Arguments ndarray T : clear implicits.
End np.


(** ** [RHCPlanner.py] *)

Module RHCPlanner.

(** Exceptions: those [plan] itself raises, tagged with the source
    expression that raises them, and those raised inside a collaborator. *)
Inductive exn (E : Type) :=
| IndexError (site : string)
| ValueError (site : string)
| TypeError (site : string)
| NotImplementedError
| Collaborator (e : E).
Arguments IndexError {E}.
Arguments ValueError {E}.
Arguments TypeError {E}.
Arguments NotImplementedError {E}.
Arguments Collaborator {E}.

Inductive outcome (E A : Type) := Ok (a : A) | Raise (e : exn E).
Arguments Ok {E A}.
Arguments Raise {E A}.

(** Computations on a state [St] that may raise; the state reached when the
    exception is raised is kept. *)
Definition M (St E A : Type) : Type := St → St * outcome E A.

Definition ret {St E A} (a : A) : M St E A := λ s, (s, Ok a).
Definition bind {St E A B} (m : M St E A) (f : A → M St E B) : M St E B :=
  λ s, match m s with
       | (s', Ok a) => f a s'
       | (s', Raise e) => (s', Raise e)
       end.
Definition raise {St E A} (e : exn E) : M St E A := λ s, (s, Raise e).
Definition gets {St E A} (f : St → A) : M St E A := λ s, (s, Ok (f s)).
Definition modify {St E} (f : St → St) : M St E unit := λ s, (f s, Ok tt).

#[export] Instance M_ret {St E} : MRet (M St E) := λ A, ret.
#[export] Instance M_bind {St E} : MBind (M St E) := λ A B f m, bind m f.

(** [for i in range(n)], from [i], threading the loop's variables. *)
Fixpoint for_range_from {St E A} (i n : nat) (body : nat → A → M St E A)
    (a : A) : M St E A :=
  match n with
  | O => ret a
  | S n' => bind (body i a) (for_range_from (S i) n' body)
  end.
Definition for_range {St E A} (n : nat) (body : nat → A → M St E A) (a : A)
    : M St E A :=
  for_range_from 0 n body a.

Section Planner.
Context {T : Type} `{Scalar T}.
(** The collaborators: their joint internal state [W], the exceptions [E]
    they raise, the controls [U] the QMDP planners return, and the handles
    [Solver] of the subgame solvers. *)
Context {W E U Solver : Type}.

Abbreviation ndarray := (np.ndarray T).

(** The tuple [subgame_k]. *)
Record subgame := mk_subgame {
  Z1_k : ndarray; Z2_k : ndarray;
  zeta1_k : ndarray; zeta2_k : ndarray;
  xnom_k : ndarray;
  znom1_k : ndarray; znom2_k : ndarray;
  nom_cost1_k : ndarray; nom_cost2_k : ndarray;
}.

(** What [plan] uses of its collaborators.  A call takes the collaborators'
    state and returns the new state and the result, or raises. *)
Record collaborators := {
  (* solver.run(x) and solver._best_operating_point *)
  solver_run : Solver → ndarray → W → E + W;
  _best_operating_point : Solver → W → list ndarray;
  (* self._QMDP_P<player>.plan_level_0(x, z_own, z_opp, subgames) *)
  plan_level_0 : nat → ndarray → ndarray → ndarray → list (list Solver) →
                 W → E + W * U;
  (* self._QMDP_P<player>.plan_level_1(x, z_own, z_opp, att_own, att_opp,
     subgames, subgame_k) *)
  plan_level_1 : nat → ndarray → ndarray → ndarray → ndarray → ndarray →
                 list (list Solver) → subgame → W → E + W * U;
  (* self._GiNOD: cont_time_dyn(x_jnt, None, subgame_k), _T, _num_opn_P1,
     _num_opn_P2 *)
  cont_time_dyn : ndarray → subgame → W →
                  E + W * (ndarray * ndarray * ndarray * ndarray);
  _T : T;
  _num_opn_P1 : nat;
  _num_opn_P2 : nat;
  (* self._ph_sys.disc_time_dyn(x, u_list) *)
  disc_time_dyn : ndarray → list U → W → E + W * ndarray;
}.

(** The attributes of the planner object. *)
Record t := mk {
  _subgames : list (list Solver);
  _N_sim : nat;
  _method : string;
  _look_ahead : Z;
  xs : option ndarray;
  zs : option ndarray;
  Hs : option ndarray;
  PoI : option ndarray;
}.

(** [__init__]: the configuration is stored and the results are [None]. *)
Definition init (subgames : list (list Solver)) (N_sim : nat) (look_ahead : Z)
    (method : string) : t :=
  mk subgames N_sim method look_ahead None None None None.

(** One call of the opinion-dynamics model: its arguments and its result. *)
Record GiNOD_call := mk_call {
  call_x_jnt : ndarray;
  call_subgame : subgame;
  call_z_dot : ndarray;
  call_H : ndarray;
  call_PoI1 : ndarray;
  call_PoI2 : ndarray;
}.

(** The state [plan] runs on: the planner object, the collaborators, and
    the calls of the opinion-dynamics model made so far. *)
Record state := mk_state {
  self : t;
  world : W;
  GiNOD_calls : list GiNOD_call;
}.

Abbreviation M := (M state E).

Variable env : collaborators.

(** A NumPy operation at the source expression [site]. *)
Definition exn_of (site : string) (err : np.error) : exn E :=
  match err with
  | np.IndexError => IndexError site
  | np.ValueError => ValueError site
  | np.TypeError => TypeError site
  end.
Definition numpy {A} (site : string) (r : np.error + A) : M A :=
  match r with
  | inr a => ret a
  | inl err => raise (exn_of site err)
  end.

(** [seq[i]] on a Python list or tuple. *)
Definition item {A} (site : string) (l : list A) (i : nat) : M A :=
  match l !! i with
  | Some a => ret a
  | None => raise (IndexError site)
  end.

(** A call of a collaborator. *)
Definition call {A} (f : W → E + W * A) : M A :=
  λ s, match f (world s) with
       | inr (w, a) => (mk_state (self s) w (GiNOD_calls s), Ok a)
       | inl e => (s, Raise (Collaborator e))
       end.

(** Notes a call of the opinion-dynamics model in the state. *)
Definition record_call (c : GiNOD_call) : M unit :=
  modify (λ s, mk_state (self s) (world s) (GiNOD_calls s ++ [c])).

(** The arrays collecting the subgame information of one step. *)
Record bundle := mk_bundle {
  b_Z1 : ndarray; b_Z2 : ndarray;
  b_zeta1 : ndarray; b_zeta2 : ndarray;
  b_nom_cost1 : ndarray; b_nom_cost2 : ndarray;
  b_xnom : ndarray;
}.

(** The body of the loops over [l1] and [l2] at step [k]. *)
Definition solve_subgame (xs : ndarray) (k l1 l2 : nat) (b : bundle) : M bundle :=
  subgames ← gets (λ s, _subgames (self s));
  look_ahead ← gets (λ s, _look_ahead (self s));
  row ← item "self._subgames[l1]" subgames l1;
  solver ← item "self._subgames[l1][l2]" row l2;
  x_k ← numpy "xs[:, k]" (np.getitem xs [np.All; np.Idx (Z.of_nat k)]);
  _ ← call (λ w, match solver_run env solver x_k w with
                 | inl e => inl e
                 | inr w' => inr (w', tt)
                 end);
  operating_point ← gets (λ s, _best_operating_point env solver (world s));
  xs_ILQ ← item "solver._best_operating_point[0]" operating_point 0;
  v ← numpy "xs_ILQ[:, self._look_ahead]"
         (np.getitem xs_ILQ [np.All; np.Idx look_ahead]);
  xnom ← numpy "xnom_k[:, l1, l2]"
         (np.setitem (b_xnom b)
            [np.All; np.Idx (Z.of_nat l1); np.Idx (Z.of_nat l2)] v);
  op4 ← item "solver._best_operating_point[4]" operating_point 4;
  Zs ← numpy "np.asarray(solver._best_operating_point[4])[:, :, :, 0]"
         (np.getitem op4 [np.All; np.All; np.All; np.Idx 0]);
  op5 ← item "solver._best_operating_point[5]" operating_point 5;
  zetas ← numpy "np.asarray(solver._best_operating_point[5])[:, :, 0]"
         (np.getitem op5 [np.All; np.All; np.Idx 0]);
  nom_costs ← item "solver._best_operating_point[6]" operating_point 6;
  v ← numpy "Zs[0, :, :]" (np.getitem Zs [np.Idx 0; np.All; np.All]);
  Z1 ← numpy "Z1_k[:, :, l1, l2]"
         (np.setitem (b_Z1 b)
            [np.All; np.All; np.Idx (Z.of_nat l1); np.Idx (Z.of_nat l2)] v);
  v ← numpy "Zs[1, :, :]" (np.getitem Zs [np.Idx 1; np.All; np.All]);
  Z2 ← numpy "Z2_k[:, :, l1, l2]"
         (np.setitem (b_Z2 b)
            [np.All; np.All; np.Idx (Z.of_nat l1); np.Idx (Z.of_nat l2)] v);
  v ← numpy "zetas[0, :]" (np.getitem zetas [np.Idx 0; np.All]);
  zeta1 ← numpy "zeta1_k[:, l1, l2]"
         (np.setitem (b_zeta1 b)
            [np.All; np.Idx (Z.of_nat l1); np.Idx (Z.of_nat l2)] v);
  v ← numpy "zetas[1, :]" (np.getitem zetas [np.Idx 1; np.All]);
  zeta2 ← numpy "zeta2_k[:, l1, l2]"
         (np.setitem (b_zeta2 b)
            [np.All; np.Idx (Z.of_nat l1); np.Idx (Z.of_nat l2)] v);
  v ← numpy "nom_costs[0]" (np.getitem nom_costs [np.Idx 0]);
  nom_cost1 ← numpy "nom_cost1_k[l1, l2]"
         (np.setitem (b_nom_cost1 b)
            [np.Idx (Z.of_nat l1); np.Idx (Z.of_nat l2)] v);
  v ← numpy "nom_costs[1]" (np.getitem nom_costs [np.Idx 1]);
  nom_cost2 ← numpy "nom_cost2_k[l1, l2]"
         (np.setitem (b_nom_cost2 b)
            [np.Idx (Z.of_nat l1); np.Idx (Z.of_nat l2)] v);
  mret (mk_bundle Z1 Z2 zeta1 zeta2 nom_cost1 nom_cost2 xnom).

(** The arrays [plan] fills: [xs], [zs], [Hs], [PoI]. *)
Definition logs : Type := ndarray * ndarray * ndarray * ndarray.

(** The body of the loop over [k]. *)
Definition plan_step (z0 : ndarray) (nx nz1 nz2 : nat) (k : nat) (l : logs)
    : M logs :=
  let '(xs, zs, Hs, PoI) := l in
  (* Initialize subgame information. *)
  let b := mk_bundle (np.zeros [nx; nx; nz1; nz2]) (np.zeros [nx; nx; nz1; nz2])
                     (np.zeros [nx; nz1; nz2]) (np.zeros [nx; nz1; nz2])
                     (np.zeros [2; 2]) (np.zeros [2; 2])
                     (np.zeros [nx; nz1; nz2])%nat in
  (* Solve subgames and collect subgame information. *)
  b ← for_range nz1 (λ l1, for_range nz2 (λ l2, solve_subgame xs k l1 l2)) b;
  znom1_k ← (if decide (k = 0)%nat
              then numpy "z0[:nz1]" (np.getitem z0 [np.Slice 0 nz1])
              else numpy "zs[:nz1, k - 1]"
                     (np.getitem zs [np.Slice 0 nz1; np.Idx (Z.of_nat (k - 1))]));
  znom2_k ← (if decide (k = 0)%nat
              then numpy "z0[nz1:nz1 + nz2]"
                     (np.getitem z0 [np.Slice nz1 (nz1 + nz2)])
              else numpy "zs[nz1:nz1 + nz2, k - 1]"
                     (np.getitem zs [np.Slice nz1 (nz1 + nz2);
                                     np.Idx (Z.of_nat (k - 1))]));
  z1_k ← numpy "zs[:nz1, k]"
            (np.getitem zs [np.Slice 0 nz1; np.Idx (Z.of_nat k)]);
  z2_k ← numpy "zs[nz1:nz1 + nz2, k]"
            (np.getitem zs [np.Slice nz1 (nz1 + nz2); np.Idx (Z.of_nat k)]);
  att1_k ← numpy "zs[nz1 + nz2:nz1 + nz2 + 1, k]"
            (np.getitem zs [np.Slice (nz1 + nz2) (nz1 + nz2 + 1);
                            np.Idx (Z.of_nat k)]);
  att2_k ← numpy "zs[-1, k]" (np.getitem zs [np.Idx (-1); np.Idx (Z.of_nat k)]);
  let subgame_k :=
    mk_subgame (b_Z1 b) (b_Z2 b) (b_zeta1 b) (b_zeta2 b) (b_xnom b)
               znom1_k znom2_k (b_nom_cost1 b) (b_nom_cost2 b) in
  (* Solves QMDP based on current subgames and opinion states. *)
  method ← gets (λ s, _method (self s));
  subgames ← gets (λ s, _subgames (self s));
  let xs_k := numpy "xs[:, k]" (np.getitem xs [np.All; np.Idx (Z.of_nat k)]) in
  u_list ←
    (if String.eqb method "QMDPL0" then
       x_k ← xs_k;
       u1 ← call (plan_level_0 env 1 x_k z1_k z2_k subgames);
       x_k ← xs_k;
       u2 ← call (plan_level_0 env 2 x_k z2_k z1_k subgames);
       mret [u1; u2]
     else if String.eqb method "QMDPL1" then
       x_k ← xs_k;
       u1 ← call (plan_level_1 env 1 x_k z1_k z2_k att1_k att2_k
                    subgames subgame_k);
       x_k ← xs_k;
       u2 ← call (plan_level_1 env 2 x_k z2_k z1_k att2_k att1_k
                    subgames subgame_k);
       mret [u1; u2]
     else if String.eqb method "QMDPL1L0" then
       x_k ← xs_k;
       u1 ← call (plan_level_1 env 1 x_k z1_k z2_k att1_k att2_k
                    subgames subgame_k);
       x_k ← xs_k;
       u2 ← call (plan_level_0 env 2 x_k z2_k z1_k subgames);
       mret [u1; u2]
     else raise NotImplementedError);
  (* Evolves GiNOD. *)
  x_k ← xs_k;
  z_k ← numpy "zs[:, k]" (np.getitem zs [np.All; np.Idx (Z.of_nat k)]);
  x_jnt ← numpy "np.hstack((xs[:, k], zs[:, k]))" (np.hstack x_k z_k);
  '(z_dot_k, H_k, PoI1_k, PoI2_k) ← call (cont_time_dyn env x_jnt subgame_k);
  _ ← record_call (mk_call x_jnt subgame_k z_dot_k H_k PoI1_k PoI2_k);
  z_k ← numpy "zs[:, k]" (np.getitem zs [np.All; np.Idx (Z.of_nat k)]);
  z_next ← numpy "zs[:, k] + self._GiNOD._T * np.asarray(z_dot_k)"
            (np.add z_k (np.scale (_T env) z_dot_k));
  zs ← numpy "zs[:, k + 1]"
            (np.setitem zs [np.All; np.Idx (Z.of_nat (k + 1))] z_next);
  Hs ← numpy "Hs[:, :, k]"
            (np.setitem Hs [np.All; np.All; np.Idx (Z.of_nat k)] H_k);
  PoI_k ← numpy "np.array((PoI1_k, PoI2_k))" (np.array2 PoI1_k PoI2_k);
  PoI ← numpy "PoI[:, k]"
            (np.setitem PoI [np.All; np.Idx (Z.of_nat k)] PoI_k);
  (* Evolve states of physical system. *)
  x_k ← xs_k;
  x_ph_next ← call (disc_time_dyn env x_k u_list);
  xs ← numpy "xs[:, k + 1]"
            (np.setitem xs [np.All; np.Idx (Z.of_nat (k + 1))] x_ph_next);
  mret (xs, zs, Hs, PoI).

(** [plan(self, x0, z0)]. *)
Definition plan (x0 z0 : ndarray) : M unit :=
  (* Initialization. *)
  nx ← numpy "len(x0)" (np.len x0);
  nz ← numpy "len(z0)" (np.len z0);
  let nz1 := _num_opn_P1 env in
  let nz2 := _num_opn_P2 env in
  N_sim ← gets (λ s, _N_sim (self s));
  let xs := np.zeros [nx; N_sim + 1]%nat in
  let zs := np.zeros [nz; N_sim + 1]%nat in
  xs ← numpy "xs[:, 0]" (np.setitem xs [np.All; np.Idx 0] x0);
  zs ← numpy "zs[:, 0]" (np.setitem zs [np.All; np.Idx 0] z0);
  let Hs := np.zeros [nz1 + nz2; nz1 + nz2; N_sim]%nat in
  let PoI := np.zeros [2; N_sim]%nat in
  '(xs, zs, Hs, PoI) ← for_range N_sim (plan_step z0 nx nz1 nz2)
                          (xs, zs, Hs, PoI);
  (* Save data. *)
  modify (λ s, mk_state
                 (mk (_subgames (self s)) (_N_sim (self s)) (_method (self s))
                     (_look_ahead (self s))
                     (Some xs) (Some zs) (Some Hs) (Some PoI))
                 (world s) (GiNOD_calls s)).

End Planner.
End RHCPlanner.

(** ** Reference definitions, in the words of the specification *)

Section Specification.
Context {T : Type} `{Scalar T}.
Local Open Scope scalar_scope.

(** The [k]-th column of a two-dimensional array given by its rows. *)
Definition column (a : list (list T)) (k : nat) : list T :=
  (λ row, default 0 (row !! k)) <$> a.

(** The sequence obtained by calling [get_cost] independently at each of
    the [N] time columns. *)
Definition pointwise_costs (c : Cost.t T) (x ui : list (list T)) (N : nat)
    : option (list T) :=
  mapM (λ k, Cost.get_cost c (column x k) (column ui k) k) (seq 0 N).

(** The [PlayerCost] with the given terms registered, in order. *)
Definition registered (terms : list (Cost.t T * PlayerCost.arg * T))
    : PlayerCost.t T :=
  foldl (λ self term, PlayerCost.add_cost self term.1.1 term.1.2 term.2)
        PlayerCost.init terms.

(** The weighted sum, in registration order, of the [j]-th entries of the
    terms' trajectory costs, and the full-horizon aggregate. *)
Definition weighted_sum_at (weights : list T) (trajs : list (list T)) (j : nat)
    : T :=
  foldl (λ acc wt, acc + wt.1 * default 0 (wt.2 !! j)) 0 (zip weights trajs).
Definition weighted_sum (N : nat) (weights : list T) (trajs : list (list T))
    : list T :=
  weighted_sum_at weights trajs <$> seq 0 N.

(** The [k]-th slab [a[:, :, k]] of a three-dimensional array. *)
Definition slab (a : list (list (list T))) (k : nat) : list (list T) :=
  (λ plane, column plane k) <$> a.

(** Arrays of shape [(n, m)] and [(n, m, p)], given by rows. *)
Definition has_shape2 (n m : nat) (a : list (list T)) : Prop :=
  length a = n ∧ Forall (λ row, length row = m) a.
Definition has_shape3 (n m p : nat) (a : list (list (list T))) : Prop :=
  length a = n ∧ Forall (has_shape2 m p) a.

End Specification.

(** ** Reference definitions for the planner *)

Section PlannerSpecification.
Context {E : Type}.

(** The assignments into the arrays of the subgame bundle. *)
Definition bundle_write_sites : list string :=
  ["xnom_k[:, l1, l2]"; "Z1_k[:, :, l1, l2]"; "Z2_k[:, :, l1, l2]";
   "zeta1_k[:, l1, l2]"; "zeta2_k[:, l1, l2]";
   "nom_cost1_k[l1, l2]"; "nom_cost2_k[l1, l2]"].

(** The exception of a bundle write with an index out of bounds. *)
Definition out_of_bounds_bundle_write (e : RHCPlanner.exn E) : bool :=
  match e with
  | RHCPlanner.IndexError site => bool_decide (site ∈ bundle_write_sites)
  | _ => false
  end.

(** The planning methods [plan] recognises. *)
Definition recognised_method (method : string) : bool :=
  bool_decide (method ∈ ["QMDPL0"; "QMDPL1"; "QMDPL1L0"]).

End PlannerSpecification.

(** [wp m Q s]: running [m] from [s] ends in a state and an outcome that
    satisfy [Q]. *)
Definition wp {St E A} (m : RHCPlanner.M St E A)
    (Q : St → RHCPlanner.outcome E A → Prop) (s : St) : Prop :=
  Q (m s).1 (m s).2.

Arguments wp : simpl never.


(** ** [PlayerCost.quadraticize_jitted]

    The trajectory gradients and Hessians of a cost have the shapes its
    attributes declare; the totals are summed with broadcasting, as the
    shapes are carried by the arrays of [np]. *)

Section Quadraticize.
Context {T : Type} `{Scalar T}.
Local Open Scope scalar_scope.

(** The arrays of the shapes [(n, m)] and [(n, m, p)] given by rows. *)
Definition array_of_rows (n m : nat) (a : list (list T)) : np.ndarray T :=
  np.mk [n; m]
    (λ r, default 0 (row ← a !! hd 0%nat r; row !! hd 0%nat (tl r))).
Definition array_of_planes (n m p : nat) (a : list (list (list T)))
    : np.ndarray T :=
  np.mk [n; m; p]
    (λ r, default 0 (plane ← a !! hd 0%nat r;
                     row ← plane !! hd 0%nat (tl r);
                     row !! hd 0%nat (tl (tl r)))).

(** What a total of gradients or Hessians holds: the float it starts as,
    or an array. *)
Inductive total := TFloat (v : T) | TArray (a : np.ndarray T).

(** [total += weight * a]. *)
Definition add_weighted (t : total) (weight : T) (a : np.ndarray T)
    : option total :=
  match t with
  | TFloat v =>
      Some (TArray (np.mk (np.shape a) (λ r, v + weight * np.at_ a r)))
  | TArray b =>
      match np.add b (np.scale weight a) with
      | inr c => Some (TArray c)
      | inl _ => None
      end
  end.

(** The five totals of [quadraticize_jitted]. *)
Record totals := mk_totals {
  total_cost : PlayerCost.value T;
  total_dcdx : total;
  total_dcdu : total;
  total_Hxx : total;
  total_Huu : total;
}.

(** The body of the loop of [quadraticize_jitted], for one term. *)
Definition quadraticize_term (cost : Cost.t T) (weight : T)
    (x ui : list (list T)) (acc : totals) : option totals :=
  let N := Cost._horizon (Cost.base cost) in
  let nx := Cost._x_dim (Cost.base cost) in
  let nu := Cost._ui_dim (Cost.base cost) in
  (* Update total cost. *)
  traj ← Cost.get_traj_cost cost x ui;
  cost' ← PlayerCost.add (total_cost acc) (PlayerCost.scale weight traj);
  (* Update total gradients. *)
  '(current_dcdx, current_dcdu) ← Cost.get_traj_grad cost x ui;
  dcdx ← add_weighted (total_dcdx acc) weight
            (array_of_rows nx N current_dcdx);
  dcdu ← add_weighted (total_dcdu acc) weight
            (array_of_rows nu N current_dcdu);
  (* Update total Hessians. *)
  '(current_Hxx, current_Huu) ← Cost.get_traj_hess cost x ui;
  Hxx ← add_weighted (total_Hxx acc) weight
            (array_of_planes nx nx N current_Hxx);
  Huu ← add_weighted (total_Huu acc) weight
            (array_of_planes nu nu N current_Huu);
  Some (mk_totals cost' dcdx dcdu Hxx Huu).

(** The loop over [zip(self._costs, self._weights)]. *)
Fixpoint quadraticize_loop (terms : list (Cost.t T * T))
    (x ui : list (list T)) (acc : totals) : option totals :=
  match terms with
  | [] => Some acc
  | (cost, weight) :: rest =>
      acc' ← quadraticize_term cost weight x ui acc;
      quadraticize_loop rest x ui acc'
  end.

(** [quadraticize_jitted(self, x, ui)]. *)
Definition quadraticize_jitted (self : PlayerCost.t T) (x ui : list (list T))
    : option totals :=
  quadraticize_loop (zip (PlayerCost._costs self) (PlayerCost._weights self))
    x ui
    (mk_totals (PlayerCost.Float 0) (TFloat 0) (TFloat 0) (TFloat 0)
       (TFloat 0)).

(** The weighted sums, in registration order, of the entries of the
    terms' gradients and Hessians at the time column [k]. *)
Definition grad_at (c : Cost.t T) (x ui : list (list T)) (k : nat)
    : list T * list T :=
  default ([], []) (Cost.get_grad c (column x k) (column ui k) k).
Definition hess_at (c : Cost.t T) (x ui : list (list T)) (k : nat)
    : list (list T) * list (list T) :=
  default ([], []) (Cost.get_hess c (column x k) (column ui k) k).
Definition entry (v : list T) (i : nat) : T := default 0 (v !! i).
Definition entry2 (m : list (list T)) (i j : nat) : T :=
  default 0 (row ← m !! i; row !! j).
Definition weighted_total (terms : list (Cost.t T * T)) (f : Cost.t T → T)
    (init : T) : T :=
  foldl (λ acc term, acc + term.2 * f term.1) init terms.

(** A cost with the horizon [N] and the dimensions [nx] and [nu]. *)
Definition uniform (N nx nu : nat) (c : Cost.t T) : Prop :=
  Cost._horizon (Cost.base c) = N
  ∧ Cost._x_dim (Cost.base c) = nx
  ∧ Cost._ui_dim (Cost.base c) = nu.

(** Every evaluation [quadraticize_jitted] makes for the cost [c] on a
    trajectory of [N] columns returns. *)
Definition evaluates (N : nat) (x ui : list (list T)) (c : Cost.t T) : Prop :=
  ∀ k, (k < N)%nat →
    is_Some (Cost.get_cost c (column x k) (column ui k) k)
    ∧ is_Some (Cost.get_grad c (column x k) (column ui k) k)
    ∧ is_Some (Cost.get_hess c (column x k) (column ui k) k).

(** The array [a] has the shape [sh] and holds [g] at every index in
    range; a total holds [g] when it is such an array, or the float that
    [g] is everywhere. *)
Definition holds (sh : list nat) (a : np.ndarray T) (g : list nat → T)
    : Prop :=
  np.shape a = sh ∧ ∀ r, Forall2 lt r sh → np.at_ a r = g r.
Definition total_holds (sh : list nat) (t : total) (g : list nat → T)
    : Prop :=
  match t with
  | TFloat v => ∀ r, g r = v
  | TArray a => holds sh a g
  end.
Definition array_holds (sh : list nat) (t : total) (g : list nat → T)
    : Prop :=
  ∃ a, t = TArray a ∧ holds sh a g.

End Quadraticize.

(** ** The invariants of [plan] *)

Section PlannerInvariants.
Context {T : Type} `{Scalar T} {W E U Solver : Type}.
Import RHCPlanner.
Local Open Scope scalar_scope.

Abbreviation ndarray := (np.ndarray T).
Abbreviation state := (state (T:=T) (W:=W) (Solver:=Solver)).
Abbreviation collaborators :=
  (collaborators (T:=T) (W:=W) (E:=E) (U:=U) (Solver:=Solver)).

(** The planner object and the recorded calls are as in [s0]. *)
Definition unchanged (s0 s : state) : Prop :=
  self s = self s0 ∧ GiNOD_calls s = GiNOD_calls s0.

(** The shapes of the bundle arrays allocated at the start of a step. *)
Definition bundle_shapes (nx nz1 nz2 : nat) (b : bundle (T:=T)) : Prop :=
  np.shape (b_Z1 b) = [nx; nx; nz1; nz2]
  ∧ np.shape (b_Z2 b) = [nx; nx; nz1; nz2]
  ∧ np.shape (b_zeta1 b) = [nx; nz1; nz2]
  ∧ np.shape (b_zeta2 b) = [nx; nz1; nz2]
  ∧ np.shape (b_nom_cost1 b) = [2; 2]%nat
  ∧ np.shape (b_nom_cost2 b) = [2; 2]%nat
  ∧ np.shape (b_xnom b) = [nx; nz1; nz2].

(** The shapes of the four result arrays. *)
Definition logs_shapes (nx nz nz1 nz2 N : nat) (l : logs (T:=T)) : Prop :=
  np.shape l.1.1.1 = [nx; (N + 1)%nat]
  ∧ np.shape l.1.1.2 = [nz; (N + 1)%nat]
  ∧ np.shape l.1.2 = [(nz1 + nz2)%nat; (nz1 + nz2)%nat; N]
  ∧ np.shape l.2 = [2%nat; N].

(** [a] is [zs[lo:hi, col]] for an array [zs] with [nz] rows. *)
Definition slice_of_column (zs : ndarray) (nz lo hi col : nat) (a : ndarray)
    : Prop :=
  np.shape a = [((hi `min` nz) - (lo `min` nz))%nat]
  ∧ ∀ r, np.at_ a r = np.at_ zs [((lo `min` nz) + hd 0 r)%nat; col].

(** The opinion references of the bundle of step [k]. *)
Definition references (z0 zs : ndarray) (nz nz1 nz2 k : nat)
    (sg : subgame (T:=T)) : Prop :=
  match k with
  | O => np.getitem z0 [np.Slice 0%nat nz1] = inr (znom1_k sg)
         ∧ np.getitem z0 [np.Slice nz1 (nz1 + nz2)] = inr (znom2_k sg)
  | S k' => slice_of_column zs nz 0%nat nz1 k' (znom1_k sg)
            ∧ slice_of_column zs nz nz1 (nz1 + nz2) k' (znom2_k sg)
  end.

(** [a] is [np.hstack((xs[:, k], zs[:, k]))]. *)
Definition joint_state (xs zs : ndarray) (nx nz k : nat) (a : ndarray) : Prop :=
  np.shape a = [(nx + nz)%nat]
  ∧ ∀ r, np.at_ a r = if decide (hd 0 r < nx)%nat
                      then np.at_ xs [hd 0%nat r; k]
                      else np.at_ zs [(hd 0 r - nx)%nat; k].

(** What holds of the call [c] of the opinion-dynamics model made at step
    [k], in terms of the arrays [xs] and [zs]. *)
Definition call_facts (env : collaborators) (z0 xs zs : ndarray)
    (nx nz : nat) (k : nat) (c : GiNOD_call (T:=T)) : Prop :=
  let sg := call_subgame c in
  np.shape (nom_cost1_k sg) = [2; 2]%nat
  ∧ np.shape (nom_cost2_k sg) = [2; 2]%nat
  ∧ references z0 zs nz (_num_opn_P1 env) (_num_opn_P2 env) k sg
  ∧ joint_state xs zs nx nz k (call_x_jnt c)
  ∧ (∃ w w', cont_time_dyn env (call_x_jnt c) sg w
             = inr (w', (call_z_dot c, call_H c, call_PoI1 c, call_PoI2 c)))
  ∧ (∀ i, (i < nz)%nat →
       np.at_ zs [i; (k + 1)%nat]
       = np.at_ zs [i; k]
         + _T env * np.at_ (np.broadcast_to (call_z_dot c) [nz]) [i]).

(** The invariant of the loop over [k]. *)
Definition plan_inv (env : collaborators) (z0 : ndarray) (nx nz N : nat)
    (me : t (T:=T) (Solver:=Solver)) (calls0 : list (GiNOD_call (T:=T)))
    (k : nat) (l : logs (T:=T)) (s : state) : Prop :=
  self s = me
  ∧ logs_shapes nx nz (_num_opn_P1 env) (_num_opn_P2 env) N l
  ∧ ((0 < k)%nat → recognised_method (_method me) = true)
  ∧ ∃ new, GiNOD_calls s = calls0 ++ new
           ∧ length new = k
           ∧ ∀ j c, new !! j = Some c →
               call_facts env z0 l.1.1.1 l.1.1.2 nx nz j c.

(** What an exception raised by [plan] satisfies. *)
Definition plan_raises (env : collaborators)
    (me : t (T:=T) (Solver:=Solver)) (s : state) (e : exn E) : Prop :=
  self s = me
  ∧ ((_num_opn_P1 env ≤ 2)%nat → (_num_opn_P2 env ≤ 2)%nat →
     out_of_bounds_bundle_write e = false).

(** What holds when [plan] returns: the four arrays are stored in the
    planner object, they have the shapes of the result arrays, and one call
    of the opinion-dynamics model was made per step. *)
Definition plan_returns (env : collaborators) (x0 z0 : ndarray)
    (s0 s : state) : Prop :=
  let me := self s0 in
  ∃ nx nz xs zs Hs PoI,
    np.len x0 = inr nx ∧ np.len z0 = inr nz
    ∧ self s = mk (_subgames me) (_N_sim me) (_method me) (_look_ahead me)
                  (Some xs) (Some zs) (Some Hs) (Some PoI)
    ∧ logs_shapes nx nz (_num_opn_P1 env) (_num_opn_P2 env) (_N_sim me)
        (xs, zs, Hs, PoI)
    ∧ ((0 < _N_sim me)%nat → recognised_method (_method me) = true)
    ∧ ∃ new, GiNOD_calls s = GiNOD_calls s0 ++ new
             ∧ length new = _N_sim me
             ∧ ∀ k c, new !! k = Some c → call_facts env z0 xs zs nx nz k c.

End PlannerInvariants.

(** ** What [plan] needs and what it records *)

Section PlannerRecords.
Context {T : Type} `{Scalar T} {W E U Solver : Type}.
Import RHCPlanner.
Local Open Scope scalar_scope.

Abbreviation ndarray := (np.ndarray T).
Abbreviation state := (state (T:=T) (W:=W) (Solver:=Solver)).
Abbreviation collaborators :=
  (collaborators (T:=T) (W:=W) (E:=E) (U:=U) (Solver:=Solver)).

(** What a pass of the subgame loops over the opinion modes [l1], [l2]
    needs: both indices fit the 2×2 arrays of nominal costs, and the
    planner holds a solver for the pair. *)
Definition subgame_requirements (me : t (T:=T) (Solver:=Solver))
    (l1 l2 : nat) : Prop :=
  (l1 < 2)%nat ∧ (l2 < 2)%nat
  ∧ ∃ row solver, _subgames me !! l1 = Some row ∧ row !! l2 = Some solver.

(** [a] is the column [xs[:, k]] of an array [xs] with [n] rows. *)
Definition column_of (xs : ndarray) (n k : nat) (a : ndarray) : Prop :=
  np.shape a = [n] ∧ ∀ r, np.at_ a r = np.at_ xs [hd 0%nat r; k].

(** [a] is the entry [zs[-1, k]] of an array [zs] with [nz] rows. *)
Definition last_of_column (zs : ndarray) (nz k : nat) (a : ndarray) : Prop :=
  np.shape a = [] ∧ ∀ r, np.at_ a r = np.at_ zs [(nz - 1)%nat; k].

(** The controls of step [k]: what the two action planners return, called
    as the method has it, on the state [x_k], the slices of the opinion
    column [zs[:, k]] and the bundle [sg]. *)
Definition controls (env : collaborators) (me : t (T:=T) (Solver:=Solver))
    (zs : ndarray) (nz k : nat) (x_k : ndarray) (sg : subgame (T:=T))
    (u_list : list U) : Prop :=
  let nz1 := _num_opn_P1 env in
  let nz2 := _num_opn_P2 env in
  ∃ z1_k z2_k att1_k att2_k u1 u2 w1 w1' w2 w2',
    u_list = [u1; u2]
    ∧ slice_of_column zs nz 0%nat nz1 k z1_k
    ∧ slice_of_column zs nz nz1 (nz1 + nz2) k z2_k
    ∧ slice_of_column zs nz (nz1 + nz2) (nz1 + nz2 + 1) k att1_k
    ∧ last_of_column zs nz k att2_k
    ∧ if String.eqb (_method me) "QMDPL0" then
        plan_level_0 env 1 x_k z1_k z2_k (_subgames me) w1 = inr (w1', u1)
        ∧ plan_level_0 env 2 x_k z2_k z1_k (_subgames me) w2 = inr (w2', u2)
      else if String.eqb (_method me) "QMDPL1" then
        plan_level_1 env 1 x_k z1_k z2_k att1_k att2_k (_subgames me) sg w1
        = inr (w1', u1)
        ∧ plan_level_1 env 2 x_k z2_k z1_k att2_k att1_k (_subgames me) sg w2
          = inr (w2', u2)
      else
        _method me = "QMDPL1L0"
        ∧ plan_level_1 env 1 x_k z1_k z2_k att1_k att2_k (_subgames me) sg w1
          = inr (w1', u1)
        ∧ plan_level_0 env 2 x_k z2_k z1_k (_subgames me) w2 = inr (w2', u2).

(** What the result arrays hold of step [k], [c] being the call of the
    opinion-dynamics model made at that step: its Hessian in
    [Hs[:, :, k]], its two PoI values, both scalars, in [PoI[:, k]], and
    in [xs[:, k + 1]] the state the physical system returns for
    [xs[:, k]] and the controls of the step. *)
Definition step_record (env : collaborators)
    (me : t (T:=T) (Solver:=Solver)) (xs zs Hs PoI : ndarray)
    (nx nz k : nat) (c : GiNOD_call (T:=T)) : Prop :=
  let n := (_num_opn_P1 env + _num_opn_P2 env)%nat in
  (∀ i j, (i < n)%nat → (j < n)%nat →
     np.at_ Hs [i; j; k] = np.at_ (np.broadcast_to (call_H c) [n; n]) [i; j])
  ∧ np.shape (call_PoI1 c) = [] ∧ np.shape (call_PoI2 c) = []
  ∧ np.at_ PoI [0%nat; k] = np.at_ (call_PoI1 c) []
  ∧ np.at_ PoI [1%nat; k] = np.at_ (call_PoI2 c) []
  ∧ ∃ x_k u_list w w' x_next,
      column_of xs nx k x_k
      ∧ controls env me zs nz k x_k (call_subgame c) u_list
      ∧ disc_time_dyn env x_k u_list w = inr (w', x_next)
      ∧ ∀ i, (i < nx)%nat →
          np.at_ xs [i; (k + 1)%nat]
          = np.at_ (np.broadcast_to x_next [nx]) [i].

(** The second invariant of the loop over [k]: the first columns of [xs]
    and [zs] are [x0] and [z0], and every step made so far is recorded. *)
Definition plan_records (env : collaborators) (x0 z0 : ndarray)
    (nx nz : nat) (me : t (T:=T) (Solver:=Solver))
    (calls0 : list (GiNOD_call (T:=T))) (k : nat) (l : logs (T:=T))
    (s : state) : Prop :=
  (∀ i, (i < nx)%nat →
     np.at_ l.1.1.1 [i; 0%nat] = np.at_ (np.broadcast_to x0 [nx]) [i])
  ∧ (∀ i, (i < nz)%nat →
       np.at_ l.1.1.2 [i; 0%nat] = np.at_ (np.broadcast_to z0 [nz]) [i])
  ∧ ∃ new, GiNOD_calls s = calls0 ++ new
           ∧ length new = k
           ∧ ∀ j c, new !! j = Some c →
               step_record env me l.1.1.1 l.1.1.2 l.1.2 l.2 nx nz j c.

End PlannerRecords.

(** ** A run with stub collaborators

    Two-dimensional physical state, a stub opinion model returning the
    constant derivative [1] for every opinion coordinate, stub solvers and
    stub action planners. *)

Module Stub.
Import RHCPlanner.

Definition operating_point : list (np.ndarray R) :=
  [np.zeros [2; 3]%nat;            (* nominal state trajectory *)
   np.zeros []; np.zeros []; np.zeros [];
   np.zeros [2; 2; 2; 3]%nat;      (* Zs: player, state, state, time *)
   np.zeros [2; 2; 3]%nat;         (* zetas: player, state, time *)
   np.zeros [2]%nat].              (* nominal costs *)

Definition env (nz1 nz2 : nat)
    : collaborators (T:=R) (W:=unit) (E:=Empty_set) (U:=unit) (Solver:=unit) :=
  {| solver_run _ _ w := inr w;
     _best_operating_point _ _ := operating_point;
     plan_level_0 _ _ _ _ _ w := inr (w, tt);
     plan_level_1 _ _ _ _ _ _ _ _ w := inr (w, tt);
     cont_time_dyn _ _ w :=
       inr (w, (np.mk [(nz1 + nz2 + 2)%nat] (λ _, 1%R),
                np.zeros [(nz1 + nz2)%nat; (nz1 + nz2)%nat],
                np.zeros [], np.zeros []));
     _T := 2%R;
     _num_opn_P1 := nz1;
     _num_opn_P2 := nz2;
     disc_time_dyn x _ w := inr (w, x) |}.

Definition planner (nz1 nz2 N_sim : nat) (method : string)
    : t (T:=R) (Solver:=unit) :=
  init (replicate nz1 (replicate nz2 tt)) N_sim 1 method.

Definition initial (nz1 nz2 N_sim : nat) (method : string)
    : state (T:=R) (W:=unit) (Solver:=unit) :=
  mk_state (planner nz1 nz2 N_sim method) tt [].

Definition x0 : np.ndarray R := np.zeros [2]%nat.
Definition z0 (nz1 nz2 : nat) : np.ndarray R :=
  np.mk [(nz1 + nz2 + 2)%nat] (λ _, 1%R).

End Stub.

(** ** Cost terms for worked instances

    Two quadratic terms on disjoint state dimensions with the weights [2]
    and [1/2], on a horizon of three steps. *)

Definition base3 : Cost.Base := Cost.mkBase "" 3 2 1.
Definition quadratic0 : Cost.t R := Cost.QuadraticCost 0 1%R true base3.
Definition quadratic1 : Cost.t R := Cost.QuadraticCost 1 0%R true base3.
Definition traj_x : list (list R) := [[1; 2; 3]; [4; 5; 6]]%R.
Definition traj_u : list (list R) := [[0; 0; 0]]%R.
Definition two_terms : list (Cost.t R * PlayerCost.arg * R) :=
  [(quadratic0, PlayerCost.ArgX, 2%R); (quadratic1, PlayerCost.ArgX, (/ 2)%R)].

(** A term with a horizon of two steps, and a state trajectory with three
    rows. *)
Definition base2 : Cost.Base := Cost.mkBase "" 2 2 1.
Definition quadratic_short : Cost.t R := Cost.QuadraticCost 0 0%R true base2.
Definition traj_x3 : list (list R) := [[1; 2; 3]; [4; 5; 6]; [7; 8; 9]]%R.

(** A term with a horizon of zero steps, and trajectories without
    columns. *)
Definition base0 : Cost.Base := Cost.mkBase "" 0 2 1.
Definition quadratic_h0 : Cost.t R := Cost.QuadraticCost 0 1%R true base0.
Definition traj_x0 : list (list R) := [[]; []].
Definition traj_u0 : list (list R) := [[]].


(** * Properties *)

(** ** Indexing and loops *)

Section ArrayFacts.
Context {T : Type} `{Scalar T}.

Lemma norm_index_in_range (n : nat) (i : Z) :
  (0 ≤ i < Z.of_nat n)%Z → jnp.norm_index n i = Some (Z.to_nat i).
Proof.
  intros Hi. unfold jnp.norm_index.
  destruct (decide (n = 0%nat)) as [->|_]; [lia|].
  destruct (decide (i < 0)%Z); [lia|].
  f_equal. lia.
Qed.

Lemma norm_index_negative (n : nat) (i : Z) :
  (- Z.of_nat n ≤ i < 0)%Z →
  jnp.norm_index n i = Some (Z.to_nat (i + Z.of_nat n)).
Proof.
  intros Hi. unfold jnp.norm_index.
  destruct (decide (n = 0%nat)) as [->|_]; [lia|].
  destruct (decide (i < 0)%Z); [|lia].
  f_equal. lia.
Qed.

Lemma norm_index_lt (n : nat) (i : Z) (j : nat) :
  jnp.norm_index n i = Some j → (j < n)%nat.
Proof.
  unfold jnp.norm_index.
  destruct (decide (n = 0%nat)); [done|].
  intros [= <-]. lia.
Qed.

Lemma get_nat (a : list T) (k : nat) :
  (k < length a)%nat → jnp.get a (Z.of_nat k) = a !! k.
Proof.
  intros Hk. unfold jnp.get.
  rewrite norm_index_in_range by lia. simpl. by rewrite Nat2Z.id.
Qed.

Lemma get_is_Some (a : list T) (i : Z) : a ≠ [] → is_Some (jnp.get a i).
Proof.
  intros Ha. unfold jnp.get, jnp.norm_index.
  destruct (decide (length a = 0%nat)) as [E|E].
  { by destruct a. }
  simpl. apply lookup_lt_is_Some. lia.
Qed.

(** With at least one round the trace is the first round. *)
Lemma fori_loop_rounds {A} (lower upper : nat) (body : nat → A → option A)
    (init : A) :
  (lower < upper)%nat →
  jnp.fori_loop lower upper body init
  = jnp.fori_loop_from lower (upper - lower) body init.
Proof.
  intros Hlt. unfold jnp.fori_loop.
  destruct (upper - lower)%nat as [|n] eqn:E; [lia|].
  cbn. by destruct (body lower init).
Qed.

Lemma fori_loop_Some {A} (lower upper : nat) (body : nat → A → option A)
    (init r : A) :
  jnp.fori_loop lower upper body init = Some r →
  jnp.fori_loop_from lower (upper - lower) body init = Some r.
Proof. unfold jnp.fori_loop. by destruct (body lower init). Qed.

(** Without a round the loop raises when the trace does. *)
Lemma fori_loop_trace {A} (lower upper : nat) (body : nat → A → option A)
    (init : A) :
  body lower init = None → jnp.fori_loop lower upper body init = None.
Proof. intros Hb. unfold jnp.fori_loop. by rewrite Hb. Qed.

End ArrayFacts.

(** ** [Cost.get_traj_cost] *)

Section TrajCost.
Context {T : Type} `{Scalar T}.

Lemma col_column (a : list (list T)) (N k : nat) :
  Forall (λ row, length row = N) a → (k < N)%nat →
  jnp.col a k = Some (column a k).
Proof.
  intros Ha Hk. unfold jnp.col, column.
  induction Ha as [|row a Hrow _ IH]; [done|].
  cbn. rewrite get_nat by lia.
  destruct (lookup_lt_is_Some_2 row k) as [v Hv]; [lia|].
  rewrite Hv. cbn. fold (mapM (λ row, jnp.get row (Z.of_nat k)) a).
  by rewrite IH.
Qed.

Lemma zeros_length (n : nat) : length (jnp.zeros (T:=T) n) = n.
Proof. apply length_replicate. Qed.

Lemma get_traj_cost_looper_eq (c : Cost.t T) (x ui : list (list T)) (N k : nat)
    (costs : list T) :
  Forall (λ row, length row = N) x → Forall (λ row, length row = N) ui →
  (k < N)%nat → (0 < length costs)%nat →
  Cost.get_traj_cost_looper c x ui k costs
  = v ← Cost.get_cost c (column x k) (column ui k) k; Some (<[k := v]> costs).
Proof.
  intros Hx Hu Hk Hlen. unfold Cost.get_traj_cost_looper, jnp.at_set.
  rewrite (col_column x N k), (col_column ui N k) by done. cbn.
  destruct (Cost.get_cost c (column x k) (column ui k) k); [|done]. cbn.
  by rewrite decide_False by lia.
Qed.

(** On an empty buffer the body raises, whatever the arrays. *)
Lemma get_traj_cost_looper_empty (c : Cost.t T) (x ui : list (list T))
    (k : nat) :
  Cost.get_traj_cost_looper c x ui k [] = None.
Proof.
  unfold Cost.get_traj_cost_looper.
  destruct (jnp.col x k); [|done]. destruct (jnp.col ui k); [|done].
  cbn. by destruct (Cost.get_cost c _ _ k).
Qed.

(** The loop from [i] for [n] rounds overwrites exactly the entries
    [i .. i+n-1] of the buffer with the pointwise costs. *)
Lemma fori_loop_traj_cost (c : Cost.t T) (x ui : list (list T)) (N : nat) :
  Forall (λ row, length row = N) x → Forall (λ row, length row = N) ui →
  ∀ n i costs, (i + n ≤ N)%nat → (i + n ≤ length costs)%nat →
    jnp.fori_loop_from i n (Cost.get_traj_cost_looper c x ui) costs
    = vs ← mapM (λ k, Cost.get_cost c (column x k) (column ui k) k) (seq i n);
      Some (take i costs ++ vs ++ drop (i + n) costs).
Proof.
  intros Hx Hu. induction n as [|n IH]; intros i costs HN Hlen.
  - cbn. rewrite Nat.add_0_r. by rewrite take_drop.
  - cbn [jnp.fori_loop_from seq mapM].
    rewrite (get_traj_cost_looper_eq c x ui N i) by (done || lia).
    destruct (Cost.get_cost c (column x i) (column ui i) i) as [v|]; [|done].
    cbn. rewrite IH by (rewrite ?length_insert; lia).
    fold (mapM (λ k, Cost.get_cost c (column x k) (column ui k) k) (seq (S i) n)).
    destruct (mapM _ (seq (S i) n)) as [vs|]; [|done]. cbn. f_equal.
    rewrite drop_insert_lt by lia.
    rewrite (take_S_r _ i v) by (apply list_lookup_insert_eq; lia).
    rewrite take_insert_ge by lia.
    rewrite <- app_assoc. cbn. by rewrite Nat.add_succ_r.
Qed.

Lemma get_traj_cost_eq (c : Cost.t T) (x ui : list (list T)) :
  let N := Cost._horizon (Cost.base c) in
  (0 < N)%nat →
  Forall (λ row, length row = N) x → Forall (λ row, length row = N) ui →
  Cost.get_traj_cost c x ui = pointwise_costs c x ui N.
Proof.
  intros N HN Hx Hu. unfold Cost.get_traj_cost. fold N.
  rewrite fori_loop_rounds by done. unfold pointwise_costs.
  rewrite Nat.sub_0_r.
  rewrite (fori_loop_traj_cost c x ui N Hx Hu) by (rewrite ?zeros_length; lia).
  destruct (mapM _ (seq 0 N)) as [vs|] eqn:E; [|done]. cbn.
  rewrite drop_ge; [by rewrite app_nil_r|].
  rewrite zeros_length. lia.
Qed.

(** The loop never changes the length of the buffer, whatever the shapes
    of [x] and [ui]. *)
Lemma fori_loop_traj_cost_length (c : Cost.t T) (x ui : list (list T)) :
  ∀ n i costs costs',
    jnp.fori_loop_from i n (Cost.get_traj_cost_looper c x ui) costs = Some costs' →
    length costs' = length costs.
Proof.
  induction n as [|n IH]; intros i costs costs'; cbn.
  - by intros [= ->].
  - destruct (Cost.get_traj_cost_looper c x ui i costs) as [c1|] eqn:E; [|done].
    cbn. intros Hloop. rewrite (IH _ _ _ Hloop).
    unfold Cost.get_traj_cost_looper in E.
    destruct (jnp.col x i); [|done]. destruct (jnp.col ui i); [|done].
    cbn in E. destruct (Cost.get_cost c l l0 i); [|done].
    cbn in E. unfold jnp.at_set in E. case_decide; [done|].
    injection E as <-. apply length_insert.
Qed.

Lemma get_traj_cost_length (c : Cost.t T) (x ui : list (list T)) (costs : list T) :
  Cost.get_traj_cost c x ui = Some costs →
  length costs = Cost._horizon (Cost.base c).
Proof.
  unfold Cost.get_traj_cost. intros E%fori_loop_Some.
  rewrite (fori_loop_traj_cost_length _ _ _ _ _ _ _ E). apply zeros_length.
Qed.

(** With a horizon of zero the trace of the body indexes an empty buffer. *)
Lemma get_traj_cost_horizon_zero (c : Cost.t T) (x ui : list (list T)) :
  Cost._horizon (Cost.base c) = 0%nat → Cost.get_traj_cost c x ui = None.
Proof.
  intros HN. unfold Cost.get_traj_cost. rewrite HN.
  apply fori_loop_trace, get_traj_cost_looper_empty.
Qed.

End TrajCost.

(** C2, as the code has it.  For a cost of any variant with a horizon [N]
    of at least one and trajectory arrays [x] and [ui] with [N] columns,
    [get_traj_cost] is the sequence obtained by evaluating [get_cost]
    independently at each time column: it raises exactly when one of these
    evaluations does, and otherwise it has length [N] and its [k]-th entry
    is [get_cost] at the [k]-th columns of [x] and [ui].  The result is a
    function of [(x, ui)] and the immutable cost object only. *)
Theorem get_traj_cost_pointwise {T : Type} `{Scalar T}
    (c : Cost.t T) (x ui : list (list T)) (N : nat) :
  Cost._horizon (Cost.base c) = N →
  (0 < N)%nat →
  Forall (λ row, length row = N) x →
  Forall (λ row, length row = N) ui →
  Cost.get_traj_cost c x ui = pointwise_costs c x ui N
  ∧ ∀ costs, Cost.get_traj_cost c x ui = Some costs →
      length costs = N
      ∧ ∀ k, (k < N)%nat →
          ∃ v, costs !! k = Some v
               ∧ Cost.get_cost c (column x k) (column ui k) k = Some v.
Proof.
  intros <- HN Hx Hu. split; [by apply get_traj_cost_eq|].
  intros costs Hc. split; [by eapply get_traj_cost_length|].
  intros k Hk. rewrite get_traj_cost_eq in Hc by done.
  unfold pointwise_costs in Hc. apply mapM_Some_1 in Hc.
  destruct (lookup_lt_is_Some_2 costs k) as [v Hv].
  { rewrite <- (Forall2_length _ _ _ Hc), length_seq. lia. }
  exists v. split; [done|].
  eapply (Forall2_lookup_lr _ _ _ k k v) in Hc; [done| |done].
  by apply lookup_seq_lt.
Qed.

(** Against C2 as stated.  With a horizon of zero, on trajectory arrays
    without columns, the sequence of the pointwise costs is the empty one,
    but [get_traj_cost] does not return it: the body of the loop is traced
    although no round is run, and it indexes arrays without entries. *)
Lemma get_traj_cost_raises_at_horizon_zero :
  Cost._horizon (Cost.base quadratic_h0) = 0%nat
  ∧ Forall (λ row, length row = 0%nat) traj_x0
  ∧ Forall (λ row, length row = 0%nat) traj_u0
  ∧ pointwise_costs quadratic_h0 traj_x0 traj_u0 0 = Some []
  ∧ Cost.get_traj_cost quadratic_h0 traj_x0 traj_u0 = None.
Proof.
  split; [reflexivity|]. split; [by repeat constructor|].
  split; [by repeat constructor|]. split; reflexivity.
Qed.

(** ** [PlayerCost.get_cost] *)

Section PlayerCostFacts.
Context {T : Type} `{Scalar T}.
Local Open Scope scalar_scope.

Lemma registered_from (terms : list (Cost.t T * PlayerCost.arg * T))
    (self : PlayerCost.t T) :
  let self' :=
    foldl (λ self term, PlayerCost.add_cost self term.1.1 term.1.2 term.2)
          self terms in
  PlayerCost._costs self' = PlayerCost._costs self ++ ((λ t, t.1.1) <$> terms)
  ∧ PlayerCost._weights self' = PlayerCost._weights self ++ ((λ t, t.2) <$> terms).
Proof.
  revert self. induction terms as [|t terms IH]; intros self; cbn.
  - by rewrite !app_nil_r.
  - destruct (IH (PlayerCost.add_cost self t.1.1 t.1.2 t.2)) as [-> ->].
    cbn. by rewrite <- !app_assoc.
Qed.

Lemma registered_zip (terms : list (Cost.t T * PlayerCost.arg * T)) :
  zip (PlayerCost._costs (registered terms))
      (PlayerCost._weights (registered terms))
  = (λ t, (t.1.1, t.2)) <$> terms.
Proof.
  unfold registered.
  destruct (registered_from terms PlayerCost.init) as [-> ->]. cbn.
  induction terms as [|t terms IH]; [done|]. cbn. by rewrite IH.
Qed.

(** A list of length [N] is the table of its entries. *)
Lemma list_as_table (l : list T) (N : nat) (d : T) :
  length l = N → l = (λ j, default d (l !! j)) <$> seq 0 N.
Proof.
  intros <-. apply list_eq. intros j. rewrite list_lookup_fmap.
  destruct (decide (j < length l)%nat) as [Hj|Hj].
  - rewrite lookup_seq_lt by done. cbn.
    destruct (lookup_lt_is_Some_2 l j Hj) as [v ->]. done.
  - rewrite lookup_seq_ge by lia. cbn. apply lookup_ge_None. lia.
Qed.

Lemma scale_table (w : T) (tr : list T) (N : nat) :
  length tr = N →
  PlayerCost.scale w tr = (λ j, w * default 0 (tr !! j)) <$> seq 0 N.
Proof.
  intros Hlen. unfold PlayerCost.scale.
  etrans; [exact (f_equal (fmap (smul w)) (list_as_table tr N 0 Hlen))|].
  by rewrite <- list_fmap_compose.
Qed.

Lemma zip_with_table (f : T → T → T) (g h : nat → T) (l : list nat) :
  zip_with f (g <$> l) (h <$> l) = (λ j, f (g j) (h j)) <$> l.
Proof. induction l as [|j l IH]; [done|]. cbn. by rewrite IH. Qed.

(** The loop of [get_cost] once [total_cost] is an array of the shared
    length [N]. *)
Lemma get_cost_loop_array (x ui : list (list T)) (N : nat)
    (terms : list (Cost.t T * PlayerCost.arg * T)) (trajs : list (list T)) :
  Forall2 (λ t tr, Cost.get_traj_cost t.1.1 x ui = Some tr) terms trajs →
  Forall (λ t, Cost._horizon (Cost.base t.1.1) = N) terms →
  ∀ g : nat → T,
    PlayerCost.get_cost_loop ((λ t, (t.1.1, t.2)) <$> terms) x ui
      (PlayerCost.Array (g <$> seq 0 N))
    = Some (PlayerCost.Array
        ((λ j, foldl (λ acc wt, acc + wt.1 * default 0 (wt.2 !! j)) (g j)
                 (zip ((λ t, t.2) <$> terms) trajs)) <$> seq 0 N)).
Proof.
  induction 1 as [|t tr terms trajs Ht _ IH]; intros Hhor g; [done|].
  inversion Hhor as [|? ? Hh Hhor']; subst. cbn. rewrite Ht. cbn.
  assert (length tr = Cost._horizon (Cost.base t.1.1)) as Hlen
    by (by eapply get_traj_cost_length).
  rewrite (scale_table _ _ _ Hlen).
  rewrite decide_True by (by rewrite !length_fmap).
  rewrite zip_with_table. cbn. by rewrite IH.
Qed.

Lemma get_cost_registered (x ui : list (list T)) (N k : nat)
    (terms : list (Cost.t T * PlayerCost.arg * T)) (trajs : list (list T)) :
  terms ≠ [] →
  Forall (λ t, Cost._horizon (Cost.base t.1.1) = N) terms →
  Forall2 (λ t tr, Cost.get_traj_cost t.1.1 x ui = Some tr) terms trajs →
  PlayerCost.get_cost (registered terms) x ui k
  = Some (PlayerCost.Array (weighted_sum N ((λ t, t.2) <$> terms) trajs)).
Proof.
  intros Hne Hhor Htr. unfold PlayerCost.get_cost. rewrite registered_zip.
  destruct Htr as [|t tr terms trajs Ht Htr]; [done|].
  inversion Hhor as [|? ? Hh Hhor']; subst. cbn. rewrite Ht. cbn.
  assert (length tr = Cost._horizon (Cost.base t.1.1)) as Hlen
    by (by eapply get_traj_cost_length).
  rewrite (scale_table _ _ _ Hlen).
  rewrite <- !list_fmap_compose.
  by rewrite (get_cost_loop_array x ui _ terms trajs Htr Hhor').
Qed.

End PlayerCostFacts.

(** C1.  For a [PlayerCost] with registered terms [(cost_i, arg_i,
    weight_i)] sharing the horizon [N], whose trajectory costs on the
    trajectory inputs [x], [ui] are [trajs], [get_cost(x, ui, k)] returns
    the weighted sum over all terms of [cost_i.get_traj_cost(x, ui)] as a
    full-horizon array with one value per timestep, and the result does not
    depend on [k]. *)
Theorem player_get_cost_weighted_sum {T : Type} `{Scalar T}
    (terms : list (Cost.t T * PlayerCost.arg * T))
    (x ui : list (list T)) (N k : nat) (trajs : list (list T)) :
  terms ≠ [] →
  Forall (λ t, Cost._horizon (Cost.base t.1.1) = N) terms →
  Forall2 (λ t tr, Cost.get_traj_cost t.1.1 x ui = Some tr) terms trajs →
  let total := weighted_sum N ((λ t, t.2) <$> terms) trajs in
  PlayerCost.get_cost (registered terms) x ui k = Some (PlayerCost.Array total)
  ∧ length total = N
  ∧ ∀ k', PlayerCost.get_cost (registered terms) x ui k'
          = PlayerCost.get_cost (registered terms) x ui k.
Proof.
  intros Hne Hhor Htr total. split; [by apply get_cost_registered|].
  split; [unfold total, weighted_sum; by rewrite length_fmap, length_seq|].
  intros k'. by rewrite !(get_cost_registered x ui N _ terms trajs).
Qed.

(** ** Derivatives of [QuadraticCost] *)

Section IndexingFacts.
Context {T : Type} `{Scalar T}.

Lemma norm_index_mod (n : nat) (d : Z) :
  (- Z.of_nat n ≤ d < Z.of_nat n)%Z →
  jnp.norm_index n d = Some (Z.to_nat (d `mod` Z.of_nat n)).
Proof.
  intros Hd. destruct (decide (d < 0)%Z) as [Hneg|Hpos].
  - rewrite norm_index_negative by lia. do 2 f_equal.
    apply Z.mod_unique with (q := (-1)%Z); lia.
  - rewrite norm_index_in_range by lia. by rewrite Z.mod_small by lia.
Qed.

Lemma get_lookup (a : list T) (d : Z) (i : nat) :
  jnp.norm_index (length a) d = Some i →
  jnp.get a d = Some (default (of_Z 0) (a !! i)).
Proof.
  intros Hi. unfold jnp.get. rewrite Hi. cbn.
  destruct (lookup_lt_is_Some_2 a i) as [v ->]; [|done].
  by eapply norm_index_lt.
Qed.

End IndexingFacts.

Lemma get_fmap {A B : Type} (f : A → B) (a : list A) (d : Z) :
  jnp.get (f <$> a) d = f <$> jnp.get a d.
Proof.
  unfold jnp.get. rewrite length_fmap.
  destruct (jnp.norm_index (length a) d) as [i|]; [|done]. cbn.
  by rewrite list_lookup_fmap.
Qed.

Lemma get_zip_with {A B C : Type}
    (f : A → B → C) (a : list A) (b : list B) (d : Z) :
  length a = length b →
  jnp.get (zip_with f a b) d
  = va ← jnp.get a d; vb ← jnp.get b d; Some (f va vb).
Proof.
  intros Hlen. unfold jnp.get. rewrite length_zip_with, <- Hlen, Nat.min_id.
  destruct (jnp.norm_index (length a) d) as [i|]; [|done]. cbn.
  rewrite lookup_zip_with. by destruct (a !! i), (b !! i).
Qed.

Lemma mapM_pure {A B : Type} (g : A → B) (l : list A) :
  mapM (λ a, Some (g a)) l = Some (g <$> l).
Proof. apply mapM_Some_2. induction l; constructor; done. Qed.

Section QuadraticDerivatives.
Local Open Scope R_scope.

Lemma std_basis_length (n j : nat) : length (jnp.std_basis (T:=R) n j) = n.
Proof. unfold jnp.std_basis. by rewrite length_fmap, length_seq. Qed.

Lemma get_std_basis (n j i : nat) (d : Z) :
  jnp.norm_index n d = Some i →
  jnp.get (jnp.std_basis n j) d = Some (if decide (i = j) then 1 else 0).
Proof.
  intros Hi. unfold jnp.get. rewrite std_basis_length, Hi. cbn.
  unfold jnp.std_basis. rewrite list_lookup_fmap.
  rewrite lookup_seq_lt by (by eapply norm_index_lt). done.
Qed.

Lemma get_with_tangent (x : list R) (j i : nat) (d : Z) :
  jnp.norm_index (length x) d = Some i →
  jnp.get (jnp.with_tangent x (jnp.std_basis (length x) j)) d
  = Some (mkDual (default 0 (x !! i)) (if decide (i = j) then 1 else 0)).
Proof.
  intros Hi. unfold jnp.with_tangent.
  rewrite get_zip_with by (by rewrite std_basis_length).
  rewrite (get_lookup x d i Hi), (get_std_basis _ j i d Hi). done.
Qed.

Lemma get_no_tangent (x : list R) (i : nat) (d : Z) :
  jnp.norm_index (length x) d = Some i →
  jnp.get (jnp.no_tangent x) d = Some (dual_const (default 0 (x !! i))).
Proof.
  intros Hi. unfold jnp.no_tangent.
  by rewrite get_fmap, (get_lookup x d i Hi).
Qed.

Lemma get_with_tangent2 (x : list R) (a b i : nat) (d : Z) :
  jnp.norm_index (length x) d = Some i →
  jnp.get (jnp.with_tangent2 x (jnp.std_basis (length x) a)
                               (jnp.std_basis (length x) b)) d
  = Some (mkDual (mkDual (default 0 (x !! i)) (if decide (i = a) then 1 else 0))
                 (dual_const (if decide (i = b) then 1 else 0))).
Proof.
  intros Hi. unfold jnp.with_tangent2.
  rewrite get_zip_with
    by (unfold jnp.with_tangent;
        by rewrite length_zip_with, !std_basis_length, Nat.min_id).
  assert (jnp.norm_index (length (jnp.with_tangent x (jnp.std_basis (length x) a))) d = Some i) as Hi'.
  { unfold jnp.with_tangent.
    by rewrite length_zip_with, std_basis_length, Nat.min_id. }
  rewrite (get_with_tangent x a i d Hi), (get_std_basis _ b i d Hi). done.
Qed.

Lemma get_no_tangent2 (x : list R) (i : nat) (d : Z) :
  jnp.norm_index (length x) d = Some i →
  jnp.get (jnp.no_tangent2 x) d
  = Some (dual_const (dual_const (default 0 (x !! i)))).
Proof.
  intros Hi. unfold jnp.no_tangent2.
  by rewrite get_fmap, (get_lookup x d i Hi).
Qed.

End QuadraticDerivatives.


Lemma mapM_table {A B : Type} (f : A → option B) (g : A → B) (l : list A) :
  (∀ a, f a = Some (g a)) → mapM f l = Some (g <$> l).
Proof. intros Hf. rewrite (mapM_ext f (λ a, Some (g a))) by done. apply mapM_pure. Qed.

Section Differentiation.
Context {T : Type} `{Scalar T}.

Lemma jacfwd_table (f : list (Dual T) → list (Dual T) → option (Dual T))
    (x ui : list T) (p : Dual T) (gx gu : nat → Dual T) :
  f (jnp.no_tangent x) (jnp.no_tangent ui) = Some p →
  (∀ j, f (jnp.with_tangent x (jnp.std_basis (length x) j)) (jnp.no_tangent ui)
        = Some (gx j)) →
  (∀ j, f (jnp.no_tangent x) (jnp.with_tangent ui (jnp.std_basis (length ui) j))
        = Some (gu j)) →
  jnp.jacfwd f x ui
  = Some ((λ j, tangent (gx j)) <$> seq 0 (length x),
          (λ j, tangent (gu j)) <$> seq 0 (length ui)).
Proof.
  intros Hp Hgx Hgu. unfold jnp.jacfwd. rewrite Hp. cbn.
  rewrite (mapM_table (λ j, tangent <$> f (jnp.with_tangent x (jnp.std_basis (length x) j)) (jnp.no_tangent ui)) (λ j, tangent (gx j)))
    by (intros j; cbn beta; by rewrite Hgx).
  cbn.
  rewrite (mapM_table (λ j, tangent <$> f (jnp.no_tangent x) (jnp.with_tangent ui (jnp.std_basis (length ui) j))) (λ j, tangent (gu j)))
    by (intros j; cbn beta; by rewrite Hgu).
  done.
Qed.

Lemma hessian0_table
    (f : list (Dual (Dual T)) → list (Dual (Dual T)) → option (Dual (Dual T)))
    (x ui : list T) (p : Dual (Dual T)) (h : nat → nat → Dual (Dual T)) :
  f (jnp.no_tangent2 x) (jnp.no_tangent2 ui) = Some p →
  (∀ i j, f (jnp.with_tangent2 x (jnp.std_basis (length x) i)
                                 (jnp.std_basis (length x) j))
            (jnp.no_tangent2 ui) = Some (h i j)) →
  jnp.hessian0 f x ui
  = Some ((λ i, (λ j, tangent (tangent (h i j))) <$> seq 0 (length x))
            <$> seq 0 (length x)).
Proof.
  intros Hp Hh. unfold jnp.hessian0. rewrite Hp. cbn.
  apply mapM_table. intros i.
  apply mapM_table. intros j. cbn beta. by rewrite Hh.
Qed.

Lemma hessian1_table
    (f : list (Dual (Dual T)) → list (Dual (Dual T)) → option (Dual (Dual T)))
    (x ui : list T) (p : Dual (Dual T)) (h : nat → nat → Dual (Dual T)) :
  f (jnp.no_tangent2 x) (jnp.no_tangent2 ui) = Some p →
  (∀ i j, f (jnp.no_tangent2 x)
            (jnp.with_tangent2 ui (jnp.std_basis (length ui) i)
                                  (jnp.std_basis (length ui) j)) = Some (h i j)) →
  jnp.hessian1 f x ui
  = Some ((λ i, (λ j, tangent (tangent (h i j))) <$> seq 0 (length ui))
            <$> seq 0 (length ui)).
Proof.
  intros Hp Hh. unfold jnp.hessian1. rewrite Hp. cbn.
  apply mapM_table. intros i.
  apply mapM_table. intros j. cbn beta. by rewrite Hh.
Qed.

End Differentiation.

Lemma fmap_const_replicate {A B : Type} (b : B) (f : A → B) (l : list A) :
  (∀ a, f a = b) → f <$> l = replicate (length l) b.
Proof. intros Hf. induction l as [|a l IH]; [done|]. cbn. by rewrite Hf, IH. Qed.

(** Closes the scalar goals left after the dual-number operations have been
    unfolded at the real numbers. *)
Ltac real_arith :=
  cbn;
  repeat match goal with
         | |- context [Z.of_nat (S ?n)] =>
             let z := eval vm_compute in (Z.of_nat (S n)) in
             change (Z.of_nat (S n)) with z
         end;
  lra.

(** C3.  For a [QuadraticCost] on a dimension [d] of the state (an index
    valid for [x], counted from the end when negative) with origin [o] and
    [is_x = True]: [get_grad] returns the state gradient [2*(x[d]-o)] at
    index [d] and zero at every other index, with a zero control gradient;
    [get_hess] returns the state Hessian [2] at entry [d, d] and zero
    elsewhere, with a zero control Hessian. *)
Theorem quadratic_cost_grad_hess (d : Z) (o : R) (b : Cost.Base)
    (x u : list R) (k : nat) :
  (- Z.of_nat (length x) ≤ d < Z.of_nat (length x))%Z →
  let i := Z.to_nat (d `mod` Z.of_nat (length x)) in
  let n := length x in
  let m := length u in
  Cost.get_grad (Cost.QuadraticCost d o true b) x u k
  = Some ((λ j, if decide (j = i) then 2 * (default 0 (x !! i) - o) else 0)%R
            <$> seq 0 n,
          replicate m 0%R)
  ∧ Cost.get_hess (Cost.QuadraticCost d o true b) x u k
    = Some ((λ r, (λ c, if decide (r = i ∧ c = i) then 2 else 0)%R <$> seq 0 n)
              <$> seq 0 n,
            replicate m (replicate m 0%R)).
Proof.
  intros Hd i n m. pose proof (norm_index_mod _ _ Hd) as Hi. fold i in Hi.
  split.
  - unfold Cost.get_grad.
    erewrite jacfwd_table; cycle 1.
    + cbn. rewrite (get_no_tangent x i d Hi). cbn. reflexivity.
    + intros j. cbn. rewrite (get_with_tangent x j i d Hi). cbn. reflexivity.
    + intros j. cbn. rewrite (get_no_tangent x i d Hi). cbn. reflexivity.
    + f_equal. f_equal.
      * apply list_fmap_ext. intros _ j _. cbn.
        destruct (decide (j = i)) as [->|Hne].
        -- rewrite decide_True by done. real_arith.
        -- rewrite decide_False by done. real_arith.
      * rewrite (fmap_const_replicate 0%R); [by rewrite length_seq|].
        intros j. cbn. real_arith.
  - unfold Cost.get_hess.
    erewrite hessian0_table; cycle 1.
    + cbn. rewrite (get_no_tangent2 x i d Hi). cbn. reflexivity.
    + intros r c. cbn. rewrite (get_with_tangent2 x r c i d Hi). cbn. reflexivity.
    + erewrite hessian1_table; cycle 1.
      * cbn. rewrite (get_no_tangent2 x i d Hi). cbn. reflexivity.
      * intros r c. cbn. rewrite (get_no_tangent2 x i d Hi). cbn. reflexivity.
      * cbn. f_equal. f_equal.
        -- apply list_fmap_ext. intros _ r _. cbn.
           apply list_fmap_ext. intros _ c _. cbn.
           destruct (decide (i = r)) as [<-|Hr], (decide (i = c)) as [<-|Hc].
           ++ rewrite decide_True by done. real_arith.
           ++ rewrite decide_False by (intros []; congruence). real_arith.
           ++ rewrite decide_False by (intros []; congruence). real_arith.
           ++ rewrite decide_False by (intros []; congruence). real_arith.
        -- rewrite (fmap_const_replicate (replicate m 0%R)); [by rewrite length_seq|].
           intros r. rewrite (fmap_const_replicate 0%R); [by rewrite length_seq|].
           intros c. cbn. real_arith.
Qed.

(** ** [BoxInputConstraintCost] and [ProductStateProximityCostTwoPlayer] *)

Section RealCosts.
Local Open Scope R_scope.

(** The value of the box constraint cost at the control coordinate [c]. *)
Lemma box_get_cost (u_index : Z) (lo hi q1 q2 : R) (b : Cost.Base)
    (x u : list R) (k i : nat) :
  jnp.norm_index (length u) u_index = Some i →
  Cost.get_cost (Cost.BoxInputConstraintCost u_index lo hi q1 q2 b) x u k
  = Some (q1 * (exp (q2 * (lo - default 0 (u !! i))) - 1)
          + q1 * (exp (q2 * (default 0 (u !! i) - hi)) - 1)).
Proof. intros Hi. cbn. by rewrite (get_lookup u u_index i Hi). Qed.

Lemma exp_le_1 (t : R) : t <= 0 → exp t <= 1.
Proof.
  intros Ht. rewrite <- exp_0.
  destruct Ht as [Ht| ->]; [left; by apply exp_increasing|right; done].
Qed.

Lemma exp_le_mono (t s : R) : t <= s → exp t <= exp s.
Proof.
  intros [Ht| ->]; [left; by apply exp_increasing|right; done].
Qed.

Lemma exp_1_ge : 9 / 4 <= exp 1.
Proof.
  replace 1 with (/ 2 + / 2) by lra. rewrite exp_plus.
  pose proof (exp_ineq1_le (/ 2)). nra.
Qed.

Lemma exp_m1_le : exp (- 1) <= / 2.
Proof.
  replace (- 1) with (Ropp 1) by lra.
  rewrite exp_Ropp. apply Rinv_le_contravar; [lra|].
  pose proof (exp_ineq1_le 1). lra.
Qed.

Lemma exp_m3_le : exp (- 3) <= / 8.
Proof.
  replace (- 3) with (- 1 + (- 1 + - 1)) by lra. rewrite !exp_plus.
  pose proof exp_m1_le. pose proof (exp_pos (- 1)). nra.
Qed.

(** [q2 * d] is at least [n] once [d] is at least [n / q2]. *)
Lemma scaled_margin (q2 d n : R) : 0 < q2 → n / q2 <= d → n <= q2 * d.
Proof.
  intros Hq Hd. apply Rle_trans with (q2 * (n / q2)); [right; field; lra|].
  apply Rmult_le_compat_l; lra.
Qed.

End RealCosts.

(** C9, as the code has it.  For every control vector [u],
    [BoxInputConstraintCost.get_cost] returns
    [q1*(exp(q2*(u[i]-control_max))-1) + q1*(exp(q2*(control_min-u[i]))-1)]
    for the configured control index [i].  With [q1 > 0] and [q2 > 0] this
    value is at least [-2*q1] everywhere; it is at least [q1/4] once [u[i]]
    is beyond either bound by at least [1/q2]; it is at least [q1*q2] times
    the distance past either bound, minus [2*q1]; it is never positive
    inside the box [control_min <= u[i] <= control_max], the bounds
    included; it is at most [-q1] once [u[i]] is inside both bounds by at
    least [1/q2], and at most [-(7/4)*q1] once it is inside both by at
    least [3/q2]. *)
Theorem box_input_constraint_cost (u_index : Z) (lo hi q1 q2 : R)
    (b : Cost.Base) (x u : list R) (k i : nat) :
  jnp.norm_index (length u) u_index = Some i →
  let c := default 0%R (u !! i) in
  ∃ v, Cost.get_cost (Cost.BoxInputConstraintCost u_index lo hi q1 q2 b) x u k
       = Some v
     ∧ v = (q1 * (exp (q2 * (c - hi)) - 1) + q1 * (exp (q2 * (lo - c)) - 1))%R
     ∧ ((0 < q1)%R → (0 < q2)%R →
          (- 2 * q1 <= v)%R
          ∧ ((hi + 1 / q2 <= c)%R ∨ (c <= lo - 1 / q2)%R → (q1 / 4 <= v)%R)
          ∧ (q1 * (q2 * (c - hi)) - 2 * q1 <= v)%R
          ∧ (q1 * (q2 * (lo - c)) - 2 * q1 <= v)%R
          ∧ ((lo <= c <= hi)%R → (v <= 0)%R)
          ∧ ((lo + 1 / q2 <= c <= hi - 1 / q2)%R → (v <= - q1)%R)
          ∧ ((lo + 3 / q2 <= c <= hi - 3 / q2)%R → (v <= - (7 / 4) * q1)%R)).
Proof.
  intros Hi c. eexists. split; [by apply box_get_cost|]. fold c.
  split; [lra|]. intros Hq1 Hq2.
  pose proof (exp_pos (q2 * (c - hi))) as Hub.
  pose proof (exp_pos (q2 * (lo - c))) as Hlb.
  pose proof (exp_ineq1_le (q2 * (c - hi))) as Hub1.
  pose proof (exp_ineq1_le (q2 * (lo - c))) as Hlb1.
  pose proof exp_1_ge as He1. pose proof exp_m1_le as Hm1.
  pose proof exp_m3_le as Hm3.
  split; [nra|]. split.
  { intros [Hc|Hc].
    - assert (1 <= q2 * (c - hi))%R as Hm by (apply scaled_margin; lra).
      apply exp_le_mono in Hm. nra.
    - assert (1 <= q2 * (lo - c))%R as Hm by (apply scaled_margin; lra).
      apply exp_le_mono in Hm. nra. }
  split; [nra|]. split; [nra|]. split.
  { intros [Hlo Hhi].
    assert (q2 * (c - hi) <= 0)%R as Hu by nra.
    assert (q2 * (lo - c) <= 0)%R as Hl by nra.
    apply exp_le_1 in Hu, Hl. nra. }
  split.
  - intros [Hlo Hhi].
    assert (1 <= q2 * (hi - c))%R as Hu by (apply scaled_margin; lra).
    assert (1 <= q2 * (c - lo))%R as Hl by (apply scaled_margin; lra).
    assert (q2 * (c - hi) <= - 1)%R as Hu' by lra.
    assert (q2 * (lo - c) <= - 1)%R as Hl' by lra.
    apply exp_le_mono in Hu', Hl'. nra.
  - intros [Hlo Hhi].
    assert (3 <= q2 * (hi - c))%R as Hu by (apply scaled_margin; lra).
    assert (3 <= q2 * (c - lo))%R as Hl by (apply scaled_margin; lra).
    assert (q2 * (c - hi) <= - 3)%R as Hu' by lra.
    assert (q2 * (lo - c) <= - 3)%R as Hl' by lra.
    apply exp_le_mono in Hu', Hl'. nra.
Qed.

(** Against C9 as stated.  The barrier is negative at the upper bound
    itself and deep inside the box: with the default [q1 = 1], [q2 = 5] and the box [[-1, 1]], the cost
    at [u = 1 = control_max] is negative, and the cost at the centre [u = 0]
    is below [-1]. *)
Lemma box_input_constraint_cost_negative :
  let cost := Cost.BoxInputConstraintCost 0 (-1)%R 1%R 1%R 5%R (Cost.mkBase "" 1 1 1) in
  (∃ v, Cost.get_cost cost [0%R] [1%R] 0 = Some v ∧ (1 >= 1)%R ∧ ¬ (0 < v)%R)
  ∧ (∃ v, Cost.get_cost cost [0%R] [0%R] 0 = Some v ∧ (v < -1)%R).
Proof.
  cbn. split; eexists; (split; [reflexivity|]).
  - split; [lra|].
    pose proof (exp_le_1 (5 * (-1 - 1))). pose proof (exp_le_1 (5 * (1 - 1))).
    lra.
  - assert (exp (5 * (-1 - 0)) <= / 6)%R as E1.
    { replace (5 * (-1 - 0))%R with (Ropp 5) by lra. rewrite exp_Ropp.
      apply Rinv_le_contravar; [lra|].
      pose proof (exp_ineq1_le 5). lra. }
    assert (exp (5 * (0 - 1)) <= / 6)%R as E2.
    { replace (5 * (0 - 1))%R with (Ropp 5) by lra. rewrite exp_Ropp.
      apply Rinv_le_contravar; [lra|].
      pose proof (exp_ineq1_le 5). lra. }
    lra.
Qed.

(** C10.  For every non-empty state [x], also when the two players'
    positions coincide, [ProductStateProximityCostTwoPlayer.get_cost] does
    not raise and returns the sum over both players of
    [min(exp(min(rel_dist - max_distance, 0)^2), 1e5)]; each term is at most
    [1e5] and the total at most [2e5]. *)
Theorem product_state_proximity_cost_capped
    (p1 p2 : Z * Z) (rest : list (Z * Z)) (max_distance : R) (b : Cost.Base)
    (x u : list R) (k : nat) :
  x ≠ [] →
  ∃ x1 y1 x2 y2,
    jnp.get x p1.1 = Some x1 ∧ jnp.get x p1.2 = Some y1
    ∧ jnp.get x p2.1 = Some x2 ∧ jnp.get x p2.2 = Some y2
    ∧ let term (dx dy : R) :=
        Rmin (exp (Rmin (sqrt (dx ^ 2 + dy ^ 2) - max_distance) 0 ^ 2)) 100000%R in
      Cost.get_cost
        (Cost.ProductStateProximityCostTwoPlayer (p1 :: p2 :: rest) max_distance b)
        x u k
      = Some (term (x1 - x2) (y1 - y2) + term (x2 - x1) (y2 - y1))%R
      ∧ (term (x1 - x2) (y1 - y2) <= 100000)%R
      ∧ (term (x2 - x1) (y2 - y1) <= 100000)%R
      ∧ (term (x1 - x2) (y1 - y2) + term (x2 - x1) (y2 - y1) <= 200000)%R.
Proof.
  intros Hx. destruct p1 as [i1 j1], p2 as [i2 j2].
  destruct (get_is_Some x i1 Hx) as [x1 Hx1], (get_is_Some x j1 Hx) as [y1 Hy1],
    (get_is_Some x i2 Hx) as [x2 Hx2], (get_is_Some x j2 Hx) as [y2 Hy2].
  exists x1, y1, x2, y2. repeat (split; [done|]). intros term.
  assert (∀ dx dy, term dx dy <= 100000)%R as Hcap by (intros; apply Rmin_r).
  split; [|pose proof (Hcap (x1 - x2) (y1 - y2))%R;
           pose proof (Hcap (x2 - x1) (y2 - y1))%R; repeat split; lra].
  cbn. rewrite Hx1, Hx2, Hy1, Hy2. cbn. f_equal. unfold term.
  unfold Cost._max_exp_bound_proximity. cbn. lra.
Qed.

(** ** The planner: a weakest-precondition calculus for [RHCPlanner.M] *)

Section Logic.
Context {St E : Type}.
Import RHCPlanner.

Lemma wp_ret {A} (a : A) (Q : St → outcome E A → Prop) s :
  Q s (Ok a) → wp (mret a) Q s.
Proof. done. Qed.

Lemma wp_raise {A} (e : exn E) (Q : St → outcome E A → Prop) s :
  Q s (Raise e) → wp (raise e) Q s.
Proof. done. Qed.

Lemma wp_gets {A} (f : St → A) (Q : St → outcome E A → Prop) s :
  Q s (Ok (f s)) → wp (gets f) Q s.
Proof. done. Qed.

Lemma wp_modify (f : St → St) (Q : St → outcome E unit → Prop) s :
  Q (f s) (Ok tt) → wp (modify f) Q s.
Proof. done. Qed.

Lemma wp_bind {A B} (m : M St E A) (f : A → M St E B)
    (Q : St → outcome E B → Prop) s :
  wp m (λ s' r, match r with
                | Ok a => wp (f a) Q s'
                | Raise e => Q s' (Raise e)
                end) s →
  wp (m ≫= f) Q s.
Proof.
  unfold wp, mbind, M_bind, bind. by destruct (m s) as [s' [a|e]].
Qed.

Lemma wp_mono {A} (m : M St E A) (Q Q' : St → outcome E A → Prop) s :
  wp m Q s → (∀ s' r, Q s' r → Q' s' r) → wp m Q' s.
Proof. unfold wp. auto. Qed.

(** The loop rule: [I i a] holds of the loop variables before round [i];
    an exception leaves the loop with [R]. *)
Lemma wp_for_range_from {A} (body : nat → A → M St E A)
    (I : nat → A → St → Prop) (R : St → exn E → Prop) :
  ∀ n i a s,
    I i a s →
    (∀ j a s, (i ≤ j < i + n)%nat → I j a s →
       wp (body j a) (λ s' r, match r with
                              | Ok a' => I (S j) a' s'
                              | Raise e => R s' e
                              end) s) →
    wp (for_range_from i n body a)
       (λ s' r, match r with
                | Ok a' => I (i + n)%nat a' s'
                | Raise e => R s' e
                end) s.
Proof.
  induction n as [|n IH]; intros i a s HI Hbody; cbn [for_range_from].
  - apply wp_ret. by rewrite Nat.add_0_r.
  - apply (wp_bind (body i a)).
    eapply wp_mono; [apply Hbody; [lia|done]|].
    intros s' [a'|e] Hr; [|done].
    eapply wp_mono; [apply (IH (S i)); [done|]|].
    + intros j a'' s'' Hj. apply Hbody. lia.
    + intros s'' [a''|e] Hr'; [|done]. by rewrite Nat.add_succ_r.
Qed.

Lemma wp_for_range {A} (body : nat → A → M St E A)
    (I : nat → A → St → Prop) (R : St → exn E → Prop) n a s :
  I 0%nat a s →
  (∀ j a s, (j < n)%nat → I j a s →
     wp (body j a) (λ s' r, match r with
                            | Ok a' => I (S j) a' s'
                            | Raise e => R s' e
                            end) s) →
  wp (for_range n body a)
     (λ s' r, match r with
              | Ok a' => I n a' s'
              | Raise e => R s' e
              end) s.
Proof.
  intros HI Hbody.
  apply (wp_for_range_from body I R n 0%nat a s HI).
  intros j a' s' Hj. apply Hbody. lia.
Qed.

End Logic.

(** ** Facts about the NumPy operations *)

Section NumPyFacts.
Context {T : Type} `{Scalar T}.
Implicit Types a v : np.ndarray T.

Lemma np_norm_index_nat (n i : nat) :
  (i < n)%nat → np.norm_index n (Z.of_nat i) = Some i.
Proof.
  intros Hi. unfold np.norm_index.
  rewrite decide_True by lia. by rewrite Nat2Z.id.
Qed.

Lemma setitem_shape a ixs v a' :
  np.setitem a ixs v = inr a' → np.shape a' = np.shape a.
Proof.
  unfold np.setitem. destruct (np.resolve (np.shape a) ixs); [|done].
  destruct (np.can_assign _ _); [|done]. by intros [= <-].
Qed.

Lemma setitem_error a ixs v err :
  is_Some (np.resolve (np.shape a) ixs) →
  np.setitem a ixs v = inl err → err = np.ValueError.
Proof.
  intros [sels Hs]. unfold np.setitem. rewrite Hs.
  destruct (np.can_assign _ _); [done|]. by intros [= <-].
Qed.

Lemma setitem_at a ixs v a' sels :
  np.resolve (np.shape a) ixs = Some sels →
  np.setitem a ixs v = inr a' →
  ∀ full, np.at_ a' full
          = match np.project sels full with
            | Some r => np.at_ v (np.bindex (np.shape v) r)
            | None => np.at_ a full
            end.
Proof.
  intros Hs. unfold np.setitem. rewrite Hs.
  destruct (np.can_assign _ _); [|done]. by intros [= <-].
Qed.

Lemma getitem_resolved a ixs sels :
  np.resolve (np.shape a) ixs = Some sels →
  np.getitem a ixs
  = inr (np.mk (np.region_shape sels) (λ r, np.at_ a (np.embed sels r))).
Proof. intros Hs. unfold np.getitem. by rewrite Hs. Qed.

(** The indices the planner writes at, resolved. *)
Lemma resolve_col (r c k : nat) :
  (k < c)%nat →
  np.resolve [r; c] [np.All; np.Idx (Z.of_nat k)]
  = Some [np.Range 0 r; np.Fixed k].
Proof. intros Hk. cbn. by rewrite np_norm_index_nat. Qed.

Lemma resolve_fibre3 (n n1 n2 l1 l2 : nat) :
  (l1 < n1)%nat → (l2 < n2)%nat →
  np.resolve [n; n1; n2] [np.All; np.Idx (Z.of_nat l1); np.Idx (Z.of_nat l2)]
  = Some [np.Range 0 n; np.Fixed l1; np.Fixed l2].
Proof. intros H1 H2. cbn. by rewrite !np_norm_index_nat. Qed.

Lemma resolve_fibre4 (n m n1 n2 l1 l2 : nat) :
  (l1 < n1)%nat → (l2 < n2)%nat →
  np.resolve [n; m; n1; n2]
    [np.All; np.All; np.Idx (Z.of_nat l1); np.Idx (Z.of_nat l2)]
  = Some [np.Range 0 n; np.Range 0 m; np.Fixed l1; np.Fixed l2].
Proof. intros H1 H2. cbn. by rewrite !np_norm_index_nat. Qed.

Lemma resolve_entry (n1 n2 l1 l2 : nat) :
  (l1 < n1)%nat → (l2 < n2)%nat →
  np.resolve [n1; n2] [np.Idx (Z.of_nat l1); np.Idx (Z.of_nat l2)]
  = Some [np.Fixed l1; np.Fixed l2].
Proof. intros H1 H2. cbn. by rewrite !np_norm_index_nat. Qed.

Lemma resolve_slice_col (r c lo hi k : nat) :
  (k < c)%nat →
  np.resolve [r; c] [np.Slice lo hi; np.Idx (Z.of_nat k)]
  = Some [np.Range (lo `min` r) ((hi `min` r) - (lo `min` r)); np.Fixed k].
Proof. intros Hk. cbn. by rewrite np_norm_index_nat. Qed.

End NumPyFacts.

(** ** The planner's primitives *)

Section PlannerPrimitives.
Context {T : Type} `{Scalar T} {W E U Solver : Type}.
Import RHCPlanner.
Implicit Types s : state (T:=T) (W:=W) (Solver:=Solver).

Lemma wp_numpy {A} (site : string) (r : np.error + A)
    (Q : state (T:=T) (W:=W) (Solver:=Solver) → outcome E A → Prop) s :
  (∀ a, r = inr a → Q s (Ok a)) →
  (∀ err, r = inl err → Q s (Raise (exn_of site err))) →
  wp (numpy site r) Q s.
Proof. intros Hok Herr. destruct r as [err|a]; cbn; [by apply Herr|by apply Hok]. Qed.

Lemma wp_item {A} (site : string) (l : list A) (i : nat)
    (Q : state (T:=T) (W:=W) (Solver:=Solver) → outcome E A → Prop) s :
  (∀ a, l !! i = Some a → Q s (Ok a)) →
  (l !! i = None → Q s (Raise (IndexError site))) →
  wp (item site l i) Q s.
Proof.
  intros Hok Herr. unfold item.
  destruct (l !! i) as [a|]; [by apply Hok|by apply Herr].
Qed.

Lemma wp_call {A} (f : W → E + W * A)
    (Q : state (T:=T) (W:=W) (Solver:=Solver) → outcome E A → Prop) s :
  (∀ w a, f (world s) = inr (w, a) →
     Q (mk_state (self s) w (GiNOD_calls s)) (Ok a)) →
  (∀ e, f (world s) = inl e → Q s (Raise (Collaborator e))) →
  wp (call f) Q s.
Proof.
  intros Hok Herr. unfold wp, call.
  destruct (f (world s)) as [e|[w a]]; [by apply Herr|by apply Hok].
Qed.

Lemma wp_record_call (c : GiNOD_call (T:=T))
    (Q : state (T:=T) (W:=W) (Solver:=Solver) → outcome E unit → Prop) s :
  Q (mk_state (self s) (world s) (GiNOD_calls s ++ [c])) (Ok tt) →
  wp (record_call c) Q s.
Proof. done. Qed.

End PlannerPrimitives.

(** ** The subgame loop *)

(** Closes the goals of an exception raised outside the bundle writes. *)
Ltac other_site :=
  match goal with
  | |- _ ∧ _ => split; [done|]; other_site
  | |- _ → _ => intros; other_site
  | |- out_of_bounds_bundle_write (RHCPlanner.exn_of _ ?err) = false =>
      by destruct err
  | |- out_of_bounds_bundle_write _ = false => reflexivity
  end.

Section SubgameLoop.
Context {T : Type} `{Scalar T} {W E U Solver : Type}.
Import RHCPlanner.
Variable env : collaborators (T:=T) (W:=W) (E:=E) (U:=U) (Solver:=Solver).
Implicit Types s : state (T:=T) (W:=W) (Solver:=Solver).
Implicit Types b : bundle (T:=T).


Lemma solve_subgame_spec (xs : np.ndarray T) (k l1 l2 nx nz1 nz2 : nat) b
    (P : Prop) s0 s :
  (P → (nz1 ≤ 2)%nat ∧ (nz2 ≤ 2)%nat) →
  (l1 < nz1)%nat → (l2 < nz2)%nat →
  bundle_shapes nx nz1 nz2 b → unchanged s0 s →
  wp (solve_subgame env xs k l1 l2 b)
     (λ s' r, unchanged s0 s'
              ∧ match r with
                | Ok b' => bundle_shapes nx nz1 nz2 b'
                | Raise e => P → out_of_bounds_bundle_write e = false
                end) s.
Proof.
  intros HP Hl1 Hl2 (HZ1 & HZ2 & Hz1 & Hz2 & Hn1 & Hn2 & Hxn) Hs.
  unfold solve_subgame.
  apply wp_bind, wp_gets. apply wp_bind, wp_gets.
  apply wp_bind, wp_item; [intros row _|other_site].
  apply wp_bind, wp_item; [intros solver _|other_site].
  apply wp_bind, wp_numpy; [intros x_k _|other_site].
  apply wp_bind, wp_call; [intros w [] _|other_site].
  set (s1 := mk_state (self s) w (GiNOD_calls s)).
  assert (unchanged s0 s1) as Hs1 by done. clearbody s1.
  apply wp_bind, wp_gets.
  apply wp_bind, wp_item; [intros xs_ILQ _|other_site].
  apply wp_bind, wp_numpy; [intros v _|other_site].
  apply wp_bind, wp_numpy; [intros xnom Hxnom|intros err Herr].
  2:{ apply setitem_error in Herr as ->; [other_site|].
      rewrite Hxn, resolve_fibre3 by done. eauto. }
  apply wp_bind, wp_item; [intros op4 _|other_site].
  apply wp_bind, wp_numpy; [intros Zs _|other_site].
  apply wp_bind, wp_item; [intros op5 _|other_site].
  apply wp_bind, wp_numpy; [intros zetas _|other_site].
  apply wp_bind, wp_item; [intros nom_costs _|other_site].
  apply wp_bind, wp_numpy; [intros v1 _|other_site].
  apply wp_bind, wp_numpy; [intros Z1 HZ1'|intros err Herr].
  2:{ apply setitem_error in Herr as ->; [other_site|].
      rewrite HZ1, resolve_fibre4 by done. eauto. }
  apply wp_bind, wp_numpy; [intros v2 _|other_site].
  apply wp_bind, wp_numpy; [intros Z2 HZ2'|intros err Herr].
  2:{ apply setitem_error in Herr as ->; [other_site|].
      rewrite HZ2, resolve_fibre4 by done. eauto. }
  apply wp_bind, wp_numpy; [intros v3 _|other_site].
  apply wp_bind, wp_numpy; [intros zeta1 Hzeta1|intros err Herr].
  2:{ apply setitem_error in Herr as ->; [other_site|].
      rewrite Hz1, resolve_fibre3 by done. eauto. }
  apply wp_bind, wp_numpy; [intros v4 _|other_site].
  apply wp_bind, wp_numpy; [intros zeta2 Hzeta2|intros err Herr].
  2:{ apply setitem_error in Herr as ->; [other_site|].
      rewrite Hz2, resolve_fibre3 by done. eauto. }
  apply wp_bind, wp_numpy; [intros v5 _|other_site].
  apply wp_bind, wp_numpy; [intros nom_cost1 Hnom1|intros err Herr].
  2:{ split; [done|]. intros [? ?]%HP.
      apply setitem_error in Herr as ->; [done|].
      rewrite Hn1, resolve_entry by lia. eauto. }
  apply wp_bind, wp_numpy; [intros v6 _|other_site].
  apply wp_bind, wp_numpy; [intros nom_cost2 Hnom2|intros err Herr].
  2:{ split; [done|]. intros [? ?]%HP.
      apply setitem_error in Herr as ->; [done|].
      rewrite Hn2, resolve_entry by lia. eauto. }
  apply wp_ret. split; [done|]. unfold bundle_shapes. cbn.
  rewrite (setitem_shape _ _ _ _ HZ1'), (setitem_shape _ _ _ _ HZ2'),
    (setitem_shape _ _ _ _ Hzeta1), (setitem_shape _ _ _ _ Hzeta2),
    (setitem_shape _ _ _ _ Hnom1), (setitem_shape _ _ _ _ Hnom2),
    (setitem_shape _ _ _ _ Hxnom).
  done.
Qed.

(** The two nested loops over the opinion modes. *)
Lemma subgame_loops_spec (xs : np.ndarray T) (k nx nz1 nz2 : nat) b
    (P : Prop) s :
  (P → (nz1 ≤ 2)%nat ∧ (nz2 ≤ 2)%nat) →
  bundle_shapes nx nz1 nz2 b →
  wp (for_range nz1 (λ l1, for_range nz2 (λ l2, solve_subgame env xs k l1 l2)) b)
     (λ s' r, unchanged s s'
              ∧ match r with
                | Ok b' => bundle_shapes nx nz1 nz2 b'
                | Raise e => P → out_of_bounds_bundle_write e = false
                end) s.
Proof.
  intros HP Hb.
  eapply wp_mono.
  - apply (wp_for_range _
             (λ _ b' s', unchanged s s' ∧ bundle_shapes nx nz1 nz2 b')
             (λ s' e, unchanged s s' ∧ (P → out_of_bounds_bundle_write e = false))).
    + done.
    + intros l1 b1 s1 Hl1 [Hs1 Hb1].
      eapply wp_mono.
      * apply (wp_for_range _
                 (λ _ b' s', unchanged s s' ∧ bundle_shapes nx nz1 nz2 b')
                 (λ s' e, unchanged s s'
                          ∧ (P → out_of_bounds_bundle_write e = false))).
        -- done.
        -- intros l2 b2 s2 Hl2 [Hs2 Hb2].
           eapply wp_mono; [by apply (solve_subgame_spec xs k l1 l2 nx nz1 nz2 b2 P s s2)|].
           by intros s' [b'|e] [? ?].
      * by intros s' [b'|e] ?.
  - by intros s' [b'|e] [? ?].
Qed.

End SubgameLoop.

(** ** One step of the planning loop *)

Section ColumnWrites.
Context {T : Type} `{Scalar T}.
Implicit Types a v : np.ndarray T.

(** [a[:, c] = v] leaves the other columns alone ... *)
Lemma setitem_col_other a v a' (r n c : nat) :
  np.shape a = [r; n] → (c < n)%nat →
  np.setitem a [np.All; np.Idx (Z.of_nat c)] v = inr a' →
  ∀ i col, col ≠ c → np.at_ a' [i; col] = np.at_ a [i; col].
Proof.
  intros Hsh Hc Hset i col Hcol.
  rewrite (setitem_at a [np.All; np.Idx (Z.of_nat c)] v a'
             [np.Range 0 r; np.Fixed c]); [|by rewrite Hsh, resolve_col|done].
  cbn. repeat case_decide; by simplify_eq.
Qed.

(** ... and stores the broadcast value in column [c]. *)
Lemma setitem_col_same a v a' (r n c : nat) :
  np.shape a = [r; n] → (c < n)%nat →
  np.setitem a [np.All; np.Idx (Z.of_nat c)] v = inr a' →
  ∀ i, (i < r)%nat → np.at_ a' [i; c] = np.at_ v (np.bindex (np.shape v) [i]).
Proof.
  intros Hsh Hc Hset i Hi.
  rewrite (setitem_at a [np.All; np.Idx (Z.of_nat c)] v a'
             [np.Range 0 r; np.Fixed c]); [|by rewrite Hsh, resolve_col|done].
  cbn. rewrite decide_True by lia. rewrite decide_True by done. cbn.
  by rewrite Nat.sub_0_r.
Qed.

Lemma getitem_col a (r n c : nat) :
  np.shape a = [r; n] → (c < n)%nat →
  np.getitem a [np.All; np.Idx (Z.of_nat c)]
  = inr (np.mk [r] (λ i, np.at_ a [hd 0%nat i; c])).
Proof.
  intros Hsh Hc. by rewrite (getitem_resolved a [np.All; np.Idx (Z.of_nat c)]
                  [np.Range 0 r; np.Fixed c])
    by (by rewrite Hsh, resolve_col).
Qed.

Lemma getitem_slice_col a (r n lo hi c : nat) :
  np.shape a = [r; n] → (c < n)%nat →
  np.getitem a [np.Slice lo hi; np.Idx (Z.of_nat c)]
  = inr (np.mk [((hi `min` r) - (lo `min` r))%nat]
               (λ i, np.at_ a [((lo `min` r) + hd 0 i)%nat; c])).
Proof.
  intros Hsh Hc.
  by rewrite (getitem_resolved a [np.Slice lo hi; np.Idx (Z.of_nat c)]
                [np.Range (lo `min` r) ((hi `min` r) - (lo `min` r)); np.Fixed c])
    by (by rewrite Hsh, resolve_slice_col).
Qed.

End ColumnWrites.

(** ** Broadcasting a value into a column *)

Section Broadcasting.

Lemma zip_with_bindex1_zeros (sh : list nat) :
  zip_with np.bindex1 sh (replicate (length sh) 0%nat)
  = replicate (length sh) 0%nat.
Proof.
  induction sh as [|d sh IH]; [done|]. cbn. rewrite IH. f_equal.
  unfold np.bindex1. by case_decide.
Qed.

(** Reading a broadcast array at a multi-index whose leading entries are
    zero. *)
Lemma bindex_snoc (sh : list nat) (d j : nat) :
  np.bindex (sh ++ [d]) (replicate (length sh) 0%nat ++ [j])
  = replicate (length sh) 0%nat ++ [np.bindex1 d j].
Proof.
  unfold np.bindex. rewrite !length_app, length_replicate. cbn [length].
  rewrite Nat.sub_diag. cbn [replicate app]. rewrite drop_0.
  rewrite zip_with_app by (by rewrite length_replicate).
  by rewrite zip_with_bindex1_zeros.
Qed.

Lemma bindex_snoc_1 (sh : list nat) (d j : nat) :
  np.bindex (sh ++ [d]) [j] = replicate (length sh) 0%nat ++ [np.bindex1 d j].
Proof.
  unfold np.bindex. rewrite !length_app. cbn [length].
  replace (length sh + 1 - 1)%nat with (length sh) by lia.
  replace (1 - (length sh + 1))%nat with 0%nat by lia. rewrite drop_0.
  rewrite zip_with_app by (by rewrite length_replicate).
  by rewrite zip_with_bindex1_zeros.
Qed.

Lemma bindex_1_snoc (n : nat) (l : list nat) (j : nat) :
  np.bindex [n] (l ++ [j]) = [np.bindex1 n j].
Proof.
  unfold np.bindex. rewrite length_app. cbn [length].
  replace (1 - (length l + 1))%nat with 0%nat by lia.
  replace (length l + 1 - 1)%nat with (length l) by lia. cbn [replicate app].
  by rewrite drop_app_length.
Qed.

(** The shape of [a + b] for a one-dimensional [a] of length [n]: the
    last axis of [b], if any, is broadcast against [n]. *)
Lemma broadcast_shapes_1 (n : nat) (sd sh : list nat) :
  np.broadcast_shapes [n] sd = Some sh →
  (sd = [] ∧ sh = [n])
  ∨ ∃ front d d', sd = front ++ [d] ∧ sh = front ++ [d']
                  ∧ (d' = n ∨ n = 1%nat)
                  ∧ (d = d' ∨ d = 1%nat).
Proof.
  unfold np.broadcast_shapes. cbn [reverse rev_append].
  destruct (reverse sd) as [|d rest] eqn:Hrev;
    apply (f_equal reverse) in Hrev; rewrite reverse_involutive in Hrev.
  - cbn. intros [= <-]. by left.
  - rewrite reverse_cons in Hrev. intros Hsh. right.
    assert (∃ d', sh = reverse rest ++ [d']
                  ∧ (d' = n ∨ n = 1%nat) ∧ (d = d' ∨ d = 1%nat))
      as (d' & -> & ? & ?); [|by exists (reverse rest), d, d'].
    cbn [np.broadcast_rev] in Hsh.
    repeat case_decide; simplify_eq; cbn -[reverse] in Hsh; simplify_eq;
      rewrite reverse_cons; eexists; (split; [reflexivity|]); auto.
Qed.

Context {T : Type} `{Scalar T}.

(** The entries of [z_k + t * z_dot], assigned to a column of length [n]. *)
Lemma add_scale_at (z_k z_dot z_next : np.ndarray T) (t : T) (n i : nat) :
  np.shape z_k = [n] → (i < n)%nat →
  np.add z_k (np.scale t z_dot) = inr z_next →
  np.at_ z_next (np.bindex (np.shape z_next) [i])
  = (np.at_ z_k [i] + t * np.at_ (np.broadcast_to z_dot [n]) [i])%S.
Proof.
  intros Hk Hi. unfold np.add. cbn [np.shape np.scale]. rewrite Hk.
  destruct (np.broadcast_shapes [n] (np.shape z_dot)) as [sh|] eqn:Hsh; [|done].
  intros [= <-]. cbn [np.shape np.at_ np.broadcast_to np.scale].
  assert (np.bindex1 n i = i) as Hni.
  { unfold np.bindex1. case_decide; lia. }
  apply broadcast_shapes_1 in Hsh
    as [[Hd ->]|(front & d & d' & Hd & -> & Hd' & Hdd)]; rewrite Hd.
  - cbn. by rewrite !Hni.
  - rewrite bindex_snoc_1, bindex_1_snoc, bindex_snoc, bindex_snoc_1.
    assert (np.bindex1 d' i = i) as ->.
    { unfold np.bindex1. case_decide; lia. }
    by rewrite Hni.
Qed.

(** Broadcasting a vector to its own shape reads it as it is. *)
Lemma broadcast_to_vector (a : np.ndarray T) (n i : nat) :
  np.shape a = [n] → (i < n)%nat →
  np.at_ (np.broadcast_to a [n]) [i] = np.at_ a [i].
Proof.
  intros Ha Hi. cbn. rewrite Ha. cbn. unfold np.bindex1.
  case_decide; [|done]. by replace i with 0%nat by lia.
Qed.

End Broadcasting.

Section PlanStep.
Context {T : Type} `{Scalar T} {W E U Solver : Type}.
Import RHCPlanner.
Variable env : collaborators (T:=T) (W:=W) (E:=E) (U:=U) (Solver:=Solver).
Implicit Types s : state (T:=T) (W:=W) (Solver:=Solver).
Implicit Types xs zs : np.ndarray T.

(** The facts about the call of step [j] only read the columns up to
    [j + 1]: they survive a write to a later column. *)
Lemma call_facts_frame (z0 xs zs xs' zs' : np.ndarray T) (nx nz j k : nat)
    (c : GiNOD_call (T:=T)) :
  (j < k)%nat →
  (∀ i col, col ≠ S k → np.at_ xs' [i; col] = np.at_ xs [i; col]) →
  (∀ i col, col ≠ S k → np.at_ zs' [i; col] = np.at_ zs [i; col]) →
  call_facts env z0 xs zs nx nz j c → call_facts env z0 xs' zs' nx nz j c.
Proof.
  intros Hj Hxs Hzs (Hn1 & Hn2 & Href & Hjnt & Hdyn & Heuler).
  repeat split; try done.
  - destruct j as [|j']; [done|]. destruct Href as [[? Hr1] [? Hr2]].
    split; (split; [done|]); intros r; rewrite Hzs by lia; done.
  - by destruct Hjnt.
  - destruct Hjnt as [_ Hat]. intros r. rewrite Hat.
    case_decide; [by rewrite Hxs by lia|by rewrite Hzs by lia].
  - intros i Hi. rewrite !Hzs by lia. by apply Heuler.
Qed.


Lemma plan_step_spec (z0 : np.ndarray T) (nx nz N : nat)
    (me : t (T:=T) (Solver:=Solver)) (calls0 : list (GiNOD_call (T:=T)))
    (k : nat) (l : logs (T:=T)) s :
  (k < N)%nat →
  plan_inv env z0 nx nz N me calls0 k l s →
  wp (plan_step env z0 nx (_num_opn_P1 env) (_num_opn_P2 env) k l)
     (λ s' r, match r with
              | Ok l' => plan_inv env z0 nx nz N me calls0 (S k) l' s'
              | Raise e => plan_raises env me s' e
              end) s.
Proof.
  intros Hk (Hme & Hshapes & Hmeth & new & Hcalls & Hlen & Hfacts).
  destruct l as [[[xs zs] Hs] PoI].
  destruct Hshapes as (Hxs & Hzs & HHs & HPoI). cbn in Hxs, Hzs, HHs, HPoI, Hfacts.
  set (nz1 := _num_opn_P1 env) in *. set (nz2 := _num_opn_P2 env) in *.
  unfold plan_step, plan_raises. fold nz1 nz2.
  (* the subgame loops *)
  apply wp_bind. eapply wp_mono.
  { apply (subgame_loops_spec env xs k nx nz1 nz2 _ ((nz1 ≤ 2)%nat ∧ (nz2 ≤ 2)%nat));
      [done|by repeat split]. }
  intros s1 [b|e] [[Hself1 Hcalls1] Hb]; [|split; [congruence|auto]].
  rewrite Hme in Hself1. rewrite Hcalls in Hcalls1.
  destruct Hb as (_ & _ & _ & _ & Hn1 & Hn2 & _).
  clear s Hme Hcalls. revert Hself1 Hcalls1. generalize s1. clear s1.
  intros s Hme Hcalls.
  (* the opinion references *)
  apply wp_bind.
  apply (wp_mono _ (λ s' r, s' = s ∧
           match r with
           | Ok a => ∀ zs', (∀ i col, col ≠ S k →
                               np.at_ zs' [i; col] = np.at_ zs [i; col]) →
                      match k with
                      | O => np.getitem z0 [np.Slice 0 nz1] = inr a
                      | S k' => slice_of_column zs' nz 0 nz1 k' a
                      end
           | Raise e => out_of_bounds_bundle_write e = false
           end)).
  { destruct k as [|k'];
      [rewrite decide_True by done
      |rewrite decide_False by done; replace (S k' - 1)%nat with k' by lia].
    - apply wp_numpy; [by intros a ->|other_site].
    - rewrite (getitem_slice_col zs nz (N + 1) 0 nz1 k') by (done || lia).
      apply wp_numpy; [intros a [= <-]|done].
      split; [done|]. intros zs' Hzs'. split; [done|].
      intros r. cbn. by rewrite Hzs' by lia. }
  intros ? [znom1|e] [-> Hznom1]; [|done].
  apply wp_bind.
  apply (wp_mono _ (λ s' r, s' = s ∧
           match r with
           | Ok a => ∀ zs', (∀ i col, col ≠ S k →
                               np.at_ zs' [i; col] = np.at_ zs [i; col]) →
                      match k with
                      | O => np.getitem z0 [np.Slice nz1 (nz1 + nz2)] = inr a
                      | S k' => slice_of_column zs' nz nz1 (nz1 + nz2) k' a
                      end
           | Raise e => out_of_bounds_bundle_write e = false
           end)).
  { destruct k as [|k'];
      [rewrite decide_True by done
      |rewrite decide_False by done; replace (S k' - 1)%nat with k' by lia].
    - apply wp_numpy; [by intros a ->|other_site].
    - rewrite (getitem_slice_col zs nz (N + 1) nz1 (nz1 + nz2) k') by (done || lia).
      apply wp_numpy; [intros a [= <-]|done].
      split; [done|]. intros zs' Hzs'. split; [done|].
      intros r. cbn. by rewrite Hzs' by lia. }
  intros ? [znom2|e] [-> Hznom2]; [|done].
  apply wp_bind, wp_numpy; [intros z1_k _|other_site].
  apply wp_bind, wp_numpy; [intros z2_k _|other_site].
  apply wp_bind, wp_numpy; [intros att1_k _|other_site].
  apply wp_bind, wp_numpy; [intros att2_k _|other_site].
  apply wp_bind, wp_gets. apply wp_bind, wp_gets.
  (* the dispatch on the method *)
  set (sg := mk_subgame _ _ _ _ _ _ _ _ _).
  rewrite (getitem_col xs nx (N + 1) k) by (done || lia).
  apply wp_bind.
  apply (wp_mono _ (λ s' r, unchanged s s' ∧
           match r with
           | Ok _ => recognised_method (_method me) = true
           | Raise e => out_of_bounds_bundle_write e = false
           end)).
  { rewrite Hme.
    destruct (String.eqb (_method me) "QMDPL0") eqn:E0;
      [|destruct (String.eqb (_method me) "QMDPL1") eqn:E1;
        [|destruct (String.eqb (_method me) "QMDPL1L0") eqn:E2]].
    - apply String.eqb_eq in E0 as ->.
      apply wp_bind, wp_numpy; [intros ? _|other_site].
      apply wp_bind, wp_call; [intros w1 u1 _|other_site].
      apply wp_bind, wp_numpy; [intros ? _|other_site].
      apply wp_bind, wp_call; [intros w2 u2 _|other_site].
      by apply wp_ret.
    - apply String.eqb_eq in E1 as ->.
      apply wp_bind, wp_numpy; [intros ? _|other_site].
      apply wp_bind, wp_call; [intros w1 u1 _|other_site].
      apply wp_bind, wp_numpy; [intros ? _|other_site].
      apply wp_bind, wp_call; [intros w2 u2 _|other_site].
      by apply wp_ret.
    - apply String.eqb_eq in E2 as ->.
      apply wp_bind, wp_numpy; [intros ? _|other_site].
      apply wp_bind, wp_call; [intros w1 u1 _|other_site].
      apply wp_bind, wp_numpy; [intros ? _|other_site].
      apply wp_bind, wp_call; [intros w2 u2 _|other_site].
      by apply wp_ret.
    - by apply wp_raise. }
  intros s2 [u_list|e] [[Hself2 Hcalls2] Hrec]; [|split; [congruence|auto]].
  rewrite Hme in Hself2. rewrite Hcalls in Hcalls2.
  (* the opinion dynamics *)
  apply wp_bind, wp_numpy; [intros x_k [= <-]|other_site].
  rewrite (getitem_col zs nz (N + 1) k) by (done || lia).
  apply wp_bind, wp_numpy; [intros z_k [= <-]|other_site].
  apply wp_bind, wp_numpy; [intros x_jnt [= <-]|other_site].
  apply wp_bind, wp_call;
    [intros w3 [[[z_dot_k H_k] PoI1_k] PoI2_k] Hdyn|other_site].
  apply wp_bind, wp_record_call.
  apply wp_bind, wp_numpy; [intros z_k' [= <-]|other_site].
  apply wp_bind, wp_numpy; [intros z_next Hnext|other_site].
  apply wp_bind, wp_numpy; [intros zs' Hzs'|other_site].
  apply wp_bind, wp_numpy; [intros Hs' HHs'|other_site].
  apply wp_bind, wp_numpy; [intros PoI_k _|other_site].
  apply wp_bind, wp_numpy; [intros PoI' HPoI'|other_site].
  apply wp_bind, wp_numpy; [intros x_k' _|other_site].
  apply wp_bind, wp_call; [intros w4 x_ph_next _|other_site].
  apply wp_bind, wp_numpy; [intros xs' Hxs'|other_site].
  apply wp_ret.
  (* the invariant after the step *)
  assert (∀ i col, col ≠ S k → np.at_ xs' [i; col] = np.at_ xs [i; col]) as Fxs.
  { replace (S k) with (k + 1)%nat by lia.
    apply (setitem_col_other xs x_ph_next xs' nx (N + 1) (k + 1)); (done || lia). }
  assert (∀ i col, col ≠ S k → np.at_ zs' [i; col] = np.at_ zs [i; col]) as Fzs.
  { replace (S k) with (k + 1)%nat by lia.
    apply (setitem_col_other zs z_next zs' nz (N + 1) (k + 1)); (done || lia). }
  split; [done|]. split.
  { repeat split; cbn.
    - by rewrite (setitem_shape _ _ _ _ Hxs').
    - by rewrite (setitem_shape _ _ _ _ Hzs').
    - by rewrite (setitem_shape _ _ _ _ HHs').
    - by rewrite (setitem_shape _ _ _ _ HPoI'). }
  split; [done|].
  eexists (new ++ [_]). split; [cbn; rewrite Hcalls2; by rewrite <- app_assoc|].
  split; [rewrite length_app; cbn; lia|].
  intros j c Hj. cbn.
  destruct (decide (j < length new)%nat) as [Hlt|Hge].
  - rewrite lookup_app_l in Hj by done.
    apply (call_facts_frame z0 xs zs xs' zs' nx nz j k c); [lia|done|done|].
    by apply Hfacts.
  - rewrite lookup_app_r in Hj by lia.
    assert (j = k) as -> by (apply lookup_lt_Some in Hj; cbn in Hj; lia).
    rewrite Hlen, Nat.sub_diag in Hj. injection Hj as <-.
    unfold call_facts. cbn. fold nz1 nz2.
    split; [done|]. split; [done|]. split.
    { unfold references. destruct k as [|k']; [by split; [apply (Hznom1 zs)|apply (Hznom2 zs)]|].
      split; [by apply Hznom1|by apply Hznom2]. }
    split.
    { split; [done|]. intros r. cbn.
      case_decide; [by rewrite Fxs by lia|by rewrite Fzs by lia]. }
    split; [by eauto|].
    intros i Hi.
    rewrite (setitem_col_same zs z_next zs' nz (N + 1) (k + 1)) by (done || lia).
    rewrite (add_scale_at (np.mk [nz] (λ i, np.at_ zs [hd 0%nat i; k]))
               z_dot_k z_next (_T env) nz i eq_refl Hi Hnext).
    cbn [np.at_ hd]. by rewrite Fzs by lia.
Qed.

End PlanStep.

(** ** The whole of [plan] *)

Section Plan.
Context {T : Type} `{Scalar T} {W E U Solver : Type}.
Import RHCPlanner.
Variable env : collaborators (T:=T) (W:=W) (E:=E) (U:=U) (Solver:=Solver).
Implicit Types s : state (T:=T) (W:=W) (Solver:=Solver).


Lemma plan_spec (x0 z0 : np.ndarray T) s :
  wp (plan env x0 z0)
     (λ s' r, match r with
              | Ok _ => plan_returns env x0 z0 s s'
              | Raise e => plan_raises env (self s) s' e
              end) s.
Proof.
  unfold plan, plan_raises.
  apply wp_bind, wp_numpy; [intros nx Hnx|other_site].
  apply wp_bind, wp_numpy; [intros nz Hnz|other_site].
  apply wp_bind, wp_gets.
  apply wp_bind, wp_numpy; [intros xs Hxs|other_site].
  apply wp_bind, wp_numpy; [intros zs Hzs|other_site].
  apply wp_bind. eapply wp_mono.
  { apply (wp_for_range _
             (plan_inv env z0 nx nz (_N_sim (self s)) (self s) (GiNOD_calls s))
             (plan_raises env (self s))).
    - split; [done|]. split.
      { repeat split; cbn; [by rewrite (setitem_shape _ _ _ _ Hxs)
                           |by rewrite (setitem_shape _ _ _ _ Hzs)]. }
      split; [lia|]. exists []. by rewrite app_nil_r.
    - intros k l s1 Hk Hinv. by apply (plan_step_spec env). }
  intros s1 [[[[xs' zs'] Hs'] PoI']|e] Hpost; [|done].
  destruct Hpost as (Hme & Hshapes & Hmeth & new & Hcalls & Hlen & Hfacts).
  apply wp_modify. exists nx, nz, xs', zs', Hs', PoI'.
  cbn. rewrite Hme. do 5 (split; [done|]). by exists new.
Qed.

End Plan.

(** ** The claims about [RHCPlanner.plan] *)

Section PlanClaims.
Context {T : Type} `{Scalar T} {W E U Solver : Type}.
Import RHCPlanner.
Variable env : collaborators (T:=T) (W:=W) (E:=E) (U:=U) (Solver:=Solver).
Implicit Types s : state (T:=T) (W:=W) (Solver:=Solver).

Lemma plan_Ok (x0 z0 : np.ndarray T) s u :
  (plan env x0 z0 s).2 = Ok u → plan_returns env x0 z0 s (plan env x0 z0 s).1.
Proof. intros Hr. pose proof (plan_spec env x0 z0 s) as Hp. unfold wp in Hp. by rewrite Hr in Hp. Qed.

Lemma plan_Raise (x0 z0 : np.ndarray T) s e :
  (plan env x0 z0 s).2 = Raise e →
  plan_raises env (self s) (plan env x0 z0 s).1 e.
Proof. intros Hr. pose proof (plan_spec env x0 z0 s) as Hp. unfold wp in Hp. by rewrite Hr in Hp. Qed.

End PlanClaims.

(** C4.  [plan] allocates the nominal-cost arrays of the subgame bundle
    with the fixed shape 2×2, whatever the opinion-mode counts [nz1] and
    [nz2]: every bundle handed to the opinion-dynamics model in a completed
    call carries arrays of that shape.  Under the precondition [nz1 <= 2]
    and [nz2 <= 2] no write into a bundle array is out of bounds: whatever
    [plan] raises, it is not the [IndexError] of a bundle write. *)
Theorem plan_bundle_writes_in_bounds {T : Type} `{Scalar T} {W E U Solver : Type}
    (env : RHCPlanner.collaborators (T:=T) (W:=W) (E:=E) (U:=U) (Solver:=Solver))
    (x0 z0 : np.ndarray T) (s : RHCPlanner.state) :
  (RHCPlanner._num_opn_P1 env ≤ 2)%nat →
  (RHCPlanner._num_opn_P2 env ≤ 2)%nat →
  match (RHCPlanner.plan env x0 z0 s).2 with
  | RHCPlanner.Raise e => out_of_bounds_bundle_write e = false
  | RHCPlanner.Ok _ =>
      ∃ new,
        RHCPlanner.GiNOD_calls (RHCPlanner.plan env x0 z0 s).1
        = RHCPlanner.GiNOD_calls s ++ new
        ∧ ∀ c, c ∈ new →
            np.shape (RHCPlanner.nom_cost1_k (RHCPlanner.call_subgame c))
            = [2; 2]%nat
            ∧ np.shape (RHCPlanner.nom_cost2_k (RHCPlanner.call_subgame c))
              = [2; 2]%nat
  end.
Proof.
  intros Hnz1 Hnz2.
  destruct (RHCPlanner.plan env x0 z0 s).2 as [u|e] eqn:Hr.
  - apply plan_Ok in Hr as (nx & nz & xs & zs & Hs & PoI & _ & _ & _ & _ & _
                              & new & Hcalls & _ & Hfacts).
    exists new. split; [done|]. intros c [k Hk]%list_elem_of_lookup.
    destruct (Hfacts k c Hk) as (? & ? & _). done.
  - apply plan_Raise in Hr as [_ Hoob]. by apply Hoob.
Qed.

(** C5.  In a completed call of [plan], the bundle of step [k = 0] carries
    as opinion references the first [nz1] entries and the next [nz2]
    entries of [z0], and the bundle of every step [k > 0] carries the same
    slices of the previous opinion column [zs[:, k-1]]. *)
Theorem plan_opinion_references {T : Type} `{Scalar T} {W E U Solver : Type}
    (env : RHCPlanner.collaborators (T:=T) (W:=W) (E:=E) (U:=U) (Solver:=Solver))
    (x0 z0 : np.ndarray T) (s : RHCPlanner.state) :
  let s' := (RHCPlanner.plan env x0 z0 s).1 in
  let nz1 := RHCPlanner._num_opn_P1 env in
  let nz2 := RHCPlanner._num_opn_P2 env in
  (RHCPlanner.plan env x0 z0 s).2 = RHCPlanner.Ok tt →
  ∃ nz zs new,
    np.len z0 = inr nz
    ∧ RHCPlanner.zs (RHCPlanner.self s') = Some zs
    ∧ RHCPlanner.GiNOD_calls s' = RHCPlanner.GiNOD_calls s ++ new
    ∧ ∀ k, (k < RHCPlanner._N_sim (RHCPlanner.self s))%nat →
        ∃ c, new !! k = Some c
             ∧ let sg := RHCPlanner.call_subgame c in
               match k with
               | O =>
                   np.getitem z0 [np.Slice 0 nz1] = inr (RHCPlanner.znom1_k sg)
                   ∧ np.getitem z0 [np.Slice nz1 (nz1 + nz2)]
                     = inr (RHCPlanner.znom2_k sg)
               | S k' =>
                   slice_of_column zs nz 0 nz1 k' (RHCPlanner.znom1_k sg)
                   ∧ slice_of_column zs nz nz1 (nz1 + nz2) k'
                       (RHCPlanner.znom2_k sg)
               end.
Proof.
  intros s' nz1 nz2 Hr.
  apply plan_Ok in Hr as (nx & nz & xs & zs & Hs & PoI & _ & Hnz & Hself & _ & _
                            & new & Hcalls & Hlen & Hfacts).
  exists nz, zs, new. fold s' in Hself, Hcalls. rewrite Hself.
  do 3 (split; [done|]). intros k Hk.
  destruct (lookup_lt_is_Some_2 new k) as [c Hc]; [lia|].
  exists c. split; [done|].
  destruct (Hfacts k c Hc) as (_ & _ & Href & _). done.
Qed.

(** C6.  After a completed call of [plan(x0, z0)] with simulation length
    [N_sim], the planner holds the four result arrays: [xs] of shape
    [nx × (N_sim+1)], [zs] of shape [nz × (N_sim+1)], [Hs] of shape
    [(nz1+nz2) × (nz1+nz2) × N_sim] and [PoI] of shape [2 × N_sim]. *)
Theorem plan_result_shapes {T : Type} `{Scalar T} {W E U Solver : Type}
    (env : RHCPlanner.collaborators (T:=T) (W:=W) (E:=E) (U:=U) (Solver:=Solver))
    (x0 z0 : np.ndarray T) (s : RHCPlanner.state) :
  let s' := (RHCPlanner.plan env x0 z0 s).1 in
  let nz1 := RHCPlanner._num_opn_P1 env in
  let nz2 := RHCPlanner._num_opn_P2 env in
  let N_sim := RHCPlanner._N_sim (RHCPlanner.self s) in
  (RHCPlanner.plan env x0 z0 s).2 = RHCPlanner.Ok tt →
  ∃ nx nz xs zs Hs PoI,
    np.len x0 = inr nx ∧ np.len z0 = inr nz
    ∧ RHCPlanner.xs (RHCPlanner.self s') = Some xs
    ∧ RHCPlanner.zs (RHCPlanner.self s') = Some zs
    ∧ RHCPlanner.Hs (RHCPlanner.self s') = Some Hs
    ∧ RHCPlanner.PoI (RHCPlanner.self s') = Some PoI
    ∧ np.shape xs = [nx; (N_sim + 1)%nat]
    ∧ np.shape zs = [nz; (N_sim + 1)%nat]
    ∧ np.shape Hs = [(nz1 + nz2)%nat; (nz1 + nz2)%nat; N_sim]
    ∧ np.shape PoI = [2%nat; N_sim].
Proof.
  intros s' nz1 nz2 N_sim Hr.
  apply plan_Ok in Hr as (nx & nz & xs & zs & Hs & PoI & Hnx & Hnz & Hself
                            & (Hxs & Hzs & HHs & HPoI) & _).
  exists nx, nz, xs, zs, Hs, PoI. fold s' in Hself. rewrite Hself. done.
Qed.

(** C7.  In a completed call of [plan], at every step [k < N_sim] the
    opinion-dynamics model is invoked on the concatenation of [xs[:, k]]
    and [zs[:, k]] and on the bundle of step [k]; with [z_dot] the
    opinion derivative it returns and [T] the model's timestep, the next
    opinion column is [zs[:, k+1] = zs[:, k] + T * z_dot], entry by entry:
    with [z_dot] broadcast to the column as NumPy does, and hence with
    [z_dot] itself when it is a vector of the length of the column. *)
Theorem plan_euler_step {T : Type} `{Scalar T} {W E U Solver : Type}
    (env : RHCPlanner.collaborators (T:=T) (W:=W) (E:=E) (U:=U) (Solver:=Solver))
    (x0 z0 : np.ndarray T) (s : RHCPlanner.state) :
  let s' := (RHCPlanner.plan env x0 z0 s).1 in
  (RHCPlanner.plan env x0 z0 s).2 = RHCPlanner.Ok tt →
  ∃ nx nz xs zs new,
    np.len x0 = inr nx ∧ np.len z0 = inr nz
    ∧ RHCPlanner.xs (RHCPlanner.self s') = Some xs
    ∧ RHCPlanner.zs (RHCPlanner.self s') = Some zs
    ∧ RHCPlanner.GiNOD_calls s' = RHCPlanner.GiNOD_calls s ++ new
    ∧ ∀ k, (k < RHCPlanner._N_sim (RHCPlanner.self s))%nat →
        ∃ c, new !! k = Some c
             ∧ joint_state xs zs nx nz k (RHCPlanner.call_x_jnt c)
             ∧ (∃ w w',
                  RHCPlanner.cont_time_dyn env (RHCPlanner.call_x_jnt c)
                    (RHCPlanner.call_subgame c) w
                  = inr (w', (RHCPlanner.call_z_dot c, RHCPlanner.call_H c,
                              RHCPlanner.call_PoI1 c, RHCPlanner.call_PoI2 c)))
             ∧ (∀ i, (i < nz)%nat →
                  np.at_ zs [i; (k + 1)%nat]
                  = (np.at_ zs [i; k]
                     + RHCPlanner._T env
                       * np.at_ (np.broadcast_to (RHCPlanner.call_z_dot c) [nz])
                           [i])%S)
             ∧ (np.shape (RHCPlanner.call_z_dot c) = [nz] →
                ∀ i, (i < nz)%nat →
                  np.at_ zs [i; (k + 1)%nat]
                  = (np.at_ zs [i; k]
                     + RHCPlanner._T env * np.at_ (RHCPlanner.call_z_dot c) [i])%S).
Proof.
  intros s' Hr.
  apply plan_Ok in Hr as (nx & nz & xs & zs & Hs & PoI & Hnx & Hnz & Hself & _ & _
                            & new & Hcalls & Hlen & Hfacts).
  exists nx, nz, xs, zs, new. fold s' in Hself, Hcalls. rewrite Hself.
  do 5 (split; [done|]). intros k Hk.
  destruct (lookup_lt_is_Some_2 new k) as [c Hc]; [lia|].
  exists c. split; [done|].
  destruct (Hfacts k c Hc) as (_ & _ & _ & Hjnt & Hdyn & Heuler).
  do 3 (split; [done|]). intros Hsh i Hi.
  by rewrite Heuler, broadcast_to_vector.
Qed.

(** C8, as the code has it.  When the simulation length is at least one,
    [plan] with a method string other than ['QMDPL0'], ['QMDPL1'] and
    ['QMDPL1L0'] raises, and the planner object, with its result attributes
    [xs], [zs], [Hs], [PoI], is left as it was. *)
Theorem plan_unrecognised_method {T : Type} `{Scalar T} {W E U Solver : Type}
    (env : RHCPlanner.collaborators (T:=T) (W:=W) (E:=E) (U:=U) (Solver:=Solver))
    (x0 z0 : np.ndarray T) (s : RHCPlanner.state) :
  recognised_method (RHCPlanner._method (RHCPlanner.self s)) = false →
  (1 ≤ RHCPlanner._N_sim (RHCPlanner.self s))%nat →
  ∃ e, (RHCPlanner.plan env x0 z0 s).2 = RHCPlanner.Raise e
       ∧ RHCPlanner.self (RHCPlanner.plan env x0 z0 s).1 = RHCPlanner.self s.
Proof.
  intros Hmeth HN.
  destruct (RHCPlanner.plan env x0 z0 s).2 as [u|e] eqn:Hr.
  - apply plan_Ok in Hr as (nx & nz & xs & zs & Hs & PoI & _ & _ & _ & _ & Hrec & _).
    rewrite Hrec in Hmeth by lia. done.
  - exists e. split; [done|]. by apply plan_Raise in Hr as [? _].
Qed.

(** Against C8 as stated.  With a simulation length of zero the loop body,
    and with it the dispatch on the method, is never reached: [plan] with the method
    ['BOGUS'] returns and overwrites the result attributes. *)
Lemma plan_unrecognised_method_returns :
  let s := Stub.initial 1 1 0 "BOGUS" in
  let r := RHCPlanner.plan (Stub.env 1 1) Stub.x0 (Stub.z0 1 1) s in
  recognised_method (RHCPlanner._method (RHCPlanner.self s)) = false
  ∧ r.2 = RHCPlanner.Ok tt
  ∧ RHCPlanner.xs (RHCPlanner.self s) = None
  ∧ RHCPlanner.xs (RHCPlanner.self r.1) ≠ None.
Proof. vm_compute. repeat split; discriminate. Qed.

(** The precondition of C4 is needed.  With three opinion modes for player
    1 the write into the 2×2 array at [l1 = 2] raises. *)
Lemma plan_three_modes_out_of_bounds :
  (RHCPlanner.plan (Stub.env 3 1) Stub.x0 (Stub.z0 3 1)
     (Stub.initial 3 1 1 "QMDPL0")).2
  = RHCPlanner.Raise (RHCPlanner.IndexError "nom_cost1_k[l1, l2]").
Proof. vm_compute. reflexivity. Qed.

(** * Further properties of the cost classes *)

(** ** The penalty shapes, at the real numbers *)

Section PenaltyShapes.
Local Open Scope R_scope.

Lemma exp_ge_1 (t : R) : 0 <= t → 1 <= exp t.
Proof. intros Ht. pose proof (exp_ineq1_le t). lra. Qed.

Lemma exp_ge_2 (t : R) : 1 <= t → 2 <= exp t.
Proof. intros Ht. pose proof (exp_ineq1_le t). lra. Qed.

Lemma Rltb_true (a b : R) : Rltb a b = true ↔ a < b.
Proof. unfold Rltb. destruct (Rlt_dec a b); split; (done || lra). Qed.

Lemma Rltb_false (a b : R) : Rltb a b = false ↔ b <= a.
Proof. unfold Rltb. destruct (Rlt_dec a b); split; (done || lra). Qed.

Lemma Rleb_true (a b : R) : Rleb a b = true ↔ a <= b.
Proof. unfold Rleb. destruct (Rle_dec a b); split; (done || lra). Qed.

(** The clamped exponential of the proximity costs. *)
Lemma clamped_exp_far (dist max_distance : R) :
  max_distance <= dist → exp (Rmin (dist - max_distance) 0 ^ 2) = 1.
Proof.
  intros Hd. rewrite Rmin_right by lra.
  replace (0 ^ 2) with 0 by lra. apply exp_0.
Qed.

Lemma clamped_exp_near (dist max_distance : R) :
  dist < max_distance →
  exp (Rmin (dist - max_distance) 0 ^ 2) = exp ((max_distance - dist) ^ 2).
Proof. intros Hd. rewrite Rmin_left by lra. f_equal. lra. Qed.

Lemma clamped_exp_ge_1 (t : R) : 1 <= exp (t ^ 2).
Proof. apply exp_ge_1. nra. Qed.

End PenaltyShapes.

(** X1.  [ObstacleCost.get_cost] is the squared penetration depth: with
    [dist] the Euclidean distance of the position entries of [x] to the
    point, it returns [0] when [dist >= max_distance] and
    [(max_distance - dist)^2] when [dist < max_distance]. *)
Theorem obstacle_cost_shape (ix iy : Z) (px py max_distance : R)
    (b : Cost.Base) (x u : list R) (k : nat) :
  x ≠ [] →
  ∃ xv yv,
    jnp.get x ix = Some xv ∧ jnp.get x iy = Some yv
    ∧ let dist := sqrt ((xv - px) * (xv - px) + (yv - py) * (yv - py)) in
      ∃ v, Cost.get_cost (Cost.ObstacleCost (ix, iy) (px, py) max_distance b)
             x u k = Some v
           ∧ ((max_distance <= dist)%R → v = 0%R)
           ∧ ((dist < max_distance)%R → v = ((max_distance - dist) ^ 2)%R).
Proof.
  intros Hx.
  destruct (get_is_Some x ix Hx) as [xv Hxv], (get_is_Some x iy Hx) as [yv Hyv].
  exists xv, yv. do 2 (split; [done|]). intros dist.
  exists (Rmin (dist - max_distance) 0 ^ 2)%R.
  split; [unfold Cost.get_cost; rewrite Hxv, Hyv; reflexivity|].
  split; intros Hd.
  - rewrite Rmin_right by lra. lra.
  - rewrite Rmin_left by lra. lra.
Qed.

(** X2.  [ProximityCost.get_cost] is never below [1]: it returns exactly
    [1] when the distance to the point is at least [max_distance], and
    [exp((max_distance - dist)^2)] when it is smaller, which is at least
    [2] once the distance is below [max_distance] by [1] or more. *)
Theorem proximity_cost_shape (ix iy : Z) (px py max_distance : R)
    (b : Cost.Base) (x u : list R) (k : nat) :
  x ≠ [] →
  ∃ xv yv,
    jnp.get x ix = Some xv ∧ jnp.get x iy = Some yv
    ∧ let dist := sqrt ((xv - px) ^ 2 + (yv - py) ^ 2) in
      ∃ v, Cost.get_cost (Cost.ProximityCost (ix, iy) px py max_distance b)
             x u k = Some v
           ∧ (1 <= v)%R
           ∧ ((max_distance <= dist)%R → v = 1%R)
           ∧ ((dist < max_distance)%R → v = exp ((max_distance - dist) ^ 2))
           ∧ ((dist + 1 <= max_distance)%R → (2 <= v)%R).
Proof.
  intros Hx.
  destruct (get_is_Some x ix Hx) as [xv Hxv], (get_is_Some x iy Hx) as [yv Hyv].
  exists xv, yv. do 2 (split; [done|]). intros dist.
  exists (exp (Rmin (dist - max_distance) 0 ^ 2)).
  split; [unfold Cost.get_cost; rewrite Hxv, Hyv; reflexivity|].
  split; [apply clamped_exp_ge_1|]. split; [|split]; intros Hd.
  - by apply clamped_exp_far.
  - by apply clamped_exp_near.
  - rewrite clamped_exp_near by lra. apply exp_ge_2. nra.
Qed.

(** X3.  [ProductStateProximityCostTwoPlayer.get_cost] adds the same term
    twice: it is twice the capped proximity term of the two players'
    distance, it does not change when the two players are exchanged, it is
    never below [2], and it is exactly [2] when the players are at least
    [max_distance] apart. *)
Theorem product_state_proximity_cost_symmetric
    (p1 p2 : Z * Z) (rest : list (Z * Z)) (max_distance : R) (b : Cost.Base)
    (x u : list R) (k : nat) :
  x ≠ [] →
  ∃ x1 y1 x2 y2,
    jnp.get x p1.1 = Some x1 ∧ jnp.get x p1.2 = Some y1
    ∧ jnp.get x p2.1 = Some x2 ∧ jnp.get x p2.2 = Some y2
    ∧ let dist := sqrt ((x1 - x2) ^ 2 + (y1 - y2) ^ 2) in
      let term := Rmin (exp (Rmin (dist - max_distance) 0 ^ 2)) 100000 in
      Cost.get_cost
        (Cost.ProductStateProximityCostTwoPlayer (p1 :: p2 :: rest)
           max_distance b) x u k
      = Some (2 * term)%R
      ∧ Cost.get_cost
          (Cost.ProductStateProximityCostTwoPlayer (p2 :: p1 :: rest)
             max_distance b) x u k
        = Some (2 * term)%R
      ∧ (2 <= 2 * term)%R
      ∧ ((max_distance <= dist)%R → (2 * term)%R = 2%R).
Proof.
  intros Hx. destruct p1 as [i1 j1], p2 as [i2 j2].
  destruct (get_is_Some x i1 Hx) as [x1 Hx1], (get_is_Some x j1 Hx) as [y1 Hy1],
    (get_is_Some x i2 Hx) as [x2 Hx2], (get_is_Some x j2 Hx) as [y2 Hy2].
  exists x1, y1, x2, y2. do 4 (split; [done|]). intros dist term.
  assert (sqrt ((x2 - x1) ^ 2 + (y2 - y1) ^ 2) = dist) as Hsym.
  { unfold dist. f_equal. lra. }
  assert (1 <= term)%R as Hterm.
  { unfold term. apply Rmin_glb; [apply clamped_exp_ge_1|lra]. }
  assert (sqrt ((x1 - x2) ^ 2 + (y1 - y2) ^ 2) = dist) as Hdist by done.
  repeat split.
  - etrans; [unfold Cost.get_cost; cbn [lookup list_lookup mbind option_bind];
             rewrite Hx1, Hx2, Hy1, Hy2;
             exact (eq_refl (Some (0 + Rmin (exp (Rmin (sqrt ((x1 - x2) ^ 2 + (y1 - y2) ^ 2) - max_distance) 0 ^ 2)) 100000
                                   + Rmin (exp (Rmin (sqrt ((x2 - x1) ^ 2 + (y2 - y1) ^ 2) - max_distance) 0 ^ 2)) 100000)%R))|].
    rewrite Hsym, Hdist. fold term. f_equal. lra.
  - etrans; [unfold Cost.get_cost; cbn [lookup list_lookup mbind option_bind];
             rewrite Hx1, Hx2, Hy1, Hy2;
             exact (eq_refl (Some (0 + Rmin (exp (Rmin (sqrt ((x2 - x1) ^ 2 + (y2 - y1) ^ 2) - max_distance) 0 ^ 2)) 100000
                                   + Rmin (exp (Rmin (sqrt ((x1 - x2) ^ 2 + (y1 - y2) ^ 2) - max_distance) 0 ^ 2)) 100000)%R))|].
    rewrite Hsym, Hdist. fold term. f_equal. lra.
  - lra.
  - intros Hd. unfold term. rewrite (clamped_exp_far dist max_distance Hd).
    rewrite Rmin_left by lra. lra.
Qed.

(** X4.  [SemiquadraticCost.get_cost] jumps at the threshold: on the
    inactive side, the threshold included, it is [0]; on the active side
    (above the threshold when [oriented_right], below it otherwise) it is
    [exp((value - threshold)^2)], which is at least [1], and at least [2]
    once the value is past the threshold by [1] or more. *)
Theorem semiquadratic_cost_shape (d : Z) (threshold : R)
    (oriented_right is_x : bool) (b : Cost.Base) (x u : list R) (k : nat) :
  (if is_x then x else u) ≠ [] →
  ∃ zv v,
    jnp.get (if is_x then x else u) d = Some zv
    ∧ Cost.get_cost (Cost.SemiquadraticCost d threshold oriented_right is_x b)
        x u k = Some v
    ∧ let active := if oriented_right then (threshold < zv)%R
                    else (zv < threshold)%R in
      let past := if oriented_right then (threshold + 1 <= zv)%R
                  else (zv <= threshold - 1)%R in
      (active → v = exp ((zv - threshold) ^ 2) ∧ (1 <= v)%R)
      ∧ (past → (2 <= v)%R)
      ∧ (¬ active → v = 0%R).
Proof.
  intros Hz. destruct (get_is_Some _ d Hz) as [zv Hzv].
  exists zv.
  exists (if (if oriented_right then Rltb threshold zv else Rltb zv threshold)
          then exp ((zv - threshold) ^ 2) else 0%R).
  split; [done|].
  split; [unfold Cost.get_cost; rewrite Hzv; by destruct oriented_right|].
  destruct oriented_right; (split; [|split]); intros Ha.
  - rewrite (proj2 (Rltb_true _ _) Ha). split; [done|]. apply clamped_exp_ge_1.
  - assert (Rltb threshold zv = true) as -> by (apply Rltb_true; lra).
    apply exp_ge_2. nra.
  - assert (Rltb threshold zv = false) as -> by (apply Rltb_false; lra). done.
  - rewrite (proj2 (Rltb_true _ _) Ha). split; [done|]. apply clamped_exp_ge_1.
  - assert (Rltb zv threshold = true) as -> by (apply Rltb_true; lra).
    apply exp_ge_2. nra.
  - assert (Rltb zv threshold = false) as -> by (apply Rltb_false; lra). done.
Qed.

(** X5.  [MaxVelCostPxDependent.get_cost] is [0] unless the velocity is
    above [max_v] and the position lies strictly between [px_lb] and
    [px_ub]; then it is [min(exp((v - max_v)^2), 1e3)], which lies between
    [1] and [1000], and is at least [2] once the velocity is above [max_v]
    by [1] or more. *)
Theorem max_vel_cost_shape (v_index px_index : Z) (max_v px_lb px_ub : R)
    (b : Cost.Base) (x u : list R) (k : nat) :
  x ≠ [] →
  ∃ px v c,
    jnp.get x px_index = Some px ∧ jnp.get x v_index = Some v
    ∧ Cost.get_cost
        (Cost.MaxVelCostPxDependent v_index px_index max_v px_lb px_ub b)
        x u k = Some c
    ∧ let active := (max_v < v)%R ∧ (px_lb < px)%R ∧ (px < px_ub)%R in
      (active → c = Rmin (exp ((v - max_v) ^ 2)) 1000 ∧ (1 <= c <= 1000)%R)
      ∧ (active → (max_v + 1 <= v)%R → (2 <= c)%R)
      ∧ (¬ active → c = 0%R).
Proof.
  intros Hx.
  destruct (get_is_Some x px_index Hx) as [px Hpx],
    (get_is_Some x v_index Hx) as [v Hv].
  exists px, v.
  exists (if Rltb max_v v && Rltb px_lb px && Rltb px px_ub
          then Rmin (exp ((v - max_v) ^ 2)) 1000 else 0%R).
  do 2 (split; [done|]).
  split; [unfold Cost.get_cost; rewrite Hpx, Hv; reflexivity|].
  split; [|split].
  - intros (H1 & H2 & H3).
    rewrite (proj2 (Rltb_true _ _) H1), (proj2 (Rltb_true _ _) H2),
      (proj2 (Rltb_true _ _) H3). cbn [andb]. split; [done|].
    split; [|apply Rmin_r].
    apply Rmin_glb; [apply clamped_exp_ge_1|lra].
  - intros (H1 & H2 & H3) Hv1.
    rewrite (proj2 (Rltb_true _ _) H1), (proj2 (Rltb_true _ _) H2),
      (proj2 (Rltb_true _ _) H3). cbn [andb].
    apply Rmin_glb; [apply exp_ge_2; nra|lra].
  - intros Hn.
    destruct (Rltb max_v v) eqn:E1; [|done].
    destruct (Rltb px_lb px) eqn:E2; [|done].
    destruct (Rltb px px_ub) eqn:E3; [|done].
    apply Rltb_true in E1, E2, E3. tauto.
Qed.

(** X6.  Every cost class except the box input barrier returns a
    non-negative value. *)
Theorem get_cost_nonnegative (c : Cost.t R) (x u : list R) (k : nat) (v : R) :
  Cost.get_cost c x u k = Some v →
  match c with
  | Cost.BoxInputConstraintCost _ _ _ _ _ _ => True
  | _ => (0 <= v)%R
  end.
Proof.
  assert (∀ t : R, 0 <= t ^ 2)%R as Hsq by (intros; nra).
  assert (∀ t : R, 0 <= exp t)%R as Hexp by (intros; left; apply exp_pos).
  assert (∀ t : R, 0 <= Rmin (exp t) 100000)%R as Hcap5
    by (intros; apply Rmin_glb; [auto|lra]).
  assert (∀ t : R, 0 <= Rmin (exp t) 1000)%R as Hcap3
    by (intros; apply Rmin_glb; [auto|lra]).
  unfold Cost.get_cost.
  destruct c as [[ix iy] [px py] md b|pi md b|[ix iy] px py md b|d o is_x b
                |r d is_x b|r lb pd d b|d th o_r is_x b|vi pxi mv lb ub b
                |ui lo hi q1 q2 b]; [| | | | | | | |done].
  - destruct (jnp.get x ix); [|done]. destruct (jnp.get x iy); [|done].
    intros [= <-]. apply Hsq.
  - destruct pi as [|[i1 j1] [|[i2 j2] rest]]; [done|done|].
    cbn [lookup list_lookup mbind option_bind].
    destruct (jnp.get x i1); [|done]. destruct (jnp.get x i2); [|done].
    destruct (jnp.get x j1); [|done]. destruct (jnp.get x j2); [|done].
    intros [= <-].
    apply Rplus_le_le_0_compat; [apply Rplus_le_le_0_compat|];
      [apply Rle_refl|apply Hcap5|apply Hcap5].
  - destruct (jnp.get x ix); [|done]. destruct (jnp.get x iy); [|done].
    intros [= <-]. apply Hexp.
  - destruct is_x; [destruct (jnp.get x d)|destruct (jnp.get u d)];
      (done || (intros [= <-]; apply Hsq)).
  - destruct is_x; [destruct (jnp.get x d)|destruct (jnp.get u d)];
      (done || (intros [= <-]; apply Hsq)).
  - destruct (jnp.get x pd); [|done]. destruct (jnp.get x d); [|done].
    intros [= <-].
    match goal with |- context [if ?c then _ else _] => destruct c end;
      [apply Hsq|apply Rle_refl].
  - destruct (jnp.get (if is_x then x else u) d); [|done].
    cbn [mbind option_bind].
    destruct o_r; intros [= <-];
      match goal with |- context [if ?c then _ else _] => destruct c end;
      (apply Hexp || apply Rle_refl).
  - destruct (jnp.get x pxi); [|done]. destruct (jnp.get x vi); [|done].
    intros [= <-].
    match goal with |- context [if ?c then _ else _] => destruct c end;
      [apply Hcap3|apply Rle_refl].
Qed.

(** ** Derivatives in closed form *)

(** X7.  For a [QuadraticCost] on a valid dimension [d] of the control
    with [is_x = False], the roles of state and control are exchanged:
    [get_grad] returns a zero state gradient and the control gradient
    [2*(u[d]-o)] at index [d], zero elsewhere; [get_hess] returns a zero
    state Hessian and the control Hessian [2] at entry [d, d], zero
    elsewhere. *)
Theorem quadratic_cost_control_grad_hess (d : Z) (o : R) (b : Cost.Base)
    (x u : list R) (k : nat) :
  (- Z.of_nat (length u) ≤ d < Z.of_nat (length u))%Z →
  let i := Z.to_nat (d `mod` Z.of_nat (length u)) in
  let n := length x in
  let m := length u in
  Cost.get_grad (Cost.QuadraticCost d o false b) x u k
  = Some (replicate n 0%R,
          (λ j, if decide (j = i) then 2 * (default 0 (u !! i) - o) else 0)%R
            <$> seq 0 m)
  ∧ Cost.get_hess (Cost.QuadraticCost d o false b) x u k
    = Some (replicate n (replicate n 0%R),
            (λ r, (λ c, if decide (r = i ∧ c = i) then 2 else 0)%R <$> seq 0 m)
              <$> seq 0 m).
Proof.
  intros Hd i n m. pose proof (norm_index_mod _ _ Hd) as Hi. fold i in Hi.
  split.
  - unfold Cost.get_grad.
    erewrite jacfwd_table; cycle 1.
    + cbn. rewrite (get_no_tangent u i d Hi). cbn. reflexivity.
    + intros j. cbn. rewrite (get_no_tangent u i d Hi). cbn. reflexivity.
    + intros j. cbn. rewrite (get_with_tangent u j i d Hi). cbn. reflexivity.
    + f_equal. f_equal.
      * rewrite (fmap_const_replicate 0%R); [by rewrite length_seq|].
        intros j. real_arith.
      * apply list_fmap_ext. intros _ j _. cbn.
        destruct (decide (j = i)) as [->|Hne].
        -- rewrite decide_True by done. real_arith.
        -- rewrite decide_False by done. real_arith.
  - unfold Cost.get_hess.
    erewrite hessian0_table; cycle 1.
    + cbn. rewrite (get_no_tangent2 u i d Hi). cbn. reflexivity.
    + intros r c. cbn. rewrite (get_no_tangent2 u i d Hi). cbn. reflexivity.
    + erewrite hessian1_table; cycle 1.
      * cbn. rewrite (get_no_tangent2 u i d Hi). cbn. reflexivity.
      * intros r c. cbn. rewrite (get_with_tangent2 u r c i d Hi). cbn.
        reflexivity.
      * cbn. f_equal. f_equal.
        -- rewrite (fmap_const_replicate (replicate n 0%R));
             [by rewrite length_seq|].
           intros r. rewrite (fmap_const_replicate 0%R); [by rewrite length_seq|].
           intros c. real_arith.
        -- apply list_fmap_ext. intros _ r _. cbn.
           apply list_fmap_ext. intros _ c _. cbn.
           destruct (decide (i = r)) as [<-|Hr], (decide (i = c)) as [<-|Hc].
           ++ rewrite decide_True by done. real_arith.
           ++ rewrite decide_False by (intros []; congruence). real_arith.
           ++ rewrite decide_False by (intros []; congruence). real_arith.
           ++ rewrite decide_False by (intros []; congruence). real_arith.
Qed.

(** X8.  The derivatives of [BoxInputConstraintCost] on a valid control
    index [i]: the state gradient and Hessian are zero; the control
    gradient is [q1*q2*(exp(q2*(u[i]-max)) - exp(q2*(min-u[i])))] at index
    [i] and zero elsewhere, so it vanishes at the centre of the box; the
    control Hessian is [q1*q2^2*(exp(q2*(u[i]-max)) + exp(q2*(min-u[i])))]
    at entry [i, i] and zero elsewhere, which for [q1 > 0] and [q2 > 0] is
    never negative, and at least [q1*q2^2] at and beyond either bound: the
    barrier is convex in the constrained control. *)
Theorem box_input_constraint_grad_hess (u_index : Z) (lo hi q1 q2 : R)
    (b : Cost.Base) (x u : list R) (k : nat) :
  (- Z.of_nat (length u) ≤ u_index < Z.of_nat (length u))%Z →
  let i := Z.to_nat (u_index `mod` Z.of_nat (length u)) in
  let c := default 0%R (u !! i) in
  let n := length x in
  let m := length u in
  let g := (q1 * q2 * (exp (q2 * (c - hi)) - exp (q2 * (lo - c))))%R in
  let h := (q1 * q2 ^ 2 * (exp (q2 * (c - hi)) + exp (q2 * (lo - c))))%R in
  Cost.get_grad (Cost.BoxInputConstraintCost u_index lo hi q1 q2 b) x u k
  = Some (replicate n 0%R,
          (λ j, if decide (j = i) then g else 0%R) <$> seq 0 m)
  ∧ Cost.get_hess (Cost.BoxInputConstraintCost u_index lo hi q1 q2 b) x u k
    = Some (replicate n (replicate n 0%R),
            (λ r, (λ s, if decide (r = i ∧ s = i) then h else 0%R) <$> seq 0 m)
              <$> seq 0 m)
  ∧ (c = ((lo + hi) / 2)%R → g = 0%R)
  ∧ ((0 < q1)%R → (0 < q2)%R →
       (0 <= h)%R ∧ ((hi <= c)%R ∨ (c <= lo)%R → (q1 * q2 ^ 2 <= h)%R)).
Proof.
  intros Hd i c n m g h. pose proof (norm_index_mod _ _ Hd) as Hi. fold i in Hi.
  split; [|split; [|split]].
  - unfold Cost.get_grad.
    erewrite jacfwd_table; cycle 1.
    + cbn. rewrite (get_no_tangent u i u_index Hi). cbn. reflexivity.
    + intros j. cbn. rewrite (get_no_tangent u i u_index Hi). cbn. reflexivity.
    + intros j. cbn. rewrite (get_with_tangent u j i u_index Hi). cbn.
      reflexivity.
    + f_equal. f_equal.
      * rewrite (fmap_const_replicate 0%R); [by rewrite length_seq|].
        intros j. cbn. ring.
      * apply list_fmap_ext. intros _ j _. cbn. fold c. unfold g.
        destruct (decide (j = i)) as [->|Hne].
        -- rewrite decide_True by done. ring.
        -- rewrite decide_False by done. ring.
  - unfold Cost.get_hess.
    erewrite hessian0_table; cycle 1.
    + cbn. rewrite (get_no_tangent2 u i u_index Hi). cbn. reflexivity.
    + intros r s. cbn. rewrite (get_no_tangent2 u i u_index Hi). cbn.
      reflexivity.
    + erewrite hessian1_table; cycle 1.
      * cbn. rewrite (get_no_tangent2 u i u_index Hi). cbn. reflexivity.
      * intros r s. cbn. rewrite (get_with_tangent2 u r s i u_index Hi). cbn.
        reflexivity.
      * cbn. f_equal. f_equal.
        -- rewrite (fmap_const_replicate (replicate n 0%R));
             [by rewrite length_seq|].
           intros r. rewrite (fmap_const_replicate 0%R); [by rewrite length_seq|].
           intros s. cbn. ring.
        -- apply list_fmap_ext. intros _ r _. cbn.
           apply list_fmap_ext. intros _ s _. cbn. fold c. unfold h.
           destruct (decide (i = r)) as [<-|Hr], (decide (i = s)) as [<-|Hs].
           ++ rewrite decide_True by done. ring.
           ++ rewrite decide_False by (intros []; congruence). ring.
           ++ rewrite decide_False by (intros []; congruence). ring.
           ++ rewrite decide_False by (intros []; congruence). ring.
  - intros Hc. unfold g.
    replace (q2 * (c - hi))%R with (q2 * (lo - c))%R by (rewrite Hc; field).
    ring.
  - intros Hq1 Hq2. unfold h.
    pose proof (exp_pos (q2 * (c - hi))). pose proof (exp_pos (q2 * (lo - c))).
    assert (0 < q1 * q2 ^ 2)%R by (apply Rmult_lt_0_compat; [done|nra]).
    split; [nra|]. intros [Hc|Hc].
    + assert (1 <= exp (q2 * (c - hi)))%R by (apply exp_ge_1; nra). nra.
    + assert (1 <= exp (q2 * (lo - c)))%R by (apply exp_ge_1; nra). nra.
Qed.

(** ** Gradients and Hessians along a trajectory *)

Section SliceUpdates.
Context {T : Type} `{Scalar T}.

Lemma broadcast_to_same {A} (n : nat) (v : list A) :
  length v = n → jnp.broadcast_to n v = Some v.
Proof. intros Hv. unfold jnp.broadcast_to. by rewrite decide_True. Qed.

Lemma broadcast_to_mismatch {A} (n : nat) (v : list A) :
  length v ≠ n → length v ≠ 1%nat → jnp.broadcast_to n v = None.
Proof.
  intros Hn H1. unfold jnp.broadcast_to. rewrite decide_False by done.
  by destruct v as [|? [|]].
Qed.

Lemma column_length (a : list (list T)) (k : nat) :
  length (column a k) = length a.
Proof. unfold column. by rewrite length_fmap. Qed.

Lemma column_set_eq (k : nat) (a : list (list T)) (v : list T) :
  length a = length v → Forall (λ row, (k < length row)%nat) a →
  column (zip_with (λ row vi, <[k := vi]> row) a v) k = v.
Proof.
  unfold column. revert v.
  induction a as [|row a IH]; intros [|vi v]; cbn; try done.
  intros [= Hlen] Hrows. inversion_clear Hrows as [|? ? Hrow Hrest].
  rewrite list_lookup_insert_eq by done. cbn. f_equal. by apply IH.
Qed.

Lemma column_set_ne (j k : nat) (a : list (list T)) (v : list T) :
  j ≠ k → length a = length v →
  column (zip_with (λ row vi, <[k := vi]> row) a v) j = column a j.
Proof.
  intros Hjk. unfold column. revert v.
  induction a as [|row a IH]; intros [|vi v]; cbn; try done.
  intros [= Hlen].
  rewrite list_lookup_insert_ne by done. f_equal. by apply IH.
Qed.

Lemma set_col_shape (n m k : nat) (a : list (list T)) (v : list T) :
  has_shape2 n m a → length v = n →
  has_shape2 n m (zip_with (λ row vi, <[k := vi]> row) a v).
Proof.
  intros [Hn Hm] Hv. split.
  - rewrite length_zip_with_l_eq; [done|]. by rewrite Hn, Hv.
  - clear Hn Hv. revert v.
    induction Hm as [|row a Hrow _ IH]; intros [|vi v]; cbn;
      constructor; [by rewrite length_insert|apply IH].
Qed.

Lemma shape_zeros2 (n m : nat) : has_shape2 n m (jnp.zeros2 (T:=T) n m).
Proof.
  split; [apply length_replicate|].
  apply Forall_replicate, length_replicate.
Qed.

Lemma shape_zeros3 (n m p : nat) : has_shape3 n m p (jnp.zeros3 (T:=T) n m p).
Proof.
  split; [apply length_replicate|].
  apply Forall_replicate, shape_zeros2.
Qed.

Lemma shape2_lt (n m k : nat) (a : list (list T)) :
  has_shape2 n m a → (k < m)%nat → Forall (λ row, (k < length row)%nat) a.
Proof. intros [_ Hm] Hk. eapply Forall_impl; [done|]. cbn. lia. Qed.

Lemma slab_set_eq (n N k : nat) (a : list (list (list T)))
    (v : list (list T)) :
  has_shape3 n n N a → has_shape2 n n v → (k < N)%nat →
  slab (zip_with (λ plane vrow,
                    zip_with (λ fibre vij, <[k := vij]> fibre) plane vrow)
                 a v) k = v.
Proof.
  intros [Hn Hplanes] [Hvn Hrows] Hk. unfold slab.
  assert (length a = length v) as Hlen by lia. clear Hn Hvn.
  revert v Hlen Hrows.
  induction Hplanes as [|plane a Hplane _ IH]; intros [|vrow v]; cbn;
    try done.
  intros [= Hlen] Hrows. inversion_clear Hrows as [|? ? Hrow Hrest].
  f_equal; [|by apply IH].
  apply column_set_eq; [destruct Hplane; lia|by eapply shape2_lt].
Qed.

Lemma slab_set_ne (n N j k : nat) (a : list (list (list T)))
    (v : list (list T)) :
  has_shape3 n n N a → has_shape2 n n v → j ≠ k →
  slab (zip_with (λ plane vrow,
                    zip_with (λ fibre vij, <[k := vij]> fibre) plane vrow)
                 a v) j = slab a j.
Proof.
  intros [Hn Hplanes] [Hvn Hrows] Hjk. unfold slab.
  assert (length a = length v) as Hlen by lia. clear Hn Hvn.
  revert v Hlen Hrows.
  induction Hplanes as [|plane a Hplane _ IH]; intros [|vrow v]; cbn;
    try done.
  intros [= Hlen] Hrows. inversion_clear Hrows as [|? ? Hrow Hrest].
  f_equal; [|by apply IH].
  apply column_set_ne; [done|destruct Hplane; lia].
Qed.

Lemma set_slab_shape (n N k : nat) (a : list (list (list T)))
    (v : list (list T)) :
  has_shape3 n n N a → has_shape2 n n v →
  has_shape3 n n N
    (zip_with (λ plane vrow,
                 zip_with (λ fibre vij, <[k := vij]> fibre) plane vrow) a v).
Proof.
  intros [Hn Hplanes] [Hvn Hrows]. split.
  - rewrite length_zip_with_l_eq; [done|]. by rewrite Hn, Hvn.
  - clear Hn Hvn. revert v Hrows.
    induction Hplanes as [|plane a Hplane _ IH]; intros [|vrow v] Hrows; cbn;
      constructor; inversion_clear Hrows as [|? ? Hrow Hrest].
    + by apply set_col_shape.
    + by apply IH.
Qed.

Lemma set_col_same (n m k : nat) (a : list (list T)) (v : list T) :
  (0 < m)%nat → length v = n →
  jnp.set_col n m a k v = Some (zip_with (λ row vi, <[k := vi]> row) a v).
Proof.
  intros Hm Hv. unfold jnp.set_col. rewrite decide_False by lia.
  by rewrite broadcast_to_same.
Qed.

Lemma set_slab_same (n m k : nat) (a : list (list (list T)))
    (v : list (list T)) :
  (0 < m)%nat → has_shape2 n n v →
  jnp.set_slab n m a k v
  = Some (zip_with (λ plane vrow,
                      zip_with (λ fibre vij, <[k := vij]> fibre) plane vrow)
                   a v).
Proof.
  intros Hm [Hn Hrows]. unfold jnp.set_slab. rewrite decide_False by lia.
  assert (mapM (jnp.broadcast_to n) v = Some v) as ->.
  { apply mapM_Some_2. clear Hn.
    induction Hrows; constructor; [by apply broadcast_to_same|done]. }
  cbn. by rewrite broadcast_to_same.
Qed.

Lemma col_length (a : list (list T)) (k : nat) (v : list T) :
  jnp.col a k = Some v → length v = length a.
Proof. unfold jnp.col. intros Hv. symmetry. by eapply length_mapM. Qed.

End SliceUpdates.

Section TrajDerivatives.
Context {T : Type} `{Scalar T}.

Lemma get_grad_length (c : Cost.t T) (x ui : list T) (k : nat)
    (gx gu : list T) :
  Cost.get_grad c x ui k = Some (gx, gu) →
  length gx = length x ∧ length gu = length ui.
Proof.
  unfold Cost.get_grad, jnp.jacfwd.
  destruct (Cost.get_cost _ _ _ _); [|done]. cbn.
  destruct (mapM _ (seq 0 (length x))) as [a|] eqn:Ea; [|done]. cbn.
  destruct (mapM _ (seq 0 (length ui))) as [b|] eqn:Eb; [|done]. cbn.
  intros [= <- <-].
  apply length_mapM in Ea, Eb. rewrite length_seq in Ea, Eb. done.
Qed.

Lemma hessian_shape {A} (f : nat → nat → option A) (n : nat)
    (h : list (list A)) :
  mapM (λ i, mapM (λ j, f i j) (seq 0 n)) (seq 0 n) = Some h →
  length h = n ∧ Forall (λ row, length row = n) h.
Proof.
  intros Hh. split.
  { apply length_mapM in Hh. by rewrite length_seq in Hh. }
  apply mapM_Some_1 in Hh.
  induction Hh as [|i row l h Hrow _ IH]; constructor; [|done].
  apply length_mapM in Hrow. by rewrite length_seq in Hrow.
Qed.

Lemma get_hess_shape (c : Cost.t T) (x ui : list T) (k : nat)
    (Hxx Huu : list (list T)) :
  Cost.get_hess c x ui k = Some (Hxx, Huu) →
  has_shape2 (length x) (length x) Hxx
  ∧ has_shape2 (length ui) (length ui) Huu.
Proof.
  unfold Cost.get_hess, jnp.hessian0, jnp.hessian1.
  destruct (Cost.get_cost _ _ _ _); [|done]. cbn.
  destruct (mapM _ (seq 0 (length x))) as [a|] eqn:Ea; [|done]. cbn.
  destruct (mapM _ (seq 0 (length ui))) as [b|] eqn:Eb; [|done]. cbn.
  intros [= <- <-]. split.
  - exact (hessian_shape _ _ _ Ea).
  - exact (hessian_shape _ _ _ Eb).
Qed.

Section Loops.
Variables (c : Cost.t T) (x ui : list (list T)) (N : nat).
Hypothesis HN : Cost._horizon (Cost.base c) = N.
Hypothesis Hx : has_shape2 (Cost._x_dim (Cost.base c)) N x.
Hypothesis Hu : has_shape2 (Cost._ui_dim (Cost.base c)) N ui.

Lemma get_traj_grad_looper_eq (k : nat) (lxs lus : list (list T)) :
  (k < N)%nat →
  Cost.get_traj_grad_looper c x ui k (lxs, lus)
  = g ← Cost.get_grad c (column x k) (column ui k) k;
    Some (zip_with (λ row vi, <[k := vi]> row) lxs g.1,
          zip_with (λ row vi, <[k := vi]> row) lus g.2).
Proof using Type*.
  intros Hk. destruct Hx as [Hxn HxN], Hu as [Hun HuN].
  unfold Cost.get_traj_grad_looper.
  rewrite (col_column x N k), (col_column ui N k) by done. cbn [mbind option_bind fst snd].
  destruct (Cost.get_grad c (column x k) (column ui k) k) as [[gx gu]|] eqn:Eg; [|done]. cbn [mbind option_bind fst snd].
  apply get_grad_length in Eg as [Hgx Hgu].
  rewrite column_length in Hgx, Hgu.
  rewrite HN, set_col_same by lia. cbn [mbind option_bind fst snd].
  by rewrite set_col_same by lia.
Qed.

Lemma get_traj_hess_looper_eq (k : nat) (Hxxs Huus : list (list (list T))) :
  (k < N)%nat →
  Cost.get_traj_hess_looper c x ui k (Hxxs, Huus)
  = h ← Cost.get_hess c (column x k) (column ui k) k;
    Some (zip_with (λ plane vrow,
                      zip_with (λ fibre vij, <[k := vij]> fibre) plane vrow)
                   Hxxs h.1,
          zip_with (λ plane vrow,
                      zip_with (λ fibre vij, <[k := vij]> fibre) plane vrow)
                   Huus h.2).
Proof using Type*.
  intros Hk. destruct Hx as [Hxn HxN], Hu as [Hun HuN].
  unfold Cost.get_traj_hess_looper.
  rewrite (col_column x N k), (col_column ui N k) by done. cbn [mbind option_bind fst snd].
  destruct (Cost.get_hess c (column x k) (column ui k) k) as [[hx hu]|] eqn:Eh; [|done]. cbn [mbind option_bind fst snd].
  apply get_hess_shape in Eh as [Hhx Hhu].
  rewrite column_length in Hhx, Hhu.
  rewrite Hxn in Hhx. rewrite Hun in Hhu.
  rewrite HN, set_slab_same by (done || lia).
  cbn [mbind option_bind fst snd].
  by rewrite set_slab_same by (done || lia).
Qed.

(** The loop from [i] for [n] rounds completes exactly when every
    gradient does; it leaves the columns before [i] alone and stores the
    gradients in the columns [i .. i+n-1]. *)
Lemma fori_loop_traj_grad (n : nat) :
  ∀ i lxs lus, (i + n ≤ N)%nat →
    has_shape2 (Cost._x_dim (Cost.base c)) N lxs →
    has_shape2 (Cost._ui_dim (Cost.base c)) N lus →
    ((∀ k, (i ≤ k < i + n)%nat →
        is_Some (Cost.get_grad c (column x k) (column ui k) k)) →
     is_Some (jnp.fori_loop_from i n (Cost.get_traj_grad_looper c x ui)
                (lxs, lus)))
    ∧ ∀ lxs' lus',
        jnp.fori_loop_from i n (Cost.get_traj_grad_looper c x ui) (lxs, lus)
        = Some (lxs', lus') →
        has_shape2 (Cost._x_dim (Cost.base c)) N lxs'
        ∧ has_shape2 (Cost._ui_dim (Cost.base c)) N lus'
        ∧ (∀ k, (k < i)%nat →
             column lxs' k = column lxs k ∧ column lus' k = column lus k)
        ∧ (∀ k, (i ≤ k < i + n)%nat →
             Cost.get_grad c (column x k) (column ui k) k
             = Some (column lxs' k, column lus' k)).
Proof using Type*.
  induction n as [|n IH]; intros i lxs lus Hi Hlxs Hlus.
  { cbn. split; [by eauto|]. intros ? ? [= <- <-].
    do 3 (split; [done|]). intros k Hk. lia. }
  cbn [jnp.fori_loop_from].
  rewrite get_traj_grad_looper_eq by lia.
  destruct (Cost.get_grad c (column x i) (column ui i) i)
    as [[gx gu]|] eqn:Eg; cbn [mbind option_bind fst snd].
  2:{ split; [|done]. intros Hall.
      destruct (Hall i) as [? Hsome]; [lia|]. by rewrite Eg in Hsome. }
  pose proof (get_grad_length _ _ _ _ _ _ Eg) as [Hgx Hgu].
  rewrite column_length in Hgx, Hgu.
  destruct Hx as [Hxn _], Hu as [Hun _].
  assert (length gx = Cost._x_dim (Cost.base c)) as Hgx' by lia.
  assert (length gu = Cost._ui_dim (Cost.base c)) as Hgu' by lia.
  destruct (IH (S i) _ _ ltac:(lia)
              (set_col_shape _ _ i _ _ Hlxs Hgx')
              (set_col_shape _ _ i _ _ Hlus Hgu')) as [IHa IHb].
  split.
  { intros Hall. apply IHa. intros k Hk. apply Hall. lia. }
  intros lxs' lus' Hloop.
  destruct (IHb _ _ Hloop) as (Hs1 & Hs2 & Hbefore & Hcols).
  split; [done|]. split; [done|]. split.
  - intros k Hk. destruct (Hbefore k) as [-> ->]; [lia|].
    rewrite !column_set_ne by (lia || (destruct Hlxs, Hlus; lia)). done.
  - intros k Hk. destruct (decide (k = i)) as [->|Hne].
    + destruct (Hbefore i) as [-> ->]; [lia|].
      rewrite !column_set_eq; [done|destruct Hlus; lia| |destruct Hlxs; lia|].
      * eapply shape2_lt; [done|lia].
      * eapply shape2_lt; [done|lia].
    + apply Hcols. lia.
Qed.

Lemma fori_loop_traj_hess (n : nat) :
  ∀ i Hxxs Huus, (i + n ≤ N)%nat →
    has_shape3 (Cost._x_dim (Cost.base c)) (Cost._x_dim (Cost.base c)) N Hxxs →
    has_shape3 (Cost._ui_dim (Cost.base c)) (Cost._ui_dim (Cost.base c)) N Huus →
    ((∀ k, (i ≤ k < i + n)%nat →
        is_Some (Cost.get_hess c (column x k) (column ui k) k)) →
     is_Some (jnp.fori_loop_from i n (Cost.get_traj_hess_looper c x ui)
                (Hxxs, Huus)))
    ∧ ∀ Hxxs' Huus',
        jnp.fori_loop_from i n (Cost.get_traj_hess_looper c x ui) (Hxxs, Huus)
        = Some (Hxxs', Huus') →
        has_shape3 (Cost._x_dim (Cost.base c)) (Cost._x_dim (Cost.base c)) N Hxxs'
        ∧ has_shape3 (Cost._ui_dim (Cost.base c)) (Cost._ui_dim (Cost.base c)) N Huus'
        ∧ (∀ k, (k < i)%nat →
             slab Hxxs' k = slab Hxxs k ∧ slab Huus' k = slab Huus k)
        ∧ (∀ k, (i ≤ k < i + n)%nat →
             Cost.get_hess c (column x k) (column ui k) k
             = Some (slab Hxxs' k, slab Huus' k)).
Proof using Type*.
  induction n as [|n IH]; intros i Hxxs Huus Hi HHx HHu.
  { cbn. split; [by eauto|]. intros ? ? [= <- <-].
    do 3 (split; [done|]). intros k Hk. lia. }
  cbn [jnp.fori_loop_from].
  rewrite get_traj_hess_looper_eq by lia.
  destruct (Cost.get_hess c (column x i) (column ui i) i)
    as [[hx hu]|] eqn:Eh; cbn [mbind option_bind fst snd].
  2:{ split; [|done]. intros Hall.
      destruct (Hall i) as [? Hsome]; [lia|]. by rewrite Eh in Hsome. }
  pose proof (get_hess_shape _ _ _ _ _ _ Eh) as [Hhx Hhu].
  rewrite column_length in Hhx, Hhu.
  destruct Hx as [Hxn _], Hu as [Hun _].
  rewrite Hxn in Hhx. rewrite Hun in Hhu.
  destruct (IH (S i) _ _ ltac:(lia)
              (set_slab_shape _ _ i _ _ HHx Hhx)
              (set_slab_shape _ _ i _ _ HHu Hhu)) as [IHa IHb].
  split.
  { intros Hall. apply IHa. intros k Hk. apply Hall. lia. }
  intros Hxxs' Huus' Hloop.
  destruct (IHb _ _ Hloop) as (Hs1 & Hs2 & Hbefore & Hcols).
  split; [done|]. split; [done|]. split.
  - intros k Hk. destruct (Hbefore k) as [-> ->]; [lia|].
    rewrite (slab_set_ne _ N k i Hxxs hx) by (done || lia).
    rewrite (slab_set_ne _ N k i Huus hu) by (done || lia). done.
  - intros k Hk. destruct (decide (k = i)) as [->|Hne].
    + destruct (Hbefore i) as [-> ->]; [lia|].
      rewrite (slab_set_eq _ N i Hxxs hx) by (done || lia).
      rewrite (slab_set_eq _ N i Huus hu) by (done || lia). done.
    + apply Hcols. lia.
Qed.

End Loops.
End TrajDerivatives.

(** The two loops, run over the whole horizon.  The loop returns what its
    rounds return; with at least one round the trace adds no failure. *)
Lemma get_traj_grad_loop {T : Type} `{Scalar T}
    (c : Cost.t T) (x ui : list (list T)) (N : nat) :
  Cost._horizon (Cost.base c) = N →
  has_shape2 (Cost._x_dim (Cost.base c)) N x →
  has_shape2 (Cost._ui_dim (Cost.base c)) N ui →
  ((0 < N)%nat →
   (∀ k, (k < N)%nat →
      is_Some (Cost.get_grad c (column x k) (column ui k) k)) →
   is_Some (Cost.get_traj_grad c x ui))
  ∧ ∀ lxs lus, Cost.get_traj_grad c x ui = Some (lxs, lus) →
      has_shape2 (Cost._x_dim (Cost.base c)) N lxs
      ∧ has_shape2 (Cost._ui_dim (Cost.base c)) N lus
      ∧ ∀ k, (0 ≤ k < 0 + N)%nat →
          Cost.get_grad c (column x k) (column ui k) k
          = Some (column lxs k, column lus k).
Proof.
  intros HN Hx Hu. unfold Cost.get_traj_grad.
  destruct (fori_loop_traj_grad c x ui N HN Hx Hu N 0
              (jnp.zeros2 (Cost._x_dim (Cost.base c)) N)
              (jnp.zeros2 (Cost._ui_dim (Cost.base c)) N)
              ltac:(lia) (shape_zeros2 _ _) (shape_zeros2 _ _)) as [Ha Hb].
  rewrite HN. split.
  - intros Hpos Hall. rewrite fori_loop_rounds, Nat.sub_0_r by done.
    apply Ha. intros k Hk. apply Hall. lia.
  - intros lxs lus Hl%fori_loop_Some. rewrite Nat.sub_0_r in Hl.
    by destruct (Hb _ _ Hl) as (? & ? & _ & ?).
Qed.

Lemma get_traj_hess_loop {T : Type} `{Scalar T}
    (c : Cost.t T) (x ui : list (list T)) (N : nat) :
  Cost._horizon (Cost.base c) = N →
  has_shape2 (Cost._x_dim (Cost.base c)) N x →
  has_shape2 (Cost._ui_dim (Cost.base c)) N ui →
  ((0 < N)%nat →
   (∀ k, (k < N)%nat →
      is_Some (Cost.get_hess c (column x k) (column ui k) k)) →
   is_Some (Cost.get_traj_hess c x ui))
  ∧ ∀ Hxxs Huus, Cost.get_traj_hess c x ui = Some (Hxxs, Huus) →
      has_shape3 (Cost._x_dim (Cost.base c)) (Cost._x_dim (Cost.base c)) N Hxxs
      ∧ has_shape3 (Cost._ui_dim (Cost.base c)) (Cost._ui_dim (Cost.base c)) N
          Huus
      ∧ ∀ k, (0 ≤ k < 0 + N)%nat →
          Cost.get_hess c (column x k) (column ui k) k
          = Some (slab Hxxs k, slab Huus k).
Proof.
  intros HN Hx Hu. unfold Cost.get_traj_hess.
  destruct (fori_loop_traj_hess c x ui N HN Hx Hu N 0
              (jnp.zeros3 (Cost._x_dim (Cost.base c))
                 (Cost._x_dim (Cost.base c)) N)
              (jnp.zeros3 (Cost._ui_dim (Cost.base c))
                 (Cost._ui_dim (Cost.base c)) N)
              ltac:(lia) (shape_zeros3 _ _ _) (shape_zeros3 _ _ _))
    as [Ha Hb].
  rewrite HN. split.
  - intros Hpos Hall. rewrite fori_loop_rounds, Nat.sub_0_r by done.
    apply Ha. intros k Hk. apply Hall. lia.
  - intros Hxxs Huus Hl%fori_loop_Some. rewrite Nat.sub_0_r in Hl.
    by destruct (Hb _ _ Hl) as (? & ? & _ & ?).
Qed.

(** X9.  For a cost with a horizon [N] of at least one and declared
    dimensions equal to the numbers of rows of [x] and [ui], both with [N]
    columns,
    [get_traj_grad] returns exactly when [get_grad] does at every time
    column; the two arrays returned have the shapes [(x_dim, N)] and
    [(ui_dim, N)], and their [k]-th columns are the two gradients of
    [get_grad] at the [k]-th columns of [x] and [ui]. *)
Theorem get_traj_grad_columnwise {T : Type} `{Scalar T}
    (c : Cost.t T) (x ui : list (list T)) (N : nat) :
  Cost._horizon (Cost.base c) = N →
  (0 < N)%nat →
  has_shape2 (Cost._x_dim (Cost.base c)) N x →
  has_shape2 (Cost._ui_dim (Cost.base c)) N ui →
  (is_Some (Cost.get_traj_grad c x ui)
   ↔ ∀ k, (k < N)%nat →
       is_Some (Cost.get_grad c (column x k) (column ui k) k))
  ∧ ∀ lxs lus, Cost.get_traj_grad c x ui = Some (lxs, lus) →
      has_shape2 (Cost._x_dim (Cost.base c)) N lxs
      ∧ has_shape2 (Cost._ui_dim (Cost.base c)) N lus
      ∧ ∀ k, (k < N)%nat →
          Cost.get_grad c (column x k) (column ui k) k
          = Some (column lxs k, column lus k).
Proof.
  intros HN Hpos Hx Hu.
  destruct (get_traj_grad_loop c x ui N HN Hx Hu) as [Hreturns Hcolumns].
  split; [split|].
  - intros [[lxs lus] Hl] k Hk.
    destruct (Hcolumns _ _ Hl) as (_ & _ & Hcols).
    rewrite (Hcols k) by lia. by eexists.
  - by apply Hreturns.
  - intros lxs lus Hl.
    destruct (Hcolumns _ _ Hl) as (Hs1 & Hs2 & Hcols).
    split; [done|]. split; [done|]. intros k Hk. apply Hcols. lia.
Qed.

(** X10.  Under the same conditions, the horizon of at least one
    included, [get_traj_hess] returns exactly when
    [get_hess] does at every time column; the arrays returned have the
    shapes [(x_dim, x_dim, N)] and [(ui_dim, ui_dim, N)], and their slabs
    [[:, :, k]] are the two Hessians of [get_hess] at the [k]-th columns
    of [x] and [ui]. *)
Theorem get_traj_hess_slabwise {T : Type} `{Scalar T}
    (c : Cost.t T) (x ui : list (list T)) (N : nat) :
  Cost._horizon (Cost.base c) = N →
  (0 < N)%nat →
  has_shape2 (Cost._x_dim (Cost.base c)) N x →
  has_shape2 (Cost._ui_dim (Cost.base c)) N ui →
  (is_Some (Cost.get_traj_hess c x ui)
   ↔ ∀ k, (k < N)%nat →
       is_Some (Cost.get_hess c (column x k) (column ui k) k))
  ∧ ∀ Hxxs Huus, Cost.get_traj_hess c x ui = Some (Hxxs, Huus) →
      has_shape3 (Cost._x_dim (Cost.base c)) (Cost._x_dim (Cost.base c)) N Hxxs
      ∧ has_shape3 (Cost._ui_dim (Cost.base c)) (Cost._ui_dim (Cost.base c)) N
          Huus
      ∧ ∀ k, (k < N)%nat →
          Cost.get_hess c (column x k) (column ui k) k
          = Some (slab Hxxs k, slab Huus k).
Proof.
  intros HN Hpos Hx Hu.
  destruct (get_traj_hess_loop c x ui N HN Hx Hu) as [Hreturns Hslabs].
  split; [split|].
  - intros [[Hxxs Huus] Hl] k Hk.
    destruct (Hslabs _ _ Hl) as (_ & _ & Hcols).
    rewrite (Hcols k) by lia. by eexists.
  - by apply Hreturns.
  - intros Hxxs Huus Hl.
    destruct (Hslabs _ _ Hl) as (Hs1 & Hs2 & Hcols).
    split; [done|]. split; [done|]. intros k Hk. apply Hcols. lia.
Qed.

(** X11.  With a horizon of at least one, a state array whose number of
    rows is neither the declared [x_dim] nor one makes [get_traj_grad]
    raise: the gradient of the first column cannot be stored in a column
    of length [x_dim]. *)
Theorem get_traj_grad_dimension_mismatch {T : Type} `{Scalar T}
    (c : Cost.t T) (x ui : list (list T)) :
  (0 < Cost._horizon (Cost.base c))%nat →
  length x ≠ Cost._x_dim (Cost.base c) → length x ≠ 1%nat →
  Cost.get_traj_grad c x ui = None.
Proof.
  intros HN Hne H1. unfold Cost.get_traj_grad. apply fori_loop_trace.
  unfold Cost.get_traj_grad_looper.
  destruct (jnp.col x 0) as [xk|] eqn:Ex; [|done].
  destruct (jnp.col ui 0) as [uk|] eqn:Eu; [|done].
  cbn [mbind option_bind].
  destruct (Cost.get_grad c xk uk 0) as [[gx gu]|] eqn:Eg; [|done].
  cbn [mbind option_bind].
  apply get_grad_length in Eg as [Hgx _]. apply col_length in Ex.
  unfold jnp.set_col. rewrite !decide_False by lia.
  rewrite (broadcast_to_mismatch (Cost._x_dim (Cost.base c)) gx) by lia.
  done.
Qed.

(** ** Registering terms, and trajectories longer than the horizon *)

Section PlayerCostComposition.
Context {T : Type} `{Scalar T}.
Local Open Scope scalar_scope.

Lemma get_cost_loop_app (terms1 terms2 : list (Cost.t T * T))
    (x ui : list (list T)) (total : PlayerCost.value T) :
  PlayerCost.get_cost_loop (terms1 ++ terms2) x ui total
  = total' ← PlayerCost.get_cost_loop terms1 x ui total;
    PlayerCost.get_cost_loop terms2 x ui total'.
Proof.
  revert total. induction terms1 as [|[c w] terms1 IH]; intros total; [done|].
  cbn [app PlayerCost.get_cost_loop].
  destruct (Cost.get_traj_cost c x ui) as [traj|]; [|done].
  cbn [mbind option_bind].
  destruct (PlayerCost.add total (PlayerCost.scale w traj)) as [total1|];
    [|done].
  cbn [mbind option_bind]. apply IH.
Qed.

Lemma get_cost_add_cost (self : PlayerCost.t T) (c : Cost.t T)
    (a : PlayerCost.arg) (w : T) (x ui : list (list T)) (k : nat) :
  length (PlayerCost._costs self) = length (PlayerCost._weights self) →
  PlayerCost.get_cost (PlayerCost.add_cost self c a w) x ui k
  = total ← PlayerCost.get_cost self x ui k;
    traj ← Cost.get_traj_cost c x ui;
    PlayerCost.add total (PlayerCost.scale w traj).
Proof.
  intros Hlen. unfold PlayerCost.get_cost, PlayerCost.add_cost.
  cbn [PlayerCost._costs PlayerCost._weights].
  rewrite zip_with_app by done. rewrite get_cost_loop_app.
  destruct (PlayerCost.get_cost_loop _ x ui (PlayerCost.Float 0))
    as [total|]; [|done].
  cbn [mbind option_bind zip_with PlayerCost.get_cost_loop].
  destruct (Cost.get_traj_cost c x ui) as [traj|]; [|done].
  cbn [mbind option_bind].
  by destruct (PlayerCost.add total (PlayerCost.scale w traj)).
Qed.

Lemma fori_loop_from_ext {A} (f g : nat → A → option A) (n : nat) :
  ∀ i a, (∀ k a', (i ≤ k < i + n)%nat → f k a' = g k a') →
    jnp.fori_loop_from i n f a = jnp.fori_loop_from i n g a.
Proof.
  induction n as [|n IH]; intros i a Hfg; [done|].
  cbn [jnp.fori_loop_from]. rewrite Hfg by lia.
  destruct (g i a) as [a'|]; [|done]. cbn [mbind option_bind].
  apply IH. intros k a'' Hk. apply Hfg. lia.
Qed.

Lemma col_take (a : list (list T)) (N k : nat) :
  Forall (λ row, (N ≤ length row)%nat) a → (k < N)%nat →
  jnp.col (take N <$> a) k = jnp.col a k.
Proof.
  intros Ha Hk. unfold jnp.col.
  induction Ha as [|row a Hrow _ IH]; [done|].
  cbn [fmap list_fmap mapM].
  rewrite !get_nat by (rewrite ?length_take; lia).
  rewrite lookup_take_lt by done.
  destruct (row !! k); [|done]. cbn [mbind option_bind].
  fold (mapM (λ row, jnp.get row (Z.of_nat k)) (take N <$> a)).
  fold (mapM (λ row, jnp.get row (Z.of_nat k)) a).
  by rewrite IH.
Qed.

Lemma registered_snoc (terms : list (Cost.t T * PlayerCost.arg * T))
    (c : Cost.t T) (a : PlayerCost.arg) (w : T) :
  registered (terms ++ [(c, a, w)])
  = PlayerCost.add_cost (registered terms) c a w.
Proof. unfold registered. by rewrite foldl_app. Qed.

Lemma registered_lengths (terms : list (Cost.t T * PlayerCost.arg * T)) :
  length (PlayerCost._costs (registered terms))
  = length (PlayerCost._weights (registered terms)).
Proof.
  induction terms as [|[[c a] w] terms IH] using rev_ind; [done|].
  rewrite registered_snoc. cbn. rewrite !length_app. cbn. lia.
Qed.

Lemma get_cost_registered_snoc (terms : list (Cost.t T * PlayerCost.arg * T))
    (c : Cost.t T) (a : PlayerCost.arg) (w : T) (x ui : list (list T))
    (k : nat) :
  PlayerCost.get_cost (registered (terms ++ [(c, a, w)])) x ui k
  = total ← PlayerCost.get_cost (registered terms) x ui k;
    traj ← Cost.get_traj_cost c x ui;
    PlayerCost.add total (PlayerCost.scale w traj).
Proof.
  rewrite registered_snoc. apply get_cost_add_cost, registered_lengths.
Qed.

Lemma get_traj_cost_take (c : Cost.t T) (x ui : list (list T)) (N : nat) :
  Cost._horizon (Cost.base c) = N →
  Forall (λ row, (N ≤ length row)%nat) x →
  Forall (λ row, (N ≤ length row)%nat) ui →
  Cost.get_traj_cost c x ui
  = Cost.get_traj_cost c (take N <$> x) (take N <$> ui).
Proof.
  intros HN Hx Hu. destruct (decide (N = 0%nat)) as [->|Hpos].
  { by rewrite !get_traj_cost_horizon_zero. }
  unfold Cost.get_traj_cost. rewrite !fori_loop_rounds by lia.
  rewrite HN, Nat.sub_0_r.
  apply fori_loop_from_ext. intros k costs Hk.
  unfold Cost.get_traj_cost_looper.
  by rewrite !col_take by (done || lia).
Qed.

End PlayerCostComposition.

(** X12.  For [PlayerCost] objects whose terms are all registered before
    [get_cost] first runs on them.  The object with no term returns the
    float [0.] it starts from.  The object with the terms [t1 .. tn] and
    then one more term [(cost, arg, weight)], which is what [add_cost]
    makes of the object with [t1 .. tn], returns what the object with
    [t1 .. tn] returns plus the weight times the trajectory cost of the
    last term; it raises when that object raises, when the trajectory cost
    of the last term raises, or when the sum does not broadcast. *)
Theorem player_get_cost_add_cost {T : Type} `{Scalar T}
    (terms : list (Cost.t T * PlayerCost.arg * T))
    (c : Cost.t T) (a : PlayerCost.arg) (w : T)
    (x ui : list (list T)) (k : nat) :
  PlayerCost.get_cost (registered []) x ui k = Some (PlayerCost.Float 0%S)
  ∧ registered (terms ++ [(c, a, w)])
    = PlayerCost.add_cost (registered terms) c a w
  ∧ PlayerCost.get_cost (registered (terms ++ [(c, a, w)])) x ui k
    = total ← PlayerCost.get_cost (registered terms) x ui k;
      traj ← Cost.get_traj_cost c x ui;
      PlayerCost.add total (PlayerCost.scale w traj).
Proof.
  split; [done|]. split.
  - apply registered_snoc.
  - apply get_cost_registered_snoc.
Qed.

(** X13.  Terms with different horizons cannot be combined, for objects
    whose terms are all registered before [get_cost] first runs on them:
    when the object with the terms [t1 .. tn] returns an array of a length
    [n] other than one, the object with [t1 .. tn] and then a term whose
    horizon is neither [n] nor one raises. *)
Theorem player_get_cost_horizon_mismatch {T : Type} `{Scalar T}
    (terms : list (Cost.t T * PlayerCost.arg * T))
    (c : Cost.t T) (a : PlayerCost.arg) (w : T)
    (x ui : list (list T)) (k : nat) (total : list T) :
  PlayerCost.get_cost (registered terms) x ui k
  = Some (PlayerCost.Array total) →
  Cost._horizon (Cost.base c) ≠ length total →
  Cost._horizon (Cost.base c) ≠ 1%nat →
  length total ≠ 1%nat →
  PlayerCost.get_cost (registered (terms ++ [(c, a, w)])) x ui k = None.
Proof.
  intros Htotal Hne Hc1 Ht1.
  rewrite get_cost_registered_snoc. rewrite Htotal.
  cbn [mbind option_bind].
  destruct (Cost.get_traj_cost c x ui) as [traj|] eqn:Etraj; [|done].
  cbn [mbind option_bind].
  apply get_traj_cost_length in Etraj.
  destruct (Cost._horizon (Cost.base c)) as [|[|n]] eqn:En; [| lia |].
  - destruct traj; [|done].
    destruct total as [|v [|v' total]]; [done|done|].
    unfold PlayerCost.add. by rewrite decide_False by done.
  - destruct traj as [|t [|t' traj]]; [done|done|].
    unfold PlayerCost.add, PlayerCost.scale.
    rewrite decide_False by (rewrite length_fmap; simpl in Etraj |- *; lia).
    by destruct total as [|v [|v' total]].
Qed.

(** X14.  [get_traj_cost] reads the first [N] columns only, [N] being the
    horizon: on trajectory arrays with at least [N] columns it returns
    what it returns on the arrays cut to [N] columns, which for [N] of at
    least one is the sequence of the pointwise costs of these. *)
Theorem get_traj_cost_ignores_later_columns {T : Type} `{Scalar T}
    (c : Cost.t T) (x ui : list (list T)) (N : nat) :
  Cost._horizon (Cost.base c) = N →
  (0 < N)%nat →
  Forall (λ row, (N ≤ length row)%nat) x →
  Forall (λ row, (N ≤ length row)%nat) ui →
  Cost.get_traj_cost c x ui
  = Cost.get_traj_cost c (take N <$> x) (take N <$> ui)
  ∧ Cost.get_traj_cost c x ui
    = pointwise_costs c (take N <$> x) (take N <$> ui) N.
Proof.
  intros HN Hpos Hx Hu.
  rewrite (get_traj_cost_take c x ui N) by done. split; [done|].
  rewrite <- HN. apply get_traj_cost_eq; rewrite HN; [done| |].
  - apply Forall_fmap. eapply Forall_impl; [exact Hx|].
    intros row Hrow. cbn in Hrow |- *. rewrite length_take. lia.
  - apply Forall_fmap. eapply Forall_impl; [exact Hu|].
    intros row Hrow. cbn in Hrow |- *. rewrite length_take. lia.
Qed.

(** ** What a completed call of [plan] needs *)

Section PlanRequirements.
Context {T : Type} `{Scalar T} {W E U Solver : Type}.
Import RHCPlanner.
Variable env : collaborators (T:=T) (W:=W) (E:=E) (U:=U) (Solver:=Solver).
Implicit Types s : state (T:=T) (W:=W) (Solver:=Solver).

Lemma wp_conj {St A} (m : M St E A) (Q1 Q2 : St → outcome E A → Prop)
    (st : St) :
  wp m Q1 st → wp m Q2 st → wp m (λ st' r, Q1 st' r ∧ Q2 st' r) st.
Proof. unfold wp. auto. Qed.

(** A fact that does not depend on the state holds after any
    computation. *)
Lemma wp_const {St A} (m : M St E A) (P : Prop) (st : St) :
  P → wp m (λ _ r, match r with Ok _ => P | Raise _ => True end) st.
Proof. intros HP. unfold wp. by destruct (m st).2. Qed.

Lemma np_norm_index_nat_Some (n i j : nat) :
  np.norm_index n (Z.of_nat i) = Some j → (i < n)%nat.
Proof.
  unfold np.norm_index. destruct (decide (0 ≤ Z.of_nat i < Z.of_nat n)%Z);
    [lia|by rewrite decide_False by lia].
Qed.

Lemma setitem_entry_in_bounds (a v a' : np.ndarray T) (n1 n2 l1 l2 : nat) :
  np.shape a = [n1; n2] →
  np.setitem a [np.Idx (Z.of_nat l1); np.Idx (Z.of_nat l2)] v = inr a' →
  (l1 < n1)%nat ∧ (l2 < n2)%nat.
Proof.
  intros Hsh. unfold np.setitem. rewrite Hsh.
  cbn [np.resolve np.resolve1].
  destruct (np.norm_index n1 (Z.of_nat l1)) as [j1|] eqn:E1; [|done].
  destruct (np.norm_index n2 (Z.of_nat l2)) as [j2|] eqn:E2; [|done].
  intros _. split; by eapply np_norm_index_nat_Some.
Qed.

Lemma getitem_last_col (zs a : np.ndarray T) (nz n k : nat) :
  np.shape zs = [nz; n] → (k < n)%nat →
  np.getitem zs [np.Idx (-1); np.Idx (Z.of_nat k)] = inr a →
  (1 ≤ nz)%nat ∧ last_of_column zs nz k a.
Proof.
  intros Hsh Hk. unfold np.getitem. rewrite Hsh.
  cbn [np.resolve np.resolve1].
  rewrite np_norm_index_nat by done.
  destruct (decide (1 ≤ nz)%nat) as [Hnz|Hnz].
  - assert (np.norm_index nz (-1) = Some (nz - 1)%nat) as ->.
    { unfold np.norm_index. rewrite decide_False by lia.
      rewrite decide_True by lia. f_equal. lia. }
    cbn. intros [= <-]. by repeat split.
  - assert (np.norm_index nz (-1) = None) as ->; [|done].
    unfold np.norm_index. rewrite decide_False by lia.
    by rewrite decide_False by lia.
Qed.

Lemma solve_subgame_needs (xs : np.ndarray T) (k l1 l2 : nat)
    (b : bundle (T:=T)) (me : t (T:=T) (Solver:=Solver)) s :
  self s = me → np.shape (b_nom_cost1 b) = [2; 2]%nat →
  wp (solve_subgame env xs k l1 l2 b)
     (λ s' r, match r with
              | Ok b' => self s' = me
                         ∧ np.shape (b_nom_cost1 b') = [2; 2]%nat
                         ∧ subgame_requirements me l1 l2
              | Raise _ => True
              end) s.
Proof.
  intros Hme Hn1. unfold solve_subgame.
  apply wp_bind, wp_gets. apply wp_bind, wp_gets.
  apply wp_bind, wp_item; [intros row Hrow|done].
  apply wp_bind, wp_item; [intros solver Hsolver|done].
  apply wp_bind, wp_numpy; [intros x_k _|done].
  apply wp_bind, wp_call; [intros w [] _|done].
  apply wp_bind, wp_gets.
  apply wp_bind, wp_item; [intros xs_ILQ _|done].
  apply wp_bind, wp_numpy; [intros v _|done].
  apply wp_bind, wp_numpy; [intros xnom _|done].
  apply wp_bind, wp_item; [intros op4 _|done].
  apply wp_bind, wp_numpy; [intros Zs _|done].
  apply wp_bind, wp_item; [intros op5 _|done].
  apply wp_bind, wp_numpy; [intros zetas _|done].
  apply wp_bind, wp_item; [intros nom_costs _|done].
  apply wp_bind, wp_numpy; [intros v1 _|done].
  apply wp_bind, wp_numpy; [intros Z1 _|done].
  apply wp_bind, wp_numpy; [intros v2 _|done].
  apply wp_bind, wp_numpy; [intros Z2 _|done].
  apply wp_bind, wp_numpy; [intros v3 _|done].
  apply wp_bind, wp_numpy; [intros zeta1 _|done].
  apply wp_bind, wp_numpy; [intros v4 _|done].
  apply wp_bind, wp_numpy; [intros zeta2 _|done].
  apply wp_bind, wp_numpy; [intros v5 _|done].
  apply wp_bind, wp_numpy; [intros nom_cost1 Hnom1|done].
  apply wp_bind, wp_numpy; [intros v6 _|done].
  apply wp_bind, wp_numpy; [intros nom_cost2 _|done].
  apply wp_ret. cbn. split; [done|].
  split; [by rewrite (setitem_shape _ _ _ _ Hnom1)|].
  destruct (setitem_entry_in_bounds _ _ _ 2 2 l1 l2 Hn1 Hnom1) as [? ?].
  split; [done|]. split; [done|].
  exists row, solver. by rewrite <- Hme.
Qed.

Lemma subgame_loops_need (xs : np.ndarray T) (k nz1 nz2 : nat)
    (b : bundle (T:=T)) (me : t (T:=T) (Solver:=Solver)) s :
  self s = me → np.shape (b_nom_cost1 b) = [2; 2]%nat →
  wp (for_range nz1 (λ l1, for_range nz2 (λ l2, solve_subgame env xs k l1 l2)) b)
     (λ s' r, match r with
              | Ok _ => ∀ l1 l2, (l1 < nz1)%nat → (l2 < nz2)%nat →
                          subgame_requirements me l1 l2
              | Raise _ => True
              end) s.
Proof.
  intros Hme Hb. eapply wp_mono.
  - apply (wp_for_range _
             (λ i b' s', self s' = me
                         ∧ np.shape (b_nom_cost1 b') = [2; 2]%nat
                         ∧ ∀ l1 l2, (l1 < i)%nat → (l2 < nz2)%nat →
                             subgame_requirements me l1 l2)
             (λ _ _, True)).
    + do 2 (split; [done|]). intros l1 l2 Hl1. lia.
    + intros l1 b1 s1 Hl1 (Hs1 & Hb1 & Hreq1). eapply wp_mono.
      * apply (wp_for_range _
                 (λ j b' s', self s' = me
                             ∧ np.shape (b_nom_cost1 b') = [2; 2]%nat
                             ∧ ∀ l2, (l2 < j)%nat →
                                 subgame_requirements me l1 l2)
                 (λ _ _, True)).
        -- do 2 (split; [done|]). intros l2 Hl2. lia.
        -- intros l2 b2 s2 Hl2 (Hs2 & Hb2 & Hreq2). eapply wp_mono.
           ++ by apply (solve_subgame_needs xs k l1 l2 b2 me s2).
           ++ intros s' [b'|e]; [|done]. intros (? & ? & Hreq).
              do 2 (split; [done|]). intros j Hj.
              destruct (decide (j = l2)) as [->|]; [done|].
              apply Hreq2. lia.
      * intros s' [b'|e]; [|done]. intros (? & ? & Hreq).
        do 2 (split; [done|]). intros i j Hi Hj.
        destruct (decide (i = l1)) as [->|]; [by apply Hreq|].
        apply Hreq1; lia.
  - intros s' [b'|e]; [|done]. intros (_ & _ & Hreq). done.
Qed.

Lemma plan_step_needs (z0 : np.ndarray T) (nx nz N : nat)
    (me : t (T:=T) (Solver:=Solver)) (calls0 : list (GiNOD_call (T:=T)))
    (k : nat) (l : logs (T:=T)) s :
  (k < N)%nat →
  plan_inv env z0 nx nz N me calls0 k l s →
  wp (plan_step env z0 nx (_num_opn_P1 env) (_num_opn_P2 env) k l)
     (λ s' r, match r with
              | Ok _ => (1 ≤ nz)%nat
                        ∧ ∀ l1 l2, (l1 < _num_opn_P1 env)%nat →
                            (l2 < _num_opn_P2 env)%nat →
                            subgame_requirements me l1 l2
              | Raise _ => True
              end) s.
Proof.
  intros Hk (Hme & Hshapes & _).
  destruct l as [[[xs zs] Hs] PoI].
  destruct Hshapes as (_ & Hzs & _). cbn in Hzs.
  unfold plan_step.
  apply wp_bind. eapply wp_mono.
  { by apply (subgame_loops_need xs k _ _ _ me). }
  intros s1 [b|e]; [|done]. intros Hreq.
  apply wp_bind.
  apply (wp_mono _ (λ _ _, True)); [by unfold wp|].
  intros s2 [znom1|e] _; [|done].
  apply wp_bind.
  apply (wp_mono _ (λ _ _, True)); [by unfold wp|].
  intros s3 [znom2|e] _; [|done].
  apply wp_bind, wp_numpy; [intros z1_k _|done].
  apply wp_bind, wp_numpy; [intros z2_k _|done].
  apply wp_bind, wp_numpy; [intros att1_k _|done].
  apply wp_bind, wp_numpy; [intros att2_k Hatt2|done].
  destruct (getitem_last_col zs att2_k nz (N + 1) k Hzs ltac:(lia) Hatt2)
    as [Hnz _].
  by apply wp_const.
Qed.

Lemma plan_needs (x0 z0 : np.ndarray T) s :
  wp (plan env x0 z0)
     (λ s' r, match r with
              | Ok _ =>
                  (0 < _N_sim (self s))%nat →
                  (∃ nz, np.len z0 = inr nz ∧ (1 ≤ nz)%nat)
                  ∧ ∀ l1 l2, (l1 < _num_opn_P1 env)%nat →
                      (l2 < _num_opn_P2 env)%nat →
                      subgame_requirements (self s) l1 l2
              | Raise _ => True
              end) s.
Proof.
  unfold plan.
  apply wp_bind, wp_numpy; [intros nx Hnx|done].
  apply wp_bind, wp_numpy; [intros nz Hnz|done].
  apply wp_bind, wp_gets.
  apply wp_bind, wp_numpy; [intros xs Hxs|done].
  apply wp_bind, wp_numpy; [intros zs Hzs|done].
  apply wp_bind. eapply wp_mono.
  { apply (wp_for_range _
             (λ k l s', plan_inv env z0 nx nz (_N_sim (self s)) (self s)
                          (GiNOD_calls s) k l s'
                        ∧ ((0 < k)%nat →
                           (1 ≤ nz)%nat
                           ∧ ∀ l1 l2, (l1 < _num_opn_P1 env)%nat →
                               (l2 < _num_opn_P2 env)%nat →
                               subgame_requirements (self s) l1 l2))
             (λ _ _, True)).
    - split; [|lia]. split; [done|]. split.
      { repeat split; cbn; [by rewrite (setitem_shape _ _ _ _ Hxs)
                           |by rewrite (setitem_shape _ _ _ _ Hzs)]. }
      split; [lia|]. exists []. by rewrite app_nil_r.
    - intros k l s1 Hk [Hinv _]. eapply wp_mono.
      + apply wp_conj;
          [by apply (plan_step_spec env z0 nx nz (_N_sim (self s)))
          |by apply (plan_step_needs z0 nx nz (_N_sim (self s)) (self s)
                       (GiNOD_calls s))].
      + intros s' [l'|e]; [|done]. intros [Hinv' Hreq]. done. }
  intros s1 [[[[xs' zs'] Hs'] PoI']|e]; [|done]. intros [_ Hreq].
  apply wp_modify. intros HN. destruct (Hreq HN) as [? ?].
  split; [by exists nz|done].
Qed.

End PlanRequirements.

(** X15.  A call of [plan] with at least one simulation step completes
    only if the opinion vector [z0] is not empty, neither player has more
    than two opinion modes unless the other has none, and the planner
    holds a subgame solver [self._subgames[l1][l2]] for every pair of
    opinion modes. *)
Theorem plan_completion_requirements {T : Type} `{Scalar T}
    {W E U Solver : Type}
    (env : RHCPlanner.collaborators (T:=T) (W:=W) (E:=E) (U:=U) (Solver:=Solver))
    (x0 z0 : np.ndarray T) (s : RHCPlanner.state) :
  let nz1 := RHCPlanner._num_opn_P1 env in
  let nz2 := RHCPlanner._num_opn_P2 env in
  (0 < RHCPlanner._N_sim (RHCPlanner.self s))%nat →
  (RHCPlanner.plan env x0 z0 s).2 = RHCPlanner.Ok tt →
  (∃ nz, np.len z0 = inr nz ∧ (1 ≤ nz)%nat)
  ∧ ((0 < nz2)%nat → (nz1 ≤ 2)%nat)
  ∧ ((0 < nz1)%nat → (nz2 ≤ 2)%nat)
  ∧ ∀ l1 l2, (l1 < nz1)%nat → (l2 < nz2)%nat →
      ∃ row solver,
        RHCPlanner._subgames (RHCPlanner.self s) !! l1 = Some row
        ∧ row !! l2 = Some solver.
Proof.
  intros nz1 nz2 HN Hr.
  pose proof (plan_needs env x0 z0 s) as Hp. unfold wp in Hp.
  rewrite Hr in Hp. destruct (Hp HN) as [Hnz Hreq].
  split; [done|]. split; [|split].
  - intros Hnz2. destruct (decide (nz1 ≤ 2)%nat) as [|Hgt]; [done|].
    destruct (Hreq 2%nat 0%nat) as (? & _); [fold nz1; lia|done|lia].
  - intros Hnz1. destruct (decide (nz2 ≤ 2)%nat) as [|Hgt]; [done|].
    destruct (Hreq 0%nat 2%nat) as (_ & ? & _); [done|fold nz2; lia|lia].
  - intros l1 l2 Hl1 Hl2. by destruct (Hreq l1 l2) as (_ & _ & ?).
Qed.

(** X16.  Whatever [plan] raises, the planner object is left as it was:
    the results [xs], [zs], [Hs] and [PoI] are stored only when the whole
    simulation has completed. *)
Theorem plan_raise_keeps_planner {T : Type} `{Scalar T} {W E U Solver : Type}
    (env : RHCPlanner.collaborators (T:=T) (W:=W) (E:=E) (U:=U) (Solver:=Solver))
    (x0 z0 : np.ndarray T) (s : RHCPlanner.state) (e : RHCPlanner.exn E) :
  (RHCPlanner.plan env x0 z0 s).2 = RHCPlanner.Raise e →
  RHCPlanner.self (RHCPlanner.plan env x0 z0 s).1 = RHCPlanner.self s.
Proof. intros Hr. by apply plan_Raise in Hr as [? _]. Qed.

(** X17.  A completed call of [plan] has called the opinion-dynamics
    model exactly [N_sim] times, once per simulation step, and changed
    nothing of the planner object but the four result attributes. *)
Theorem plan_one_model_call_per_step {T : Type} `{Scalar T}
    {W E U Solver : Type}
    (env : RHCPlanner.collaborators (T:=T) (W:=W) (E:=E) (U:=U) (Solver:=Solver))
    (x0 z0 : np.ndarray T) (s : RHCPlanner.state) :
  let s' := (RHCPlanner.plan env x0 z0 s).1 in
  (RHCPlanner.plan env x0 z0 s).2 = RHCPlanner.Ok tt →
  (∃ new, RHCPlanner.GiNOD_calls s' = RHCPlanner.GiNOD_calls s ++ new
          ∧ length new = RHCPlanner._N_sim (RHCPlanner.self s))
  ∧ RHCPlanner._subgames (RHCPlanner.self s')
    = RHCPlanner._subgames (RHCPlanner.self s)
  ∧ RHCPlanner._N_sim (RHCPlanner.self s')
    = RHCPlanner._N_sim (RHCPlanner.self s)
  ∧ RHCPlanner._method (RHCPlanner.self s')
    = RHCPlanner._method (RHCPlanner.self s)
  ∧ RHCPlanner._look_ahead (RHCPlanner.self s')
    = RHCPlanner._look_ahead (RHCPlanner.self s).
Proof.
  intros s' Hr.
  apply plan_Ok in Hr as (nx & nz & xs & zs & Hs & PoI & _ & _ & Hself & _ & _
                            & new & Hcalls & Hlen & _).
  fold s' in Hself, Hcalls. rewrite Hself. split; [by exists new|done].
Qed.

(** X18.  Initial vectors without a first axis are refused before
    anything else happens: with a zero-dimensional [x0], [plan] raises the
    [TypeError] of [len(x0)]; with [x0] of at least one dimension and a
    zero-dimensional [z0], that of [len(z0)].  In both cases no
    collaborator has been called and the state is as before. *)
Theorem plan_scalar_input {T : Type} `{Scalar T} {W E U Solver : Type}
    (env : RHCPlanner.collaborators (T:=T) (W:=W) (E:=E) (U:=U) (Solver:=Solver))
    (x0 z0 : np.ndarray T) (s : RHCPlanner.state) :
  (np.shape x0 = [] →
   RHCPlanner.plan env x0 z0 s = (s, RHCPlanner.Raise (RHCPlanner.TypeError "len(x0)")))
  ∧ (np.shape x0 ≠ [] → np.shape z0 = [] →
     RHCPlanner.plan env x0 z0 s
     = (s, RHCPlanner.Raise (RHCPlanner.TypeError "len(z0)"))).
Proof.
  split.
  - intros Hx. unfold RHCPlanner.plan, np.len. by rewrite Hx.
  - intros Hx Hz. unfold RHCPlanner.plan, np.len. rewrite Hz.
    by destruct (np.shape x0).
Qed.

(** X19.  With no simulation step ([N_sim = 0]) [plan] completes for all
    one-dimensional [x0] and [z0], whatever the method and the
    collaborators, and calls no collaborator; the stored [xs] and [zs]
    have the single column [x0], respectively [z0]. *)
Theorem plan_no_steps {T : Type} `{Scalar T} {W E U Solver : Type}
    (env : RHCPlanner.collaborators (T:=T) (W:=W) (E:=E) (U:=U) (Solver:=Solver))
    (x0 z0 : np.ndarray T) (s : RHCPlanner.state) (nx nz : nat) :
  let s' := (RHCPlanner.plan env x0 z0 s).1 in
  RHCPlanner._N_sim (RHCPlanner.self s) = 0%nat →
  np.shape x0 = [nx] → np.shape z0 = [nz] →
  (RHCPlanner.plan env x0 z0 s).2 = RHCPlanner.Ok tt
  ∧ RHCPlanner.world s' = RHCPlanner.world s
  ∧ RHCPlanner.GiNOD_calls s' = RHCPlanner.GiNOD_calls s
  ∧ ∃ xs zs,
      RHCPlanner.xs (RHCPlanner.self s') = Some xs
      ∧ RHCPlanner.zs (RHCPlanner.self s') = Some zs
      ∧ np.shape xs = [nx; 1%nat] ∧ np.shape zs = [nz; 1%nat]
      ∧ (∀ i, (i < nx)%nat → np.at_ xs [i; 0%nat] = np.at_ x0 [i])
      ∧ (∀ i, (i < nz)%nat → np.at_ zs [i; 0%nat] = np.at_ z0 [i]).
Proof.
  intros s' HN Hx Hz.
  assert (∀ n (v : np.ndarray T), np.shape v = [n] →
            ∃ a, np.setitem (np.zeros [n; 1%nat]) [np.All; np.Idx 0] v = inr a)
    as Hset.
  { intros n v Hv. unfold np.setitem. rewrite Hv.
    change (np.Idx 0) with (np.Idx (Z.of_nat 0)).
    cbn [np.shape np.zeros]. rewrite resolve_col by lia.
    assert (np.can_assign [n] (np.region_shape [np.Range 0 n; np.Fixed 0%nat])
            = true) as ->; [|by eexists].
    unfold np.can_assign. cbn. rewrite bool_decide_true; [done|].
    constructor; [by left|constructor]. }
  assert (∀ n (v a : np.ndarray T) i, np.shape v = [n] → (i < n)%nat →
            np.setitem (np.zeros [n; 1%nat]) [np.All; np.Idx 0] v = inr a →
            np.at_ a [i; 0%nat] = np.at_ v [i]) as Hcol.
  { intros n v a i Hv Hi Ha.
    rewrite (setitem_col_same (np.zeros [n; 1%nat]) v a n 1 0 eq_refl
               ltac:(lia) Ha i Hi).
    by apply (broadcast_to_vector v n i). }
  cut (wp (RHCPlanner.plan env x0 z0)
         (λ s1 r, r = RHCPlanner.Ok tt
                  ∧ RHCPlanner.world s1 = RHCPlanner.world s
                  ∧ RHCPlanner.GiNOD_calls s1 = RHCPlanner.GiNOD_calls s
                  ∧ ∃ xs zs,
                      RHCPlanner.xs (RHCPlanner.self s1) = Some xs
                      ∧ RHCPlanner.zs (RHCPlanner.self s1) = Some zs
                      ∧ np.shape xs = [nx; 1%nat] ∧ np.shape zs = [nz; 1%nat]
                      ∧ (∀ i, (i < nx)%nat → np.at_ xs [i; 0%nat] = np.at_ x0 [i])
                      ∧ (∀ i, (i < nz)%nat → np.at_ zs [i; 0%nat] = np.at_ z0 [i]))
         s); [done|].
  unfold RHCPlanner.plan, np.len. rewrite Hx, Hz.
  apply wp_bind, wp_numpy; [intros ? [= <-]|done].
  apply wp_bind, wp_numpy; [intros ? [= <-]|done].
  apply wp_bind, wp_gets. rewrite HN. cbn [Nat.add].
  destruct (Hset nx x0 Hx) as [xs Exs]. destruct (Hset nz z0 Hz) as [zs Ezs].
  rewrite Exs, Ezs.
  apply wp_bind, wp_ret. apply wp_bind, wp_ret. apply wp_bind, wp_ret.
  apply wp_modify. cbn. do 3 (split; [done|]). exists xs, zs.
  do 2 (split; [done|]).
  split; [by rewrite (setitem_shape _ _ _ _ Exs)|].
  split; [by rewrite (setitem_shape _ _ _ _ Ezs)|].
  split; intros i Hi; by eapply Hcol.
Qed.

(** ** What [plan] records *)

Section SlabWrites.
Context {T : Type} `{Scalar T}.
Implicit Types a v : np.ndarray T.

Lemma resolve_slab (n m p k : nat) :
  (k < p)%nat →
  np.resolve [n; m; p] [np.All; np.All; np.Idx (Z.of_nat k)]
  = Some [np.Range 0 n; np.Range 0 m; np.Fixed k].
Proof. intros Hk. cbn. by rewrite np_norm_index_nat. Qed.

(** [a[:, :, c] = v] leaves the other slabs alone ... *)
Lemma setitem_slab_other a v a' (n m p c : nat) :
  np.shape a = [n; m; p] → (c < p)%nat →
  np.setitem a [np.All; np.All; np.Idx (Z.of_nat c)] v = inr a' →
  ∀ i j k, k ≠ c → np.at_ a' [i; j; k] = np.at_ a [i; j; k].
Proof.
  intros Hsh Hc Hset i j k Hk.
  rewrite (setitem_at a [np.All; np.All; np.Idx (Z.of_nat c)] v a'
             [np.Range 0 n; np.Range 0 m; np.Fixed c]);
    [|by rewrite Hsh, resolve_slab|done].
  cbn. repeat case_decide; by simplify_eq.
Qed.

(** ... and stores the broadcast value in the slab [c]. *)
Lemma setitem_slab_same a v a' (n m p c : nat) :
  np.shape a = [n; m; p] → (c < p)%nat →
  np.setitem a [np.All; np.All; np.Idx (Z.of_nat c)] v = inr a' →
  ∀ i j, (i < n)%nat → (j < m)%nat →
    np.at_ a' [i; j; c] = np.at_ (np.broadcast_to v [n; m]) [i; j].
Proof.
  intros Hsh Hc Hset i j Hi Hj.
  rewrite (setitem_at a [np.All; np.All; np.Idx (Z.of_nat c)] v a'
             [np.Range 0 n; np.Range 0 m; np.Fixed c]);
    [|by rewrite Hsh, resolve_slab|done].
  cbn. rewrite decide_True by lia. rewrite decide_True by lia.
  rewrite decide_True by done. cbn. by rewrite !Nat.sub_0_r.
Qed.

(** A pair of values stored in a column of two entries is a pair of
    scalars. *)
Lemma setitem_pair a a' (p1 p2 pk : np.ndarray T) (N k : nat) :
  np.shape a = [2%nat; N] → (k < N)%nat →
  np.array2 p1 p2 = inr pk →
  np.setitem a [np.All; np.Idx (Z.of_nat k)] pk = inr a' →
  np.shape p1 = [] ∧ np.shape p2 = []
  ∧ np.at_ a' [0%nat; k] = np.at_ p1 []
  ∧ np.at_ a' [1%nat; k] = np.at_ p2 [].
Proof.
  intros Hsh Hk Hpk Hset.
  unfold np.array2 in Hpk.
  destruct (decide (np.shape p1 = np.shape p2)) as [Heq|]; [|done].
  injection Hpk as <-.
  assert (np.shape p1 = []) as Hp1.
  { revert Hset. unfold np.setitem. rewrite Hsh, resolve_col by done.
    cbn [np.shape np.region_shape].
    destruct (np.shape p1) as [|d sh]; [done|].
    assert (np.can_assign (2%nat :: d :: sh) [2%nat] = false) as ->; [|done].
    unfold np.can_assign. cbn [length Nat.sub take].
    rewrite bool_decide_false; [done|].
    intros Hall. by inversion Hall. }
  split; [done|]. split; [congruence|].
  rewrite !(setitem_col_same a _ a' 2 N k Hsh Hk Hset) by lia.
  cbn. by rewrite Hp1.
Qed.

End SlabWrites.

Section PlanRecords.
Context {T : Type} `{Scalar T} {W E U Solver : Type}.
Import RHCPlanner.
Variable env : collaborators (T:=T) (W:=W) (E:=E) (U:=U) (Solver:=Solver).
Implicit Types s : state (T:=T) (W:=W) (Solver:=Solver).
Implicit Types xs zs : np.ndarray T.

(** The record of step [j] only reads the columns up to [j + 1] of [xs]
    and [zs] and what was stored at [j] in [Hs] and [PoI]: it survives
    the writes of a later step. *)
Lemma step_record_frame (me : t (T:=T) (Solver:=Solver))
    (xs zs Hs PoI xs' zs' Hs' PoI' : np.ndarray T) (nx nz j k : nat)
    (c : GiNOD_call (T:=T)) :
  (j < k)%nat →
  (∀ i col, col ≠ S k → np.at_ xs' [i; col] = np.at_ xs [i; col]) →
  (∀ i col, col ≠ S k → np.at_ zs' [i; col] = np.at_ zs [i; col]) →
  (∀ i i' col, col ≠ k → np.at_ Hs' [i; i'; col] = np.at_ Hs [i; i'; col]) →
  (∀ i col, col ≠ k → np.at_ PoI' [i; col] = np.at_ PoI [i; col]) →
  step_record env me xs zs Hs PoI nx nz j c →
  step_record env me xs' zs' Hs' PoI' nx nz j c.
Proof.
  intros Hj Hxs Hzs HHs HPoI
    (HH & Hp1 & Hp2 & HP1 & HP2 & x_k & u_list & w & w' & x_next
     & [Hxk Hxkat] & Hctl & Hph & Hnext).
  split; [intros i i' Hi Hi'; rewrite HHs by lia; by apply HH|].
  do 2 (split; [done|]).
  split; [by rewrite HPoI by lia|]. split; [by rewrite HPoI by lia|].
  exists x_k, u_list, w, w', x_next. split; [|split; [|split; [done|]]].
  - split; [done|]. intros r. rewrite Hxs by lia. apply Hxkat.
  - destruct Hctl as (z1 & z2 & a1 & a2 & u1 & u2 & w1 & w1' & w2 & w2'
                      & Hu & [? Hz1] & [? Hz2] & [? Ha1] & [? Ha2] & Hm).
    exists z1, z2, a1, a2, u1, u2, w1, w1', w2, w2'.
    split; [done|].
    repeat (split; [split; [done|]; intros r; rewrite Hzs by lia; done|]).
    done.
  - intros i Hi. rewrite Hxs by lia. by apply Hnext.
Qed.

Lemma plan_step_records (x0 z0 : np.ndarray T) (nx nz N : nat)
    (me : t (T:=T) (Solver:=Solver)) (calls0 : list (GiNOD_call (T:=T)))
    (k : nat) (l : logs (T:=T)) s :
  (k < N)%nat →
  plan_inv env z0 nx nz N me calls0 k l s →
  plan_records env x0 z0 nx nz me calls0 k l s →
  wp (plan_step env z0 nx (_num_opn_P1 env) (_num_opn_P2 env) k l)
     (λ s' r, match r with
              | Ok l' => plan_records env x0 z0 nx nz me calls0 (S k) l' s'
              | Raise _ => True
              end) s.
Proof.
  intros Hk (Hme & Hshapes & _) (Hx0 & Hz0 & new & Hcalls & Hlen & Hrec).
  destruct l as [[[xs zs] Hs] PoI].
  destruct Hshapes as (Hxs & Hzs & HHs & HPoI).
  cbn in Hxs, Hzs, HHs, HPoI, Hx0, Hz0, Hrec.
  set (nz1 := _num_opn_P1 env) in *. set (nz2 := _num_opn_P2 env) in *.
  unfold plan_step. fold nz1 nz2.
  (* the subgame loops *)
  apply wp_bind. eapply wp_mono.
  { apply (subgame_loops_spec env xs k nx nz1 nz2 _ False);
      [done|by repeat split]. }
  intros s1 [b|e] [[Hself1 Hcalls1] _]; [|done].
  rewrite Hme in Hself1. rewrite Hcalls in Hcalls1.
  clear s Hme Hcalls. revert Hself1 Hcalls1. generalize s1. clear s1.
  intros s Hme Hcalls.
  (* the opinion references *)
  apply wp_bind.
  apply (wp_mono _ (λ s' r, match r with Ok _ => s' = s | Raise _ => True end)).
  { case_decide; (apply wp_numpy; [done|done]). }
  intros ? [znom1|e]; [intros ->|done].
  apply wp_bind.
  apply (wp_mono _ (λ s' r, match r with Ok _ => s' = s | Raise _ => True end)).
  { case_decide; (apply wp_numpy; [done|done]). }
  intros ? [znom2|e]; [intros ->|done].
  (* the slices of the opinion column *)
  rewrite (getitem_slice_col zs nz (N + 1) 0 nz1 k) by (done || lia).
  apply wp_bind, wp_numpy; [intros z1_k Hz1|done].
  assert (slice_of_column zs nz 0 nz1 k z1_k) as Sz1
    by (injection Hz1 as <-; by split).
  clear Hz1.
  rewrite (getitem_slice_col zs nz (N + 1) nz1 (nz1 + nz2) k) by (done || lia).
  apply wp_bind, wp_numpy; [intros z2_k Hz2|done].
  assert (slice_of_column zs nz nz1 (nz1 + nz2) k z2_k) as Sz2
    by (injection Hz2 as <-; by split).
  clear Hz2.
  rewrite (getitem_slice_col zs nz (N + 1) (nz1 + nz2) (nz1 + nz2 + 1) k)
    by (done || lia).
  apply wp_bind, wp_numpy; [intros att1_k Ha1|done].
  assert (slice_of_column zs nz (nz1 + nz2) (nz1 + nz2 + 1) k att1_k) as Sa1
    by (injection Ha1 as <-; by split).
  clear Ha1.
  apply wp_bind, wp_numpy; [intros att2_k Hatt2|done].
  destruct (getitem_last_col zs att2_k nz (N + 1) k Hzs ltac:(lia) Hatt2)
    as [_ Hatt2'].
  apply wp_bind, wp_gets. apply wp_bind, wp_gets.
  rewrite Hme.
  (* the dispatch on the method *)
  set (sg := mk_subgame _ _ _ _ _ _ _ _ _).
  rewrite (getitem_col xs nx (N + 1) k) by (done || lia).
  set (x_k := np.mk [nx] (λ i, np.at_ xs [hd 0%nat i; k])).
  apply wp_bind.
  apply (wp_mono _ (λ s' r,
           match r with
           | Ok u_list =>
               unchanged s s'
               ∧ ∃ u1 u2 w1 w1' w2 w2',
                   u_list = [u1; u2]
                   ∧ if String.eqb (_method me) "QMDPL0" then
                       plan_level_0 env 1 x_k z1_k z2_k (_subgames me) w1
                       = inr (w1', u1)
                       ∧ plan_level_0 env 2 x_k z2_k z1_k (_subgames me) w2
                         = inr (w2', u2)
                     else if String.eqb (_method me) "QMDPL1" then
                       plan_level_1 env 1 x_k z1_k z2_k att1_k att2_k
                         (_subgames me) sg w1 = inr (w1', u1)
                       ∧ plan_level_1 env 2 x_k z2_k z1_k att2_k att1_k
                           (_subgames me) sg w2 = inr (w2', u2)
                     else
                       _method me = "QMDPL1L0"
                       ∧ plan_level_1 env 1 x_k z1_k z2_k att1_k att2_k
                           (_subgames me) sg w1 = inr (w1', u1)
                       ∧ plan_level_0 env 2 x_k z2_k z1_k (_subgames me) w2
                         = inr (w2', u2)
           | Raise _ => True
           end)).
  { destruct (String.eqb (_method me) "QMDPL0") eqn:E0;
      [|destruct (String.eqb (_method me) "QMDPL1") eqn:E1;
        [|destruct (String.eqb (_method me) "QMDPL1L0") eqn:E2]].
    - apply wp_bind, wp_numpy; [intros ? [= <-]|done].
      apply wp_bind, wp_call; [intros w1 u1 Hc1|done].
      apply wp_bind, wp_numpy; [intros ? [= <-]|done].
      apply wp_bind, wp_call; [intros w2 u2 Hc2|done].
      apply wp_ret. split; [done|]. by eexists u1, u2, _, w1, _, w2.
    - apply wp_bind, wp_numpy; [intros ? [= <-]|done].
      apply wp_bind, wp_call; [intros w1 u1 Hc1|done].
      apply wp_bind, wp_numpy; [intros ? [= <-]|done].
      apply wp_bind, wp_call; [intros w2 u2 Hc2|done].
      apply wp_ret. split; [done|]. by eexists u1, u2, _, w1, _, w2.
    - apply String.eqb_eq in E2.
      apply wp_bind, wp_numpy; [intros ? [= <-]|done].
      apply wp_bind, wp_call; [intros w1 u1 Hc1|done].
      apply wp_bind, wp_numpy; [intros ? [= <-]|done].
      apply wp_bind, wp_call; [intros w2 u2 Hc2|done].
      apply wp_ret. split; [done|]. by eexists u1, u2, _, w1, _, w2.
    - by apply wp_raise. }
  intros s2 [u_list|e]; [|done].
  intros [[Hself2 Hcalls2] (u1 & u2 & w1 & w1' & w2 & w2' & Hu & Hmeth)].
  rewrite Hme in Hself2. rewrite Hcalls in Hcalls2.
  (* the opinion dynamics *)
  apply wp_bind, wp_numpy; [intros ? [= <-]|done].
  rewrite (getitem_col zs nz (N + 1) k) by (done || lia).
  apply wp_bind, wp_numpy; [intros z_k [= <-]|done].
  apply wp_bind, wp_numpy; [intros x_jnt _|done].
  apply wp_bind, wp_call;
    [intros w3 [[[z_dot_k H_k] PoI1_k] PoI2_k] _|done].
  apply wp_bind, wp_record_call.
  apply wp_bind, wp_numpy; [intros z_k' _|done].
  apply wp_bind, wp_numpy; [intros z_next _|done].
  apply wp_bind, wp_numpy; [intros zs' Hzs'|done].
  apply wp_bind, wp_numpy; [intros Hs' HHs'|done].
  apply wp_bind, wp_numpy; [intros PoI_k HPoI_k|done].
  apply wp_bind, wp_numpy; [intros PoI' HPoI'|done].
  apply wp_bind, wp_numpy; [intros ? [= <-]|done].
  apply wp_bind, wp_call; [intros w4 x_ph_next Hph|done].
  apply wp_bind, wp_numpy; [intros xs' Hxs'|done].
  apply wp_ret.
  (* the records after the step *)
  assert (∀ i col, col ≠ S k → np.at_ xs' [i; col] = np.at_ xs [i; col]) as Fxs.
  { replace (S k) with (k + 1)%nat by lia.
    apply (setitem_col_other xs x_ph_next xs' nx (N + 1) (k + 1)); (done || lia). }
  assert (∀ i col, col ≠ S k → np.at_ zs' [i; col] = np.at_ zs [i; col]) as Fzs.
  { replace (S k) with (k + 1)%nat by lia.
    apply (setitem_col_other zs z_next zs' nz (N + 1) (k + 1)); (done || lia). }
  assert (∀ i i' col, col ≠ k →
            np.at_ Hs' [i; i'; col] = np.at_ Hs [i; i'; col]) as FHs.
  { by apply (setitem_slab_other Hs H_k Hs' (nz1 + nz2) (nz1 + nz2) N k). }
  assert (∀ i col, col ≠ k → np.at_ PoI' [i; col] = np.at_ PoI [i; col])
    as FPoI.
  { by apply (setitem_col_other PoI PoI_k PoI' 2 N k). }
  split; [intros i Hi; cbn; rewrite Fxs by lia; by apply Hx0|].
  split; [intros i Hi; cbn; rewrite Fzs by lia; by apply Hz0|].
  eexists (new ++ [_]).
  split; [cbn; rewrite Hcalls2; by rewrite <- app_assoc|].
  split; [rewrite length_app; cbn; lia|].
  intros j c Hj. cbn.
  destruct (decide (j < length new)%nat) as [Hlt|Hge].
  - rewrite lookup_app_l in Hj by done.
    apply (step_record_frame me xs zs Hs PoI xs' zs' Hs' PoI' nx nz j k c);
      [lia|done..|]. by apply Hrec.
  - rewrite lookup_app_r in Hj by lia.
    assert (j = k) as -> by (apply lookup_lt_Some in Hj; cbn in Hj; lia).
    rewrite Hlen, Nat.sub_diag in Hj. injection Hj as <-.
    unfold step_record. cbn [call_H call_PoI1 call_PoI2 call_subgame].
    fold nz1 nz2.
    destruct (setitem_pair PoI PoI' PoI1_k PoI2_k PoI_k N k HPoI Hk
                HPoI_k HPoI') as (Hp1 & Hp2 & HP1 & HP2).
    split.
    { intros i i' Hi Hi'.
      by apply (setitem_slab_same Hs H_k Hs' (nz1 + nz2) (nz1 + nz2) N k). }
    do 4 (split; [done|]).
    eexists x_k, u_list, _, w4, x_ph_next.
    split; [|split; [|split; [exact Hph|]]].
    + split; [done|]. intros r. cbn. by rewrite Fxs by lia.
    + exists z1_k, z2_k, att1_k, att2_k, u1, u2, w1, w1', w2, w2'.
      split; [done|].
      destruct Sz1 as [? Hz1], Sz2 as [? Hz2], Sa1 as [? Ha1].
      split; [split; [done|]; intros r; rewrite Hz1; by rewrite Fzs by lia|].
      split; [split; [done|]; intros r; rewrite Hz2; by rewrite Fzs by lia|].
      split; [split; [done|]; intros r; rewrite Ha1; by rewrite Fzs by lia|].
      split; [|done].
      destruct Hatt2' as [? Hat]. split; [done|].
      intros r. rewrite Hat. by rewrite Fzs by lia.
    + intros i Hi.
      by rewrite (setitem_col_same xs x_ph_next xs' nx (N + 1) (k + 1))
        by (done || lia).
Qed.

(** The whole of [plan], for what it records. *)
Lemma plan_records_spec (x0 z0 : np.ndarray T) s :
  wp (plan env x0 z0)
     (λ s' r, match r with
              | Ok _ =>
                  ∃ nx nz xs zs Hs PoI,
                    np.len x0 = inr nx ∧ np.len z0 = inr nz
                    ∧ RHCPlanner.xs (self s') = Some xs
                    ∧ RHCPlanner.zs (self s') = Some zs
                    ∧ RHCPlanner.Hs (self s') = Some Hs
                    ∧ RHCPlanner.PoI (self s') = Some PoI
                    ∧ plan_records env x0 z0 nx nz (self s) (GiNOD_calls s)
                        (_N_sim (self s)) (xs, zs, Hs, PoI) s'
              | Raise _ => True
              end) s.
Proof.
  unfold plan.
  apply wp_bind, wp_numpy; [intros nx Hnx|done].
  apply wp_bind, wp_numpy; [intros nz Hnz|done].
  apply wp_bind, wp_gets.
  apply wp_bind, wp_numpy; [intros xs0 Hxs|done].
  apply wp_bind, wp_numpy; [intros zs0 Hzs|done].
  apply wp_bind. eapply wp_mono.
  { apply (wp_for_range _
             (λ k l s', plan_inv env z0 nx nz (_N_sim (self s)) (self s)
                          (GiNOD_calls s) k l s'
                        ∧ plan_records env x0 z0 nx nz (self s)
                            (GiNOD_calls s) k l s')
             (λ _ _, True)).
    - split.
      + split; [done|]. split.
        { repeat split; cbn; [by rewrite (setitem_shape _ _ _ _ Hxs)
                             |by rewrite (setitem_shape _ _ _ _ Hzs)]. }
        split; [lia|]. exists []. by rewrite app_nil_r.
      + split; [|split].
        * intros i Hi. cbn.
          by rewrite (setitem_col_same (np.zeros [nx; (_N_sim (self s) + 1)%nat])
                        x0 xs0 nx (_N_sim (self s) + 1) 0
                        eq_refl ltac:(lia) Hxs i Hi).
        * intros i Hi. cbn.
          by rewrite (setitem_col_same (np.zeros [nz; (_N_sim (self s) + 1)%nat])
                        z0 zs0 nz (_N_sim (self s) + 1) 0
                        eq_refl ltac:(lia) Hzs i Hi).
        * exists []. by rewrite app_nil_r.
    - intros k l s1 Hk [Hinv Hrec]. eapply wp_mono.
      + apply wp_conj;
          [by apply (plan_step_spec env z0 nx nz (_N_sim (self s)))
          |by apply (plan_step_records x0 z0 nx nz (_N_sim (self s)) (self s)
                       (GiNOD_calls s))].
      + intros s' [l'|e]; [|done]. intros [Hinv' Hrec']. done. }
  intros s1 [[[[xs' zs'] Hs'] PoI']|e]; [|done]. intros [_ Hrec].
  apply wp_modify. exists nx, nz, xs', zs', Hs', PoI'.
  cbn. do 6 (split; [done|]).
  destruct Hrec as (? & ? & new & ? & ? & ?).
  do 2 (split; [done|]). by exists new.
Qed.

Lemma plan_Ok_records (x0 z0 : np.ndarray T) s :
  (plan env x0 z0 s).2 = Ok tt →
  ∃ nx nz xs zs Hs PoI new,
    np.len x0 = inr nx ∧ np.len z0 = inr nz
    ∧ RHCPlanner.xs (self (plan env x0 z0 s).1) = Some xs
    ∧ RHCPlanner.zs (self (plan env x0 z0 s).1) = Some zs
    ∧ RHCPlanner.Hs (self (plan env x0 z0 s).1) = Some Hs
    ∧ RHCPlanner.PoI (self (plan env x0 z0 s).1) = Some PoI
    ∧ (∀ i, (i < nx)%nat →
         np.at_ xs [i; 0%nat] = np.at_ (np.broadcast_to x0 [nx]) [i])
    ∧ (∀ i, (i < nz)%nat →
         np.at_ zs [i; 0%nat] = np.at_ (np.broadcast_to z0 [nz]) [i])
    ∧ GiNOD_calls (plan env x0 z0 s).1 = GiNOD_calls s ++ new
    ∧ ∀ k, (k < _N_sim (self s))%nat →
        ∃ c, new !! k = Some c
             ∧ step_record env (self s) xs zs Hs PoI nx nz k c.
Proof.
  intros Hr. pose proof (plan_records_spec x0 z0 s) as Hp.
  unfold wp in Hp. rewrite Hr in Hp.
  destruct Hp as (nx & nz & xs & zs & Hs & PoI & ? & ? & ? & ? & ? & ?
                  & Hx0 & Hz0 & new & Hcalls & Hlen & Hrec).
  exists nx, nz, xs, zs, Hs, PoI, new. do 6 (split; [done|]).
  split; [done|]. split; [done|]. split; [done|].
  intros k Hk. destruct (lookup_lt_is_Some_2 new k) as [c Hc]; [lia|].
  exists c. split; [done|]. by apply Hrec.
Qed.

End PlanRecords.

Section MatrixBroadcast.
Context {T : Type} `{Scalar T}.

(** Broadcasting a matrix to its own shape reads it as it is. *)
Lemma broadcast_to_matrix (a : np.ndarray T) (n m i j : nat) :
  np.shape a = [n; m] → (i < n)%nat → (j < m)%nat →
  np.at_ (np.broadcast_to a [n; m]) [i; j] = np.at_ a [i; j].
Proof.
  intros Ha Hi Hj. cbn. rewrite Ha. cbn. unfold np.bindex1.
  repeat case_decide; try done.
  - by replace i with 0%nat by lia; replace j with 0%nat by lia.
  - by replace i with 0%nat by lia.
  - by replace j with 0%nat by lia.
Qed.

End MatrixBroadcast.

(** X20.  After a completed call of [plan(x0, z0)] the first columns of
    the stored trajectories are the initial vectors: [xs[:, 0]] is [x0]
    and [zs[:, 0]] is [z0], broadcast to the column as NumPy does, and
    hence entry by entry when they are vectors. *)
Theorem plan_initial_columns {T : Type} `{Scalar T} {W E U Solver : Type}
    (env : RHCPlanner.collaborators (T:=T) (W:=W) (E:=E) (U:=U) (Solver:=Solver))
    (x0 z0 : np.ndarray T) (s : RHCPlanner.state) :
  let s' := (RHCPlanner.plan env x0 z0 s).1 in
  (RHCPlanner.plan env x0 z0 s).2 = RHCPlanner.Ok tt →
  ∃ nx nz xs zs,
    np.len x0 = inr nx ∧ np.len z0 = inr nz
    ∧ RHCPlanner.xs (RHCPlanner.self s') = Some xs
    ∧ RHCPlanner.zs (RHCPlanner.self s') = Some zs
    ∧ (∀ i, (i < nx)%nat →
         np.at_ xs [i; 0%nat] = np.at_ (np.broadcast_to x0 [nx]) [i])
    ∧ (∀ i, (i < nz)%nat →
         np.at_ zs [i; 0%nat] = np.at_ (np.broadcast_to z0 [nz]) [i])
    ∧ (np.shape x0 = [nx] →
       ∀ i, (i < nx)%nat → np.at_ xs [i; 0%nat] = np.at_ x0 [i])
    ∧ (np.shape z0 = [nz] →
       ∀ i, (i < nz)%nat → np.at_ zs [i; 0%nat] = np.at_ z0 [i]).
Proof.
  intros s' Hr.
  apply plan_Ok_records in Hr
    as (nx & nz & xs & zs & Hs & PoI & new & Hnx & Hnz & Hxs & Hzs & _ & _
        & Hx0 & Hz0 & _).
  exists nx, nz, xs, zs. do 6 (split; [done|]). split.
  - intros Hsh i Hi. by rewrite Hx0, broadcast_to_vector.
  - intros Hsh i Hi. by rewrite Hz0, broadcast_to_vector.
Qed.

(** X21.  In a completed call of [plan], the Hessian the
    opinion-dynamics model returns at step [k] is stored, broadcast as
    NumPy does, in [Hs[:, :, k]], and the two PoI values it returns are
    scalars and are stored in [PoI[0, k]] and [PoI[1, k]]. *)
Theorem plan_records_model_outputs {T : Type} `{Scalar T}
    {W E U Solver : Type}
    (env : RHCPlanner.collaborators (T:=T) (W:=W) (E:=E) (U:=U) (Solver:=Solver))
    (x0 z0 : np.ndarray T) (s : RHCPlanner.state) :
  let s' := (RHCPlanner.plan env x0 z0 s).1 in
  let n := (RHCPlanner._num_opn_P1 env + RHCPlanner._num_opn_P2 env)%nat in
  (RHCPlanner.plan env x0 z0 s).2 = RHCPlanner.Ok tt →
  ∃ Hs PoI new,
    RHCPlanner.Hs (RHCPlanner.self s') = Some Hs
    ∧ RHCPlanner.PoI (RHCPlanner.self s') = Some PoI
    ∧ RHCPlanner.GiNOD_calls s' = RHCPlanner.GiNOD_calls s ++ new
    ∧ ∀ k, (k < RHCPlanner._N_sim (RHCPlanner.self s))%nat →
        ∃ c, new !! k = Some c
             ∧ (∃ w w',
                  RHCPlanner.cont_time_dyn env (RHCPlanner.call_x_jnt c)
                    (RHCPlanner.call_subgame c) w
                  = inr (w', (RHCPlanner.call_z_dot c, RHCPlanner.call_H c,
                              RHCPlanner.call_PoI1 c, RHCPlanner.call_PoI2 c)))
             ∧ (∀ i j, (i < n)%nat → (j < n)%nat →
                  np.at_ Hs [i; j; k]
                  = np.at_ (np.broadcast_to (RHCPlanner.call_H c) [n; n])
                      [i; j])
             ∧ (np.shape (RHCPlanner.call_H c) = [n; n] →
                ∀ i j, (i < n)%nat → (j < n)%nat →
                  np.at_ Hs [i; j; k] = np.at_ (RHCPlanner.call_H c) [i; j])
             ∧ np.shape (RHCPlanner.call_PoI1 c) = []
             ∧ np.shape (RHCPlanner.call_PoI2 c) = []
             ∧ np.at_ PoI [0%nat; k] = np.at_ (RHCPlanner.call_PoI1 c) []
             ∧ np.at_ PoI [1%nat; k] = np.at_ (RHCPlanner.call_PoI2 c) [].
Proof.
  intros s' n Hr.
  pose proof (plan_Ok env x0 z0 s tt Hr)
    as (nx' & nz' & xs' & zs' & Hs' & PoI' & _ & _ & _ & _ & _
        & new' & Hcalls' & _ & Hfacts).
  apply plan_Ok_records in Hr
    as (nx & nz & xs & zs & Hs & PoI & new & _ & _ & _ & _ & HHs & HPoI
        & _ & _ & Hcalls & Hrec).
  fold s' in HHs, HPoI, Hcalls, Hcalls'.
  rewrite Hcalls in Hcalls'. apply app_inv_head in Hcalls' as <-.
  exists Hs, PoI, new. do 3 (split; [done|]). intros k Hk.
  destruct (Hrec k Hk) as (c & Hc & HH & Hp1 & Hp2 & HP1 & HP2 & _).
  exists c. split; [done|].
  destruct (Hfacts k c Hc) as (_ & _ & _ & _ & Hdyn & _).
  split; [done|]. split; [done|]. split; [|done].
  intros Hsh i j Hi Hj. fold n in HH.
  by rewrite HH, broadcast_to_matrix.
Qed.

(** X22.  In a completed call of [plan], at every step [k < N_sim] the
    physical system is advanced from the column [xs[:, k]] with a list of
    two controls, and the state it returns is the next column
    [xs[:, k + 1]], broadcast to the column as NumPy does, and hence entry
    by entry when it is a vector of the length of the column. *)
Theorem plan_physical_step {T : Type} `{Scalar T} {W E U Solver : Type}
    (env : RHCPlanner.collaborators (T:=T) (W:=W) (E:=E) (U:=U) (Solver:=Solver))
    (x0 z0 : np.ndarray T) (s : RHCPlanner.state) :
  let s' := (RHCPlanner.plan env x0 z0 s).1 in
  (RHCPlanner.plan env x0 z0 s).2 = RHCPlanner.Ok tt →
  ∃ nx xs,
    np.len x0 = inr nx
    ∧ RHCPlanner.xs (RHCPlanner.self s') = Some xs
    ∧ ∀ k, (k < RHCPlanner._N_sim (RHCPlanner.self s))%nat →
        ∃ x_k u1 u2 w w' x_next,
          column_of xs nx k x_k
          ∧ RHCPlanner.disc_time_dyn env x_k [u1; u2] w = inr (w', x_next)
          ∧ (∀ i, (i < nx)%nat →
               np.at_ xs [i; (k + 1)%nat]
               = np.at_ (np.broadcast_to x_next [nx]) [i])
          ∧ (np.shape x_next = [nx] →
             ∀ i, (i < nx)%nat →
               np.at_ xs [i; (k + 1)%nat] = np.at_ x_next [i]).
Proof.
  intros s' Hr.
  apply plan_Ok_records in Hr
    as (nx & nz & xs & zs & Hs & PoI & new & Hnx & _ & Hxs & _ & _ & _
        & _ & _ & _ & Hrec).
  exists nx, xs. do 2 (split; [done|]). intros k Hk.
  destruct (Hrec k Hk)
    as (c & _ & _ & _ & _ & _ & _ & x_k & u_list & w & w' & x_next
        & Hcol & Hctl & Hph & Hnext).
  destruct Hctl as (_ & _ & _ & _ & u1 & u2 & _ & _ & _ & _ & -> & _).
  exists x_k, u1, u2, w, w', x_next. do 3 (split; [done|]).
  intros Hsh i Hi. by rewrite Hnext, broadcast_to_vector.
Qed.

(** X23.  In a completed call of [plan], the two controls handed to the
    physical system at step [k] are what the action planners of player 1
    and player 2 return: both called at level 0 under ['QMDPL0'], both at
    level 1 under ['QMDPL1'], player 1 at level 1 and player 2 at level 0
    under ['QMDPL1L0'].  Each is called on [xs[:, k]] and the slices of
    [zs[:, k]], own opinions first, and at level 1 also on the attention
    entries and on the bundle handed to the opinion-dynamics model at that
    step. *)
Theorem plan_controls_by_method {T : Type} `{Scalar T} {W E U Solver : Type}
    (env : RHCPlanner.collaborators (T:=T) (W:=W) (E:=E) (U:=U) (Solver:=Solver))
    (x0 z0 : np.ndarray T) (s : RHCPlanner.state) :
  let s' := (RHCPlanner.plan env x0 z0 s).1 in
  (RHCPlanner.plan env x0 z0 s).2 = RHCPlanner.Ok tt →
  ∃ nx nz xs zs new,
    np.len x0 = inr nx ∧ np.len z0 = inr nz
    ∧ RHCPlanner.xs (RHCPlanner.self s') = Some xs
    ∧ RHCPlanner.zs (RHCPlanner.self s') = Some zs
    ∧ RHCPlanner.GiNOD_calls s' = RHCPlanner.GiNOD_calls s ++ new
    ∧ ∀ k, (k < RHCPlanner._N_sim (RHCPlanner.self s))%nat →
        ∃ c x_k u_list w w' x_next,
          new !! k = Some c
          ∧ column_of xs nx k x_k
          ∧ controls env (RHCPlanner.self s) zs nz k x_k
              (RHCPlanner.call_subgame c) u_list
          ∧ RHCPlanner.disc_time_dyn env x_k u_list w = inr (w', x_next).
Proof.
  intros s' Hr.
  apply plan_Ok_records in Hr
    as (nx & nz & xs & zs & Hs & PoI & new & Hnx & Hnz & Hxs & Hzs & _ & _
        & _ & _ & Hcalls & Hrec).
  exists nx, nz, xs, zs, new. do 5 (split; [done|]). intros k Hk.
  destruct (Hrec k Hk)
    as (c & Hc & _ & _ & _ & _ & _ & x_k & u_list & w & w' & x_next
        & Hcol & Hctl & Hph & _).
  by exists c, x_k, u_list, w, w', x_next.
Qed.

(** ** [PlayerCost.quadraticize_jitted] *)

Section TotalsOfArrays.
Context {T : Type} `{Scalar T}.
Local Open Scope scalar_scope.

Lemma bindex_in_range (sh r : list nat) :
  Forall2 lt r sh → np.bindex sh r = r.
Proof.
  intros Hr. unfold np.bindex.
  rewrite (Forall2_length _ _ _ Hr), Nat.sub_diag. cbn. rewrite drop_0.
  induction Hr as [|j d r sh Hj _ IH]; [done|].
  cbn. rewrite IH. f_equal. unfold np.bindex1. case_decide; lia.
Qed.

Lemma broadcast_rev_same (l : list nat) : np.broadcast_rev l l = Some l.
Proof.
  induction l as [|d l IH]; [done|].
  cbn. rewrite decide_True by done. cbn. by rewrite IH.
Qed.

Lemma broadcast_shapes_same (sh : list nat) :
  np.broadcast_shapes sh sh = Some sh.
Proof.
  unfold np.broadcast_shapes. rewrite broadcast_rev_same. cbn.
  by rewrite reverse_involutive.
Qed.

Lemma add_weighted_holds (sh : list nat) (t : total) (w : T)
    (a : np.ndarray T) (g : list nat → T) :
  total_holds sh t g → np.shape a = sh →
  ∃ c, add_weighted t w a = Some (TArray c)
       ∧ holds sh c (λ r, g r + w * np.at_ a r).
Proof.
  intros Ht Ha. destruct t as [v|b]; cbn in Ht |- *.
  - eexists. split; [done|]. split; [done|].
    intros r _. cbn. by rewrite Ht.
  - destruct Ht as [Hb Hat]. unfold np.add. cbn [np.shape np.scale].
    rewrite Hb, Ha, broadcast_shapes_same.
    eexists. split; [done|]. split; [done|].
    intros r Hr. cbn. rewrite bindex_in_range by done. by rewrite Hat.
Qed.

Lemma entry_column (a : list (list T)) (i k : nat) :
  entry (column a k) i = default 0 (row ← a !! i; row !! k).
Proof.
  unfold entry, column. rewrite list_lookup_fmap.
  by destruct (a !! i) as [row|]; cbn; [destruct (row !! k)|].
Qed.

Lemma entry2_slab (a : list (list (list T))) (i j k : nat) :
  entry2 (slab a k) i j
  = default 0 (plane ← a !! i; row ← plane !! j; row !! k).
Proof.
  unfold entry2, slab. rewrite list_lookup_fmap.
  destruct (a !! i) as [plane|]; cbn; [|done].
  apply (entry_column plane j k).
Qed.

Lemma player_add_length (total : PlayerCost.value T) (a : list T) (N : nat) :
  match total with
  | PlayerCost.Float _ => True
  | PlayerCost.Array b => length b = N
  end →
  length a = N →
  ∃ b, PlayerCost.add total a = Some (PlayerCost.Array b) ∧ length b = N.
Proof.
  intros Ht Ha. destruct total as [v|b]; cbn.
  - eexists. split; [done|]. by rewrite length_fmap.
  - rewrite decide_True by lia. eexists. split; [done|].
    rewrite length_zip_with_l_eq; lia.
Qed.

End TotalsOfArrays.

Section QuadraticizeFacts.
Context {T : Type} `{Scalar T}.
Local Open Scope scalar_scope.
Variables (x ui : list (list T)) (N nx nu : nat).
Hypothesis Hx : has_shape2 nx N x.
Hypothesis Hu : has_shape2 nu N ui.

Lemma get_traj_cost_evaluates (c : Cost.t T) :
  Cost._horizon (Cost.base c) = N →
  ((0 < N)%nat →
   (∀ k, (k < N)%nat →
      is_Some (Cost.get_cost c (column x k) (column ui k) k)) →
   is_Some (Cost.get_traj_cost c x ui))
  ∧ ∀ traj, Cost.get_traj_cost c x ui = Some traj →
      length traj = N
      ∧ ∀ k, (k < N)%nat →
          is_Some (Cost.get_cost c (column x k) (column ui k) k).
Proof using Type*.
  intros HN. destruct (decide (N = 0%nat)) as [->|Hpos].
  { rewrite get_traj_cost_horizon_zero by done. split; [lia|done]. }
  destruct Hx as [_ HxN], Hu as [_ HuN].
  rewrite <- HN in HxN, HuN.
  rewrite (get_traj_cost_eq c x ui ltac:(lia) HxN HuN). rewrite HN.
  unfold pointwise_costs. split.
  - intros _ Hall. apply mapM_is_Some_2, Forall_forall.
    intros k Hk%elem_of_seq. apply Hall. lia.
  - intros traj Htraj. split.
    { apply length_mapM in Htraj. by rewrite length_seq in Htraj. }
    intros k Hk.
    assert (is_Some (mapM (λ k, Cost.get_cost c (column x k) (column ui k) k)
                       (seq 0 N))) as Hs by (by rewrite Htraj).
    apply mapM_is_Some_1 in Hs. rewrite Forall_forall in Hs.
    apply (Hs k). apply elem_of_seq. lia.
Qed.

Lemma quadraticize_term_spec (c : Cost.t T) (w : T) (acc : totals)
    (gx gu gxx guu : list nat → T) :
  uniform N nx nu c →
  match total_cost acc with
  | PlayerCost.Float _ => True
  | PlayerCost.Array b => length b = N
  end →
  total_holds [nx; N] (total_dcdx acc) gx →
  total_holds [nu; N] (total_dcdu acc) gu →
  total_holds [nx; nx; N] (total_Hxx acc) gxx →
  total_holds [nu; nu; N] (total_Huu acc) guu →
  ((0 < N)%nat → evaluates N x ui c →
   is_Some (quadraticize_term c w x ui acc))
  ∧ ∀ acc', quadraticize_term c w x ui acc = Some acc' →
      evaluates N x ui c
      ∧ (∃ b, total_cost acc' = PlayerCost.Array b ∧ length b = N)
      ∧ array_holds [nx; N] (total_dcdx acc')
          (λ r, gx r + w * entry (grad_at c x ui (hd 0%nat (tl r))).1
                             (hd 0%nat r))
      ∧ array_holds [nu; N] (total_dcdu acc')
          (λ r, gu r + w * entry (grad_at c x ui (hd 0%nat (tl r))).2
                             (hd 0%nat r))
      ∧ array_holds [nx; nx; N] (total_Hxx acc')
          (λ r, gxx r + w * entry2 (hess_at c x ui (hd 0%nat (tl (tl r)))).1
                              (hd 0%nat r) (hd 0%nat (tl r)))
      ∧ array_holds [nu; nu; N] (total_Huu acc')
          (λ r, guu r + w * entry2 (hess_at c x ui (hd 0%nat (tl (tl r)))).2
                              (hd 0%nat r) (hd 0%nat (tl r))).
Proof using Type*.
  intros (HN & Hnx & Hnu) Hcost Hgx Hgu Hgxx Hguu.
  destruct (get_traj_cost_evaluates c HN) as [Hc1 Hc2].
  assert (has_shape2 (Cost._x_dim (Cost.base c)) N x) as Hx' by (by rewrite Hnx).
  assert (has_shape2 (Cost._ui_dim (Cost.base c)) N ui) as Hu'
    by (by rewrite Hnu).
  destruct (get_traj_grad_loop c x ui N HN Hx' Hu') as [Hg1 Hg2].
  destruct (get_traj_hess_loop c x ui N HN Hx' Hu') as [Hh1 Hh2].
  unfold quadraticize_term. rewrite HN, Hnx, Hnu.
  destruct (Cost.get_traj_cost c x ui) as [traj|] eqn:Etraj.
  2:{ split; [|done]. intros Hpos Hev.
      destruct Hc1 as [? ?]; [done|intros k Hk; by apply Hev|done]. }
  destruct (Hc2 traj eq_refl) as [Hlen Hcs].
  cbn [mbind option_bind].
  destruct (player_add_length (total_cost acc) (PlayerCost.scale w traj) N
              Hcost) as (b & -> & Hb);
    [unfold PlayerCost.scale; by rewrite length_fmap|].
  cbn [mbind option_bind].
  destruct (Cost.get_traj_grad c x ui) as [[dcdx dcdu]|] eqn:Egrad.
  2:{ split; [|done]. intros Hpos Hev.
      destruct Hg1 as [? ?]; [done|intros k Hk; by apply Hev|done]. }
  destruct (Hg2 dcdx dcdu eq_refl) as (_ & _ & Hgrad).
  cbn [mbind option_bind].
  destruct (add_weighted_holds [nx; N] (total_dcdx acc) w
              (array_of_rows nx N dcdx) gx Hgx eq_refl) as (ax & -> & Hax).
  cbn [mbind option_bind].
  destruct (add_weighted_holds [nu; N] (total_dcdu acc) w
              (array_of_rows nu N dcdu) gu Hgu eq_refl) as (au & -> & Hau).
  cbn [mbind option_bind].
  destruct (Cost.get_traj_hess c x ui) as [[Hxx Huu]|] eqn:Ehess.
  2:{ split; [|done]. intros Hpos Hev.
      destruct Hh1 as [? ?]; [done|intros k Hk; by apply Hev|done]. }
  destruct (Hh2 Hxx Huu eq_refl) as (_ & _ & Hhess).
  cbn [mbind option_bind].
  destruct (add_weighted_holds [nx; nx; N] (total_Hxx acc) w
              (array_of_planes nx nx N Hxx) gxx Hgxx eq_refl)
    as (axx & -> & Haxx).
  cbn [mbind option_bind].
  destruct (add_weighted_holds [nu; nu; N] (total_Huu acc) w
              (array_of_planes nu nu N Huu) guu Hguu eq_refl)
    as (auu & -> & Hauu).
  cbn [mbind option_bind].
  split; [by eauto|]. intros acc' [= <-].
  cbn [total_cost total_dcdx total_dcdu total_Hxx total_Huu].
  split.
  { intros k Hk. split; [by apply Hcs|].
    split; [rewrite (Hgrad k)|rewrite (Hhess k)]; (lia || by eexists). }
  split; [by exists b|].
  split.
  { exists ax. split; [done|]. destruct Hax as [? Hat]. split; [done|].
    intros r Hr. rewrite Hat by done. do 2 f_equal.
    apply Forall2_cons_inv_r in Hr as (i & r1 & Hi & Hr & ->).
    apply Forall2_cons_inv_r in Hr as (k & r2 & Hk & Hr & ->).
    cbn [hd tl np.at_ array_of_rows].
    unfold grad_at. rewrite (Hgrad k) by lia. symmetry. apply entry_column. }
  split.
  { exists au. split; [done|]. destruct Hau as [? Hat]. split; [done|].
    intros r Hr. rewrite Hat by done. do 2 f_equal.
    apply Forall2_cons_inv_r in Hr as (i & r1 & Hi & Hr & ->).
    apply Forall2_cons_inv_r in Hr as (k & r2 & Hk & Hr & ->).
    cbn [hd tl np.at_ array_of_rows].
    unfold grad_at. rewrite (Hgrad k) by lia. symmetry. apply entry_column. }
  split.
  { exists axx. split; [done|]. destruct Haxx as [? Hat]. split; [done|].
    intros r Hr. rewrite Hat by done. do 2 f_equal.
    apply Forall2_cons_inv_r in Hr as (i & r1 & Hi & Hr & ->).
    apply Forall2_cons_inv_r in Hr as (j & r2 & Hj & Hr & ->).
    apply Forall2_cons_inv_r in Hr as (k & r3 & Hk & Hr & ->).
    cbn [hd tl np.at_ array_of_planes].
    unfold hess_at. rewrite (Hhess k) by lia. symmetry. apply entry2_slab. }
  exists auu. split; [done|]. destruct Hauu as [? Hat]. split; [done|].
  intros r Hr. rewrite Hat by done. do 2 f_equal.
  apply Forall2_cons_inv_r in Hr as (i & r1 & Hi & Hr & ->).
  apply Forall2_cons_inv_r in Hr as (j & r2 & Hj & Hr & ->).
  apply Forall2_cons_inv_r in Hr as (k & r3 & Hk & Hr & ->).
  cbn [hd tl np.at_ array_of_planes].
  unfold hess_at. rewrite (Hhess k) by lia. symmetry. apply entry2_slab.
Qed.

Lemma array_total_holds (sh : list nat) (t : total) (g : list nat → T) :
  array_holds sh t g → total_holds sh t g.
Proof. by intros (a & -> & ?). Qed.

Lemma quadraticize_loop_spec (terms : list (Cost.t T * T)) :
  Forall (λ term, uniform N nx nu term.1) terms →
  ∀ (acc : totals) (gx gu gxx guu : list nat → T),
    match total_cost acc with
    | PlayerCost.Float _ => True
    | PlayerCost.Array b => length b = N
    end →
    array_holds [nx; N] (total_dcdx acc) gx →
    array_holds [nu; N] (total_dcdu acc) gu →
    array_holds [nx; nx; N] (total_Hxx acc) gxx →
    array_holds [nu; nu; N] (total_Huu acc) guu →
    ((0 < N)%nat → Forall (λ term, evaluates N x ui term.1) terms →
     is_Some (quadraticize_loop terms x ui acc))
    ∧ ∀ r, quadraticize_loop terms x ui acc = Some r →
        Forall (λ term, evaluates N x ui term.1) terms
        ∧ array_holds [nx; N] (total_dcdx r)
            (λ r, weighted_total terms
                    (λ c, entry (grad_at c x ui (hd 0%nat (tl r))).1
                            (hd 0%nat r)) (gx r))
        ∧ array_holds [nu; N] (total_dcdu r)
            (λ r, weighted_total terms
                    (λ c, entry (grad_at c x ui (hd 0%nat (tl r))).2
                            (hd 0%nat r)) (gu r))
        ∧ array_holds [nx; nx; N] (total_Hxx r)
            (λ r, weighted_total terms
                    (λ c, entry2 (hess_at c x ui (hd 0%nat (tl (tl r)))).1
                            (hd 0%nat r) (hd 0%nat (tl r))) (gxx r))
        ∧ array_holds [nu; nu; N] (total_Huu r)
            (λ r, weighted_total terms
                    (λ c, entry2 (hess_at c x ui (hd 0%nat (tl (tl r)))).2
                            (hd 0%nat r) (hd 0%nat (tl r))) (guu r)).
Proof using Type*.
  induction 1 as [|[c w] terms Hc _ IH];
    intros acc gx gu gxx guu Hcost Hgx Hgu Hgxx Hguu.
  { cbn. split; [by eauto|]. by intros r [= <-]. }
  cbn [quadraticize_loop].
  destruct (quadraticize_term_spec c w acc gx gu gxx guu Hc Hcost
              (array_total_holds _ _ _ Hgx) (array_total_holds _ _ _ Hgu)
              (array_total_holds _ _ _ Hgxx) (array_total_holds _ _ _ Hguu))
    as [Hs1 Hs2].
  destruct (quadraticize_term c w x ui acc) as [acc'|] eqn:Eacc.
  2:{ split; [|done]. intros Hpos Hev. inversion_clear Hev as [|? ? Hev1 _].
      destruct (Hs1 Hpos Hev1) as [? ?]. done. }
  cbn [mbind option_bind].
  destruct (Hs2 acc' eq_refl)
    as (Hev & (b & Hb & Hlen) & Hax & Hau & Haxx & Hauu).
  destruct (IH acc' _ _ _ _ ltac:(by rewrite Hb) Hax Hau Haxx Hauu)
    as [IH1 IH2].
  split.
  - intros Hpos Hall. inversion_clear Hall. by apply IH1.
  - intros r Hr. destruct (IH2 r Hr) as (? & ? & ? & ? & ?).
    split; [by constructor|done].
Qed.

(** The whole loop, from the floats it starts with. *)
Lemma quadraticize_spec (c : Cost.t T) (w : T)
    (terms : list (Cost.t T * T)) :
  Forall (λ term, uniform N nx nu term.1) ((c, w) :: terms) →
  let init := mk_totals (PlayerCost.Float 0) (TFloat 0) (TFloat 0) (TFloat 0)
                (TFloat 0) in
  ((0 < N)%nat →
   Forall (λ term, evaluates N x ui term.1) ((c, w) :: terms) →
   is_Some (quadraticize_loop ((c, w) :: terms) x ui init))
  ∧ ∀ r, quadraticize_loop ((c, w) :: terms) x ui init = Some r →
      Forall (λ term, evaluates N x ui term.1) ((c, w) :: terms)
      ∧ array_holds [nx; N] (total_dcdx r)
          (λ r, weighted_total ((c, w) :: terms)
                  (λ c, entry (grad_at c x ui (hd 0%nat (tl r))).1
                          (hd 0%nat r)) 0)
      ∧ array_holds [nu; N] (total_dcdu r)
          (λ r, weighted_total ((c, w) :: terms)
                  (λ c, entry (grad_at c x ui (hd 0%nat (tl r))).2
                          (hd 0%nat r)) 0)
      ∧ array_holds [nx; nx; N] (total_Hxx r)
          (λ r, weighted_total ((c, w) :: terms)
                  (λ c, entry2 (hess_at c x ui (hd 0%nat (tl (tl r)))).1
                          (hd 0%nat r) (hd 0%nat (tl r))) 0)
      ∧ array_holds [nu; nu; N] (total_Huu r)
          (λ r, weighted_total ((c, w) :: terms)
                  (λ c, entry2 (hess_at c x ui (hd 0%nat (tl (tl r)))).2
                          (hd 0%nat r) (hd 0%nat (tl r))) 0).
Proof using Type*.
  intros Huni init. inversion_clear Huni as [|? ? Hc Hrest].
  cbn [quadraticize_loop].
  destruct (quadraticize_term_spec c w init (λ _, 0) (λ _, 0) (λ _, 0)
              (λ _, 0) Hc I ltac:(done) ltac:(done) ltac:(done) ltac:(done))
    as [Hs1 Hs2].
  destruct (quadraticize_term c w x ui init) as [acc'|] eqn:Eacc.
  2:{ split; [|done]. intros Hpos Hev. inversion_clear Hev as [|? ? Hev1 _].
      destruct (Hs1 Hpos Hev1) as [? ?]. done. }
  cbn [mbind option_bind].
  destruct (Hs2 acc' eq_refl)
    as (Hev & (b & Hb & Hlen) & Hax & Hau & Haxx & Hauu).
  destruct (quadraticize_loop_spec terms Hrest acc' _ _ _ _
              ltac:(by rewrite Hb) Hax Hau Haxx Hauu) as [L1 L2].
  split.
  - intros Hpos Hall. inversion_clear Hall. by apply L1.
  - intros r Hr. destruct (L2 r Hr) as (? & ? & ? & ? & ?).
    split; [by constructor|done].
Qed.


End QuadraticizeFacts.


(** X25.  For registered terms whose costs share the horizon [N], of at
    least one, and the dimensions [nx] and [nu], on trajectory arrays of the shapes
    [(nx, N)] and [(nu, N)], [quadraticize_jitted] returns exactly when
    the cost, the gradient and the Hessian of every term can be evaluated
    at every time column.  The two totals of gradients it returns are
    arrays of the shapes [(nx, N)] and [(nu, N)] whose entry [i, k] is the
    weighted sum, in registration order, of the [i]-th entries of the
    terms' gradients at the columns [k] of [x] and [ui]. *)
Theorem quadraticize_gradients {T : Type} `{Scalar T}
    (terms : list (Cost.t T * PlayerCost.arg * T))
    (x ui : list (list T)) (N nx nu : nat) :
  let pairs := (λ t, (t.1.1, t.2)) <$> terms in
  terms ≠ [] →
  (0 < N)%nat →
  Forall (λ t, uniform N nx nu t.1.1) terms →
  has_shape2 nx N x → has_shape2 nu N ui →
  (is_Some (quadraticize_jitted (registered terms) x ui)
   ↔ Forall (λ t, evaluates N x ui t.1.1) terms)
  ∧ ∀ r, quadraticize_jitted (registered terms) x ui = Some r →
      ∃ dcdx dcdu,
        total_dcdx r = TArray dcdx ∧ total_dcdu r = TArray dcdu
        ∧ np.shape dcdx = [nx; N] ∧ np.shape dcdu = [nu; N]
        ∧ ∀ k, (k < N)%nat →
            (∀ i, (i < nx)%nat →
               np.at_ dcdx [i; k]
               = weighted_total pairs
                   (λ c, entry (grad_at c x ui k).1 i) 0%S)
            ∧ (∀ i, (i < nu)%nat →
                 np.at_ dcdu [i; k]
                 = weighted_total pairs
                     (λ c, entry (grad_at c x ui k).2 i) 0%S).
Proof.
  intros pairs Hne Hpos Huni Hx Hu. unfold quadraticize_jitted.
  rewrite registered_zip. fold pairs.
  assert (Forall (λ term, uniform N nx nu term.1) pairs) as Huni'.
  { unfold pairs. by apply Forall_fmap. }
  assert (Forall (λ term, evaluates N x ui term.1) pairs
          ↔ Forall (λ t, evaluates N x ui t.1.1) terms) as Hev.
  { unfold pairs. by rewrite Forall_fmap. }
  destruct pairs as [|[c w] rest] eqn:Epairs;
    [by destruct terms|].
  destruct (quadraticize_spec x ui N nx nu Hx Hu c w rest Huni')
    as [Hs1 Hs2].
  split; [split|].
  - intros [r Hr]. apply Hev. by destruct (Hs2 r Hr).
  - intros Hall. apply Hs1; [done|]. by apply Hev.
  - intros r Hr.
    destruct (Hs2 r Hr)
      as (_ & (dcdx & Hdx & Hshx & Hatx) & (dcdu & Hdu & Hshu & Hatu) & _).
    exists dcdx, dcdu. do 4 (split; [done|]). intros k Hk. split.
    + intros i Hi. rewrite Hatx; [done|]. by repeat constructor.
    + intros i Hi. rewrite Hatu; [done|]. by repeat constructor.
Qed.

(** X26.  Under the same conditions the two totals of Hessians that
    [quadraticize_jitted] returns are arrays of the shapes [(nx, nx, N)]
    and [(nu, nu, N)] whose entry [i, j, k] is the weighted sum, in
    registration order, of the entries [i, j] of the terms' Hessians at
    the columns [k] of [x] and [ui]. *)
Theorem quadraticize_hessians {T : Type} `{Scalar T}
    (terms : list (Cost.t T * PlayerCost.arg * T))
    (x ui : list (list T)) (N nx nu : nat) (r : totals) :
  let pairs := (λ t, (t.1.1, t.2)) <$> terms in
  terms ≠ [] →
  Forall (λ t, uniform N nx nu t.1.1) terms →
  has_shape2 nx N x → has_shape2 nu N ui →
  quadraticize_jitted (registered terms) x ui = Some r →
  ∃ Hxx Huu,
    total_Hxx r = TArray Hxx ∧ total_Huu r = TArray Huu
    ∧ np.shape Hxx = [nx; nx; N] ∧ np.shape Huu = [nu; nu; N]
    ∧ ∀ k, (k < N)%nat →
        (∀ i j, (i < nx)%nat → (j < nx)%nat →
           np.at_ Hxx [i; j; k]
           = weighted_total pairs
               (λ c, entry2 (hess_at c x ui k).1 i j) 0%S)
        ∧ (∀ i j, (i < nu)%nat → (j < nu)%nat →
             np.at_ Huu [i; j; k]
             = weighted_total pairs
                 (λ c, entry2 (hess_at c x ui k).2 i j) 0%S).
Proof.
  intros pairs Hne Huni Hx Hu. unfold quadraticize_jitted.
  rewrite registered_zip. fold pairs.
  assert (Forall (λ term, uniform N nx nu term.1) pairs) as Huni'.
  { unfold pairs. by apply Forall_fmap. }
  destruct pairs as [|[c w] rest] eqn:Epairs;
    [by destruct terms|].
  destruct (quadraticize_spec x ui N nx nu Hx Hu c w rest Huni')
    as [_ Hs2].
  intros Hr.
  destruct (Hs2 r Hr)
    as (_ & _ & _ & (Hxx & HHxx & Hshx & Hatx) & (Huu & HHuu & Hshu & Hatu)).
  exists Hxx, Huu. do 4 (split; [done|]). intros k Hk. split.
  - intros i j Hi Hj. rewrite Hatx; [done|]. by repeat constructor.
  - intros i j Hi Hj. rewrite Hatu; [done|]. by repeat constructor.
Qed.

(** * Worked instances

    The theorems above at concrete inputs: the two quadratic terms on a
    horizon of three steps, and the planner run with the stub
    collaborators. *)

Lemma player_get_cost_weighted_sum_witness :
  let trajs := [[((1 - 1) ^ 2)%R; ((2 - 1) ^ 2)%R; ((3 - 1) ^ 2)%R];
                [((4 - 0) ^ 2)%R; ((5 - 0) ^ 2)%R; ((6 - 0) ^ 2)%R]] in
  let total := weighted_sum 3 [2%R; (/ 2)%R] trajs in
  PlayerCost.get_cost (registered two_terms) traj_x traj_u 0
  = Some (PlayerCost.Array total)
  ∧ length total = 3%nat
  ∧ ∀ k', PlayerCost.get_cost (registered two_terms) traj_x traj_u k'
          = PlayerCost.get_cost (registered two_terms) traj_x traj_u 0.
Proof.
  apply (player_get_cost_weighted_sum two_terms traj_x traj_u 3 0).
  - discriminate.
  - repeat constructor.
  - constructor; [reflexivity|]. constructor; [reflexivity|]. constructor.
Defined.

Lemma get_traj_cost_pointwise_witness :
  Cost.get_traj_cost quadratic0 traj_x traj_u
  = pointwise_costs quadratic0 traj_x traj_u 3
  ∧ ∀ costs, Cost.get_traj_cost quadratic0 traj_x traj_u = Some costs →
      length costs = 3%nat
      ∧ ∀ k, (k < 3)%nat →
          ∃ v, costs !! k = Some v
               ∧ Cost.get_cost quadratic0 (column traj_x k) (column traj_u k) k
                 = Some v.
Proof.
  apply (get_traj_cost_pointwise quadratic0 traj_x traj_u 3).
  - reflexivity.
  - lia.
  - repeat constructor.
  - repeat constructor.
Defined.

Lemma quadratic_cost_grad_hess_witness :
  Cost.get_grad (Cost.QuadraticCost 1 2%R true base3) [3%R; 5%R] [7%R] 0
  = Some ([0%R; (2 * (5 - 2))%R], [0%R])
  ∧ Cost.get_hess (Cost.QuadraticCost 1 2%R true base3) [3%R; 5%R] [7%R] 0
    = Some ([[0%R; 0%R]; [0%R; 2%R]], [[0%R]]).
Proof.
  apply (quadratic_cost_grad_hess 1 2%R base3 [3%R; 5%R] [7%R] 0).
  simpl. lia.
Defined.

Lemma box_input_constraint_cost_witness :
  ∃ v, Cost.get_cost (Cost.BoxInputConstraintCost 0 (-1)%R 1%R 1%R 5%R base3)
         [0%R] [3%R] 0 = Some v
     ∧ v = (1 * (exp (5 * (3 - 1)) - 1) + 1 * (exp (5 * (-1 - 3)) - 1))%R
     ∧ ((0 < 1)%R → (0 < 5)%R →
          (- 2 * 1 <= v)%R
          ∧ ((1 + 1 / 5 <= 3)%R ∨ (3 <= -1 - 1 / 5)%R → (1 / 4 <= v)%R)
          ∧ (1 * (5 * (3 - 1)) - 2 * 1 <= v)%R
          ∧ (1 * (5 * (-1 - 3)) - 2 * 1 <= v)%R
          ∧ ((-1 <= 3 <= 1)%R → (v <= 0)%R)
          ∧ ((-1 + 1 / 5 <= 3 <= 1 - 1 / 5)%R → (v <= - 1)%R)
          ∧ ((-1 + 3 / 5 <= 3 <= 1 - 3 / 5)%R → (v <= - (7 / 4) * 1)%R)).
Proof.
  apply (box_input_constraint_cost 0 (-1)%R 1%R 1%R 5%R base3 [0%R] [3%R] 0 0).
  reflexivity.
Defined.

Lemma product_state_proximity_cost_capped_witness :
  ∃ x1 y1 x2 y2,
    jnp.get [0%R; 0%R; 0%R; 0%R] 0 = Some x1
    ∧ jnp.get [0%R; 0%R; 0%R; 0%R] 1 = Some y1
    ∧ jnp.get [0%R; 0%R; 0%R; 0%R] 2 = Some x2
    ∧ jnp.get [0%R; 0%R; 0%R; 0%R] 3 = Some y2
    ∧ let term (dx dy : R) :=
        Rmin (exp (Rmin (sqrt (dx ^ 2 + dy ^ 2) - 1) 0 ^ 2)) 100000%R in
      Cost.get_cost
        (Cost.ProductStateProximityCostTwoPlayer [(0, 1); (2, 3)]%Z 1%R base3)
        [0%R; 0%R; 0%R; 0%R] [] 0
      = Some (term (x1 - x2) (y1 - y2) + term (x2 - x1) (y2 - y1))%R
      ∧ (term (x1 - x2) (y1 - y2) <= 100000)%R
      ∧ (term (x2 - x1) (y2 - y1) <= 100000)%R
      ∧ (term (x1 - x2) (y1 - y2) + term (x2 - x1) (y2 - y1) <= 200000)%R.
Proof.
  apply (product_state_proximity_cost_capped (0, 1)%Z (2, 3)%Z [] 1%R base3
           [0%R; 0%R; 0%R; 0%R] [] 0).
  discriminate.
Defined.

Lemma plan_bundle_writes_in_bounds_witness :
  match (RHCPlanner.plan (Stub.env 2 2) Stub.x0 (Stub.z0 2 2)
           (Stub.initial 2 2 2 "QMDPL1")).2 with
  | RHCPlanner.Raise e => out_of_bounds_bundle_write e = false
  | RHCPlanner.Ok _ =>
      ∃ new,
        RHCPlanner.GiNOD_calls
          (RHCPlanner.plan (Stub.env 2 2) Stub.x0 (Stub.z0 2 2)
             (Stub.initial 2 2 2 "QMDPL1")).1
        = RHCPlanner.GiNOD_calls (Stub.initial 2 2 2 "QMDPL1") ++ new
        ∧ ∀ c, c ∈ new →
            np.shape (RHCPlanner.nom_cost1_k (RHCPlanner.call_subgame c))
            = [2; 2]%nat
            ∧ np.shape (RHCPlanner.nom_cost2_k (RHCPlanner.call_subgame c))
              = [2; 2]%nat
  end.
Proof.
  apply (plan_bundle_writes_in_bounds (Stub.env 2 2) Stub.x0 (Stub.z0 2 2)
           (Stub.initial 2 2 2 "QMDPL1")); simpl; lia.
Defined.

Lemma plan_opinion_references_witness :
  let s := Stub.initial 1 1 2 "QMDPL1L0" in
  let s' := (RHCPlanner.plan (Stub.env 1 1) Stub.x0 (Stub.z0 1 1) s).1 in
  ∃ nz zs new,
    np.len (Stub.z0 1 1) = inr nz
    ∧ RHCPlanner.zs (RHCPlanner.self s') = Some zs
    ∧ RHCPlanner.GiNOD_calls s' = RHCPlanner.GiNOD_calls s ++ new
    ∧ ∀ k, (k < 2)%nat →
        ∃ c, new !! k = Some c
             ∧ let sg := RHCPlanner.call_subgame c in
               match k with
               | O =>
                   np.getitem (Stub.z0 1 1) [np.Slice 0 1]
                   = inr (RHCPlanner.znom1_k sg)
                   ∧ np.getitem (Stub.z0 1 1) [np.Slice 1 (1 + 1)]
                     = inr (RHCPlanner.znom2_k sg)
               | S k' =>
                   slice_of_column zs nz 0 1 k' (RHCPlanner.znom1_k sg)
                   ∧ slice_of_column zs nz 1 (1 + 1) k' (RHCPlanner.znom2_k sg)
               end.
Proof.
  apply (plan_opinion_references (Stub.env 1 1) Stub.x0 (Stub.z0 1 1)
           (Stub.initial 1 1 2 "QMDPL1L0")).
  vm_compute. reflexivity.
Defined.

Lemma plan_result_shapes_witness :
  let s := Stub.initial 1 1 2 "QMDPL1L0" in
  let s' := (RHCPlanner.plan (Stub.env 1 1) Stub.x0 (Stub.z0 1 1) s).1 in
  ∃ xs zs Hs PoI,
    RHCPlanner.xs (RHCPlanner.self s') = Some xs
    ∧ RHCPlanner.zs (RHCPlanner.self s') = Some zs
    ∧ RHCPlanner.Hs (RHCPlanner.self s') = Some Hs
    ∧ RHCPlanner.PoI (RHCPlanner.self s') = Some PoI
    ∧ np.shape xs = [2; 3]%nat
    ∧ np.shape zs = [4; 3]%nat
    ∧ np.shape Hs = [2; 2; 2]%nat
    ∧ np.shape PoI = [2; 2]%nat.
Proof.
  intros s s'.
  assert ((RHCPlanner.plan (Stub.env 1 1) Stub.x0 (Stub.z0 1 1) s).2
          = RHCPlanner.Ok tt) as Hrun by (vm_compute; reflexivity).
  destruct (plan_result_shapes (Stub.env 1 1) Stub.x0 (Stub.z0 1 1) s Hrun)
    as (nx & nz & xs & zs & Hs & PoI & Hnx & Hnz & Hshapes).
  injection Hnx as <-. injection Hnz as <-.
  exists xs, zs, Hs, PoI. exact Hshapes.
Defined.

Lemma plan_euler_step_witness :
  let s := Stub.initial 1 1 2 "QMDPL1L0" in
  let s' := (RHCPlanner.plan (Stub.env 1 1) Stub.x0 (Stub.z0 1 1) s).1 in
  ∃ zs, RHCPlanner.zs (RHCPlanner.self s') = Some zs
        ∧ ∀ k i, (k < 2)%nat → (i < 4)%nat →
            np.at_ zs [i; (k + 1)%nat] = (np.at_ zs [i; k] + 2 * 1)%R.
Proof.
  intros s s'.
  assert ((RHCPlanner.plan (Stub.env 1 1) Stub.x0 (Stub.z0 1 1) s).2
          = RHCPlanner.Ok tt) as Hrun by (vm_compute; reflexivity).
  destruct (plan_euler_step (Stub.env 1 1) Stub.x0 (Stub.z0 1 1) s Hrun)
    as (nx & nz & xs & zs & new & _ & Hnz & _ & Hzs & _ & Hsteps).
  injection Hnz as <-.
  exists zs. split; [exact Hzs|]. intros k i Hk Hi.
  destruct (Hsteps k Hk) as (c & _ & _ & (w & w' & Hdyn) & _ & Heuler).
  injection Hdyn as _ Hz_dot _ _ _.
  rewrite <- Hz_dot in Heuler. apply (Heuler eq_refl i Hi).
Defined.

Lemma plan_unrecognised_method_witness :
  let s := Stub.initial 1 1 1 "BOGUS" in
  ∃ e, (RHCPlanner.plan (Stub.env 1 1) Stub.x0 (Stub.z0 1 1) s).2
       = RHCPlanner.Raise e
       ∧ RHCPlanner.self (RHCPlanner.plan (Stub.env 1 1) Stub.x0 (Stub.z0 1 1) s).1
         = RHCPlanner.self s.
Proof.
  apply (plan_unrecognised_method (Stub.env 1 1) Stub.x0 (Stub.z0 1 1)
           (Stub.initial 1 1 1 "BOGUS")).
  - vm_compute. reflexivity.
  - simpl. lia.
Defined.

(** ** Further worked instances *)

Lemma obstacle_cost_shape_witness :
  ∃ xv yv,
    jnp.get [3; 4]%R 0 = Some xv ∧ jnp.get [3; 4]%R 1 = Some yv
    ∧ let dist := sqrt ((xv - 0) * (xv - 0) + (yv - 0) * (yv - 0)) in
      ∃ v, Cost.get_cost (Cost.ObstacleCost (0, 1)%Z (0, 0)%R 1%R base3)
             [3; 4]%R [] 0 = Some v
           ∧ ((1 <= dist)%R → v = 0%R)
           ∧ ((dist < 1)%R → v = ((1 - dist) ^ 2)%R).
Proof.
  apply (obstacle_cost_shape 0 1 0%R 0%R 1%R base3 [3; 4]%R [] 0).
  discriminate.
Defined.

Lemma proximity_cost_shape_witness :
  ∃ xv yv,
    jnp.get [3; 4]%R 0 = Some xv ∧ jnp.get [3; 4]%R 1 = Some yv
    ∧ let dist := sqrt ((xv - 0) ^ 2 + (yv - 0) ^ 2) in
      ∃ v, Cost.get_cost (Cost.ProximityCost (0, 1)%Z 0%R 0%R 1%R base3)
             [3; 4]%R [] 0 = Some v
           ∧ (1 <= v)%R
           ∧ ((1 <= dist)%R → v = 1%R)
           ∧ ((dist < 1)%R → v = exp ((1 - dist) ^ 2))
           ∧ ((dist + 1 <= 1)%R → (2 <= v)%R).
Proof.
  apply (proximity_cost_shape 0 1 0%R 0%R 1%R base3 [3; 4]%R [] 0).
  discriminate.
Defined.

Lemma product_state_proximity_cost_symmetric_witness :
  ∃ x1 y1 x2 y2,
    jnp.get [0; 0; 3; 4]%R 0 = Some x1 ∧ jnp.get [0; 0; 3; 4]%R 1 = Some y1
    ∧ jnp.get [0; 0; 3; 4]%R 2 = Some x2 ∧ jnp.get [0; 0; 3; 4]%R 3 = Some y2
    ∧ let dist := sqrt ((x1 - x2) ^ 2 + (y1 - y2) ^ 2) in
      let term := Rmin (exp (Rmin (dist - 1) 0 ^ 2)) 100000 in
      Cost.get_cost
        (Cost.ProductStateProximityCostTwoPlayer [(0, 1); (2, 3)]%Z 1%R base3)
        [0; 0; 3; 4]%R [] 0
      = Some (2 * term)%R
      ∧ Cost.get_cost
          (Cost.ProductStateProximityCostTwoPlayer [(2, 3); (0, 1)]%Z 1%R base3)
          [0; 0; 3; 4]%R [] 0
        = Some (2 * term)%R
      ∧ (2 <= 2 * term)%R
      ∧ ((1 <= dist)%R → (2 * term)%R = 2%R).
Proof.
  apply (product_state_proximity_cost_symmetric (0, 1)%Z (2, 3)%Z [] 1%R base3
           [0; 0; 3; 4]%R [] 0).
  discriminate.
Defined.

Lemma semiquadratic_cost_shape_witness :
  ∃ zv v,
    jnp.get [3; 4]%R 1 = Some zv
    ∧ Cost.get_cost (Cost.SemiquadraticCost 1 2%R true true base3)
        [3; 4]%R [] 0 = Some v
    ∧ let active := (2 < zv)%R in
      let past := (2 + 1 <= zv)%R in
      (active → v = exp ((zv - 2) ^ 2) ∧ (1 <= v)%R)
      ∧ (past → (2 <= v)%R)
      ∧ (¬ active → v = 0%R).
Proof.
  apply (semiquadratic_cost_shape 1 2%R true true base3 [3; 4]%R [] 0).
  discriminate.
Defined.

Lemma max_vel_cost_shape_witness :
  ∃ px v c,
    jnp.get [3; 4]%R 0 = Some px ∧ jnp.get [3; 4]%R 1 = Some v
    ∧ Cost.get_cost (Cost.MaxVelCostPxDependent 1 0 2%R 0%R 5%R base3)
        [3; 4]%R [] 0 = Some c
    ∧ let active := (2 < v)%R ∧ (0 < px)%R ∧ (px < 5)%R in
      (active → c = Rmin (exp ((v - 2) ^ 2)) 1000 ∧ (1 <= c <= 1000)%R)
      ∧ (active → (2 + 1 <= v)%R → (2 <= c)%R)
      ∧ (¬ active → c = 0%R).
Proof.
  apply (max_vel_cost_shape 1 0 2%R 0%R 5%R base3 [3; 4]%R [] 0).
  discriminate.
Defined.

Lemma get_cost_nonnegative_witness : (0 <= (3 - 1) ^ 2)%R.
Proof.
  apply (get_cost_nonnegative quadratic0 [3; 4]%R [] 0 ((3 - 1) ^ 2)%R).
  reflexivity.
Defined.

Lemma quadratic_cost_control_grad_hess_witness :
  Cost.get_grad (Cost.QuadraticCost 0 2%R false base3) [3; 5]%R [7]%R 0
  = Some ([0; 0]%R, [(2 * (7 - 2))%R])
  ∧ Cost.get_hess (Cost.QuadraticCost 0 2%R false base3) [3; 5]%R [7]%R 0
    = Some ([[0; 0]; [0; 0]]%R, [[2%R]]).
Proof.
  apply (quadratic_cost_control_grad_hess 0 2%R base3 [3; 5]%R [7]%R 0).
  simpl. lia.
Defined.

Lemma box_input_constraint_grad_hess_witness :
  let g := (1 * 5 * (exp (5 * (3 - 1)) - exp (5 * (-1 - 3))))%R in
  let h := (1 * 5 ^ 2 * (exp (5 * (3 - 1)) + exp (5 * (-1 - 3))))%R in
  Cost.get_grad (Cost.BoxInputConstraintCost 0 (-1)%R 1%R 1%R 5%R base3)
    [0]%R [3]%R 0
  = Some ([0%R], [g])
  ∧ Cost.get_hess (Cost.BoxInputConstraintCost 0 (-1)%R 1%R 1%R 5%R base3)
      [0]%R [3]%R 0
    = Some ([[0%R]], [[h]])
  ∧ (3%R = ((-1 + 1) / 2)%R → g = 0%R)
  ∧ ((0 < 1)%R → (0 < 5)%R →
       (0 <= h)%R ∧ ((1 <= 3)%R ∨ (3 <= -1)%R → (1 * 5 ^ 2 <= h)%R)).
Proof.
  apply (box_input_constraint_grad_hess 0 (-1)%R 1%R 1%R 5%R base3
           [0]%R [3]%R 0).
  simpl. lia.
Defined.

Lemma get_traj_grad_columnwise_witness :
  (is_Some (Cost.get_traj_grad quadratic0 traj_x traj_u)
   ↔ ∀ k, (k < 3)%nat →
       is_Some (Cost.get_grad quadratic0 (column traj_x k) (column traj_u k) k))
  ∧ ∀ lxs lus, Cost.get_traj_grad quadratic0 traj_x traj_u = Some (lxs, lus) →
      has_shape2 2 3 lxs ∧ has_shape2 1 3 lus
      ∧ ∀ k, (k < 3)%nat →
          Cost.get_grad quadratic0 (column traj_x k) (column traj_u k) k
          = Some (column lxs k, column lus k).
Proof.
  apply (get_traj_grad_columnwise quadratic0 traj_x traj_u 3).
  - reflexivity.
  - lia.
  - split; [reflexivity|repeat constructor].
  - split; [reflexivity|repeat constructor].
Defined.

Lemma get_traj_hess_slabwise_witness :
  (is_Some (Cost.get_traj_hess quadratic0 traj_x traj_u)
   ↔ ∀ k, (k < 3)%nat →
       is_Some (Cost.get_hess quadratic0 (column traj_x k) (column traj_u k) k))
  ∧ ∀ Hxxs Huus, Cost.get_traj_hess quadratic0 traj_x traj_u = Some (Hxxs, Huus) →
      has_shape3 2 2 3 Hxxs ∧ has_shape3 1 1 3 Huus
      ∧ ∀ k, (k < 3)%nat →
          Cost.get_hess quadratic0 (column traj_x k) (column traj_u k) k
          = Some (slab Hxxs k, slab Huus k).
Proof.
  apply (get_traj_hess_slabwise quadratic0 traj_x traj_u 3).
  - reflexivity.
  - lia.
  - split; [reflexivity|repeat constructor].
  - split; [reflexivity|repeat constructor].
Defined.

Lemma get_traj_grad_dimension_mismatch_witness :
  Cost.get_traj_grad quadratic0 traj_x3 traj_u = None.
Proof.
  apply (get_traj_grad_dimension_mismatch quadratic0 traj_x3 traj_u).
  - simpl. lia.
  - simpl. lia.
  - simpl. lia.
Defined.

Lemma player_get_cost_add_cost_witness :
  PlayerCost.get_cost (registered []) traj_x traj_u 0
  = Some (PlayerCost.Float 0%R)
  ∧ registered (two_terms ++ [(quadratic0, PlayerCost.ArgX, 1%R)])
    = PlayerCost.add_cost (registered two_terms) quadratic0 PlayerCost.ArgX
        1%R
  ∧ PlayerCost.get_cost
      (registered (two_terms ++ [(quadratic0, PlayerCost.ArgX, 1%R)]))
      traj_x traj_u 0
    = total ← PlayerCost.get_cost (registered two_terms) traj_x traj_u 0;
      traj ← Cost.get_traj_cost quadratic0 traj_x traj_u;
      PlayerCost.add total (PlayerCost.scale 1%R traj).
Proof.
  exact (player_get_cost_add_cost two_terms quadratic0 PlayerCost.ArgX 1%R
           traj_x traj_u 0).
Defined.

Lemma player_get_cost_horizon_mismatch_witness :
  PlayerCost.get_cost
    (registered (two_terms ++ [(quadratic_short, PlayerCost.ArgX, 1%R)]))
    traj_x traj_u 0
  = None.
Proof.
  eapply (player_get_cost_horizon_mismatch two_terms
            quadratic_short PlayerCost.ArgX 1%R traj_x traj_u 0).
  - reflexivity.
  - simpl. lia.
  - simpl. lia.
  - simpl. lia.
Defined.

Lemma get_traj_cost_ignores_later_columns_witness :
  Cost.get_traj_cost quadratic_short traj_x traj_u
  = Cost.get_traj_cost quadratic_short (take 2 <$> traj_x) (take 2 <$> traj_u)
  ∧ Cost.get_traj_cost quadratic_short traj_x traj_u
    = pointwise_costs quadratic_short (take 2 <$> traj_x) (take 2 <$> traj_u) 2.
Proof.
  apply (get_traj_cost_ignores_later_columns quadratic_short traj_x traj_u 2).
  - reflexivity.
  - lia.
  - repeat constructor.
  - repeat constructor.
Defined.

Lemma plan_completion_requirements_witness :
  let s := Stub.initial 2 1 2 "QMDPL1L0" in
  (∃ nz, np.len (Stub.z0 2 1) = inr nz ∧ (1 ≤ nz)%nat)
  ∧ ((0 < 1)%nat → (2 ≤ 2)%nat)
  ∧ ((0 < 2)%nat → (1 ≤ 2)%nat)
  ∧ ∀ l1 l2, (l1 < 2)%nat → (l2 < 1)%nat →
      ∃ row solver,
        RHCPlanner._subgames (RHCPlanner.self s) !! l1 = Some row
        ∧ row !! l2 = Some solver.
Proof.
  apply (plan_completion_requirements (Stub.env 2 1) Stub.x0 (Stub.z0 2 1)
           (Stub.initial 2 1 2 "QMDPL1L0")).
  - simpl. lia.
  - vm_compute. reflexivity.
Defined.

Lemma plan_raise_keeps_planner_witness :
  let s := Stub.initial 3 1 1 "QMDPL0" in
  RHCPlanner.self
    (RHCPlanner.plan (Stub.env 3 1) Stub.x0 (Stub.z0 3 1) s).1
  = RHCPlanner.self s.
Proof.
  apply (plan_raise_keeps_planner (Stub.env 3 1) Stub.x0 (Stub.z0 3 1)
           (Stub.initial 3 1 1 "QMDPL0")
           (RHCPlanner.IndexError "nom_cost1_k[l1, l2]")).
  vm_compute. reflexivity.
Defined.

Lemma plan_one_model_call_per_step_witness :
  let s := Stub.initial 1 1 2 "QMDPL1" in
  let s' := (RHCPlanner.plan (Stub.env 1 1) Stub.x0 (Stub.z0 1 1) s).1 in
  (∃ new, RHCPlanner.GiNOD_calls s' = RHCPlanner.GiNOD_calls s ++ new
          ∧ length new = 2%nat)
  ∧ RHCPlanner._subgames (RHCPlanner.self s')
    = RHCPlanner._subgames (RHCPlanner.self s)
  ∧ RHCPlanner._N_sim (RHCPlanner.self s')
    = RHCPlanner._N_sim (RHCPlanner.self s)
  ∧ RHCPlanner._method (RHCPlanner.self s')
    = RHCPlanner._method (RHCPlanner.self s)
  ∧ RHCPlanner._look_ahead (RHCPlanner.self s')
    = RHCPlanner._look_ahead (RHCPlanner.self s).
Proof.
  apply (plan_one_model_call_per_step (Stub.env 1 1) Stub.x0 (Stub.z0 1 1)
           (Stub.initial 1 1 2 "QMDPL1")).
  vm_compute. reflexivity.
Defined.

Lemma plan_scalar_input_witness :
  let s := Stub.initial 1 1 2 "QMDPL0" in
  RHCPlanner.plan (Stub.env 1 1) (np.zeros []) (Stub.z0 1 1) s
  = (s, RHCPlanner.Raise (RHCPlanner.TypeError "len(x0)"))
  ∧ RHCPlanner.plan (Stub.env 1 1) Stub.x0 (np.zeros []) s
    = (s, RHCPlanner.Raise (RHCPlanner.TypeError "len(z0)")).
Proof.
  intros s. split.
  - apply (plan_scalar_input (Stub.env 1 1) (np.zeros []) (Stub.z0 1 1) s).
    reflexivity.
  - apply (plan_scalar_input (Stub.env 1 1) Stub.x0 (np.zeros []) s).
    + discriminate.
    + reflexivity.
Defined.

Lemma plan_no_steps_witness :
  let s := Stub.initial 1 1 0 "BOGUS" in
  let s' := (RHCPlanner.plan (Stub.env 1 1) Stub.x0 (Stub.z0 1 1) s).1 in
  (RHCPlanner.plan (Stub.env 1 1) Stub.x0 (Stub.z0 1 1) s).2 = RHCPlanner.Ok tt
  ∧ RHCPlanner.world s' = RHCPlanner.world s
  ∧ RHCPlanner.GiNOD_calls s' = RHCPlanner.GiNOD_calls s
  ∧ ∃ xs zs,
      RHCPlanner.xs (RHCPlanner.self s') = Some xs
      ∧ RHCPlanner.zs (RHCPlanner.self s') = Some zs
      ∧ np.shape xs = [2; 1]%nat ∧ np.shape zs = [4; 1]%nat
      ∧ (∀ i, (i < 2)%nat → np.at_ xs [i; 0%nat] = np.at_ Stub.x0 [i])
      ∧ (∀ i, (i < 4)%nat → np.at_ zs [i; 0%nat] = np.at_ (Stub.z0 1 1) [i]).
Proof.
  apply (plan_no_steps (Stub.env 1 1) Stub.x0 (Stub.z0 1 1)
           (Stub.initial 1 1 0 "BOGUS") 2 4).
  - reflexivity.
  - reflexivity.
  - reflexivity.
Defined.

Lemma plan_initial_columns_witness :
  let s := Stub.initial 1 1 2 "QMDPL1L0" in
  let s' := (RHCPlanner.plan (Stub.env 1 1) Stub.x0 (Stub.z0 1 1) s).1 in
  ∃ xs zs,
    RHCPlanner.xs (RHCPlanner.self s') = Some xs
    ∧ RHCPlanner.zs (RHCPlanner.self s') = Some zs
    ∧ (∀ i, (i < 2)%nat → np.at_ xs [i; 0%nat] = 0%R)
    ∧ (∀ i, (i < 4)%nat → np.at_ zs [i; 0%nat] = 1%R).
Proof.
  intros s s'.
  assert ((RHCPlanner.plan (Stub.env 1 1) Stub.x0 (Stub.z0 1 1) s).2
          = RHCPlanner.Ok tt) as Hrun by (vm_compute; reflexivity).
  destruct (plan_initial_columns (Stub.env 1 1) Stub.x0 (Stub.z0 1 1) s Hrun)
    as (nx & nz & xs & zs & Hnx & Hnz & Hxs & Hzs & _ & _ & Hx0 & Hz0).
  injection Hnx as <-. injection Hnz as <-.
  exists xs, zs. do 2 (split; [done|]). split.
  - intros i Hi. by rewrite (Hx0 eq_refl i Hi).
  - intros i Hi. by rewrite (Hz0 eq_refl i Hi).
Defined.

Lemma plan_records_model_outputs_witness :
  let s := Stub.initial 1 1 2 "QMDPL1L0" in
  let s' := (RHCPlanner.plan (Stub.env 1 1) Stub.x0 (Stub.z0 1 1) s).1 in
  ∃ Hs PoI,
    RHCPlanner.Hs (RHCPlanner.self s') = Some Hs
    ∧ RHCPlanner.PoI (RHCPlanner.self s') = Some PoI
    ∧ ∀ k, (k < 2)%nat →
        (∀ i j, (i < 2)%nat → (j < 2)%nat → np.at_ Hs [i; j; k] = 0%R)
        ∧ np.at_ PoI [0%nat; k] = 0%R ∧ np.at_ PoI [1%nat; k] = 0%R.
Proof.
  intros s s'.
  assert ((RHCPlanner.plan (Stub.env 1 1) Stub.x0 (Stub.z0 1 1) s).2
          = RHCPlanner.Ok tt) as Hrun by (vm_compute; reflexivity).
  destruct (plan_records_model_outputs (Stub.env 1 1) Stub.x0 (Stub.z0 1 1) s
              Hrun) as (Hs & PoI & new & HHs & HPoI & _ & Hsteps).
  exists Hs, PoI. do 2 (split; [done|]). intros k Hk.
  destruct (Hsteps k Hk)
    as (c & _ & (w & w' & Hdyn) & _ & HH & _ & _ & HP1 & HP2).
  injection Hdyn as _ _ HHc HP1c HP2c.
  rewrite <- HHc in HH. rewrite <- HP1c in HP1. rewrite <- HP2c in HP2.
  split; [|by rewrite HP1, HP2].
  intros i j Hi Hj. by rewrite (HH eq_refl i j Hi Hj).
Defined.

Lemma plan_physical_step_witness :
  let s := Stub.initial 1 1 2 "QMDPL1L0" in
  let s' := (RHCPlanner.plan (Stub.env 1 1) Stub.x0 (Stub.z0 1 1) s).1 in
  ∃ xs,
    RHCPlanner.xs (RHCPlanner.self s') = Some xs
    ∧ ∀ k i, (k < 2)%nat → (i < 2)%nat →
        np.at_ xs [i; (k + 1)%nat] = np.at_ xs [i; k].
Proof.
  intros s s'.
  assert ((RHCPlanner.plan (Stub.env 1 1) Stub.x0 (Stub.z0 1 1) s).2
          = RHCPlanner.Ok tt) as Hrun by (vm_compute; reflexivity).
  destruct (plan_physical_step (Stub.env 1 1) Stub.x0 (Stub.z0 1 1) s Hrun)
    as (nx & xs & Hnx & Hxs & Hsteps).
  injection Hnx as <-.
  exists xs. split; [done|]. intros k i Hk Hi.
  destruct (Hsteps k Hk)
    as (x_k & u1 & u2 & w & w' & x_next & [Hsh Hcol] & Hph & _ & Hnext).
  injection Hph as _ <-.
  rewrite (Hnext Hsh i Hi). apply Hcol.
Defined.

Lemma plan_controls_by_method_witness :
  let s := Stub.initial 1 1 2 "QMDPL1L0" in
  let s' := (RHCPlanner.plan (Stub.env 1 1) Stub.x0 (Stub.z0 1 1) s).1 in
  ∃ nx nz xs zs new,
    np.len Stub.x0 = inr nx ∧ np.len (Stub.z0 1 1) = inr nz
    ∧ RHCPlanner.xs (RHCPlanner.self s') = Some xs
    ∧ RHCPlanner.zs (RHCPlanner.self s') = Some zs
    ∧ RHCPlanner.GiNOD_calls s' = RHCPlanner.GiNOD_calls s ++ new
    ∧ ∀ k, (k < 2)%nat →
        ∃ c x_k u_list w w' x_next,
          new !! k = Some c
          ∧ column_of xs nx k x_k
          ∧ controls (Stub.env 1 1) (RHCPlanner.self s) zs nz k x_k
              (RHCPlanner.call_subgame c) u_list
          ∧ RHCPlanner.disc_time_dyn (Stub.env 1 1) x_k u_list w
            = inr (w', x_next).
Proof.
  apply (plan_controls_by_method (Stub.env 1 1) Stub.x0 (Stub.z0 1 1)
           (Stub.initial 1 1 2 "QMDPL1L0")).
  vm_compute. reflexivity.
Defined.


Lemma quadraticize_gradients_witness :
  let pairs := (λ t : Cost.t R * PlayerCost.arg * R, (t.1.1, t.2)) <$> two_terms in
  (is_Some (quadraticize_jitted (registered two_terms) traj_x traj_u)
   ↔ Forall (λ t, evaluates 3 traj_x traj_u t.1.1) two_terms)
  ∧ ∀ r, quadraticize_jitted (registered two_terms) traj_x traj_u = Some r →
      ∃ dcdx dcdu,
        total_dcdx r = TArray dcdx ∧ total_dcdu r = TArray dcdu
        ∧ np.shape dcdx = [2; 3]%nat ∧ np.shape dcdu = [1; 3]%nat
        ∧ ∀ k, (k < 3)%nat →
            (∀ i, (i < 2)%nat →
               np.at_ dcdx [i; k]
               = weighted_total pairs
                   (λ c, entry (grad_at c traj_x traj_u k).1 i) 0%R)
            ∧ (∀ i, (i < 1)%nat →
                 np.at_ dcdu [i; k]
                 = weighted_total pairs
                     (λ c, entry (grad_at c traj_x traj_u k).2 i) 0%R).
Proof.
  refine (quadraticize_gradients two_terms traj_x traj_u 3 2 1 _ _ _ _ _).
  - discriminate.
  - lia.
  - repeat constructor.
  - split; [reflexivity|repeat constructor].
  - split; [reflexivity|repeat constructor].
Defined.

Lemma quadraticize_hessians_witness :
  let pairs := (λ t : Cost.t R * PlayerCost.arg * R, (t.1.1, t.2)) <$> two_terms in
  ∃ r, quadraticize_jitted (registered two_terms) traj_x traj_u = Some r
       ∧ ∃ Hxx Huu,
           total_Hxx r = TArray Hxx ∧ total_Huu r = TArray Huu
           ∧ np.shape Hxx = [2; 2; 3]%nat ∧ np.shape Huu = [1; 1; 3]%nat
           ∧ ∀ k, (k < 3)%nat →
               (∀ i j, (i < 2)%nat → (j < 2)%nat →
                  np.at_ Hxx [i; j; k]
                  = weighted_total pairs
                      (λ c, entry2 (hess_at c traj_x traj_u k).1 i j) 0%R)
               ∧ (∀ i j, (i < 1)%nat → (j < 1)%nat →
                    np.at_ Huu [i; j; k]
                    = weighted_total pairs
                        (λ c, entry2 (hess_at c traj_x traj_u k).2 i j) 0%R).
Proof.
  intros pairs. eexists. split; [reflexivity|].
  refine (quadraticize_hessians two_terms traj_x traj_u 3 2 1 _ _ _ _ _ _).
  - discriminate.
  - repeat constructor.
  - split; [reflexivity|repeat constructor].
  - split; [reflexivity|repeat constructor].
  - reflexivity.
Defined.
